(** * Cycligent.js: registration/resolution engine and load orchestrator

    A shallow embedding of the dependency-driven registry ([cycligent.class],
    [cycligent.interface], [cycligent.define] and their deferred passes), of
    the script loader ([cycligent.Imports], [cycligent.Script]) and of the
    start-up sequencer ([cycligent.appLoad]) of [cycligent.js], together
    with the properties of the specification that concern them.

    Conventions of the embedding.
    - JavaScript values are the inductive [value]; an object is the finite
      map of its own properties.  Properties found through the prototype
      chain of built-in objects ([constructor], [toString], [length] of a
      string, ...) are not part of the model, and neither is sharing: an
      object stored under two paths is two copies.  The array [scripts],
      which the instances of [cycligent.Imports] share through their
      prototype, is a field of the loader state that [new Imports()]
      keeps.  Enumeration of an object follows the key order of the map.
    - Numbers are integers ([NaN] and fractions do not occur).
    - Functions supplied by the application (definition factories, [main],
      observers) are modelled by their outcome only: a factory is a pure
      thunk that returns a value, [main] and observers return or throw.
      They do not call back into the framework.
    - Code that can throw is in the monad [M]: a computation maps a state
      to a [result] and the state reached, and the mutations made before a
      throw persist, as in JavaScript.
    - The argument normaliser [cycligent.args] is an external utility; the
      registration functions take its (typed) output.

    Besides the registry, the loader and the sequencer, the file embeds
    [cycligent.url] (module [Url]), the message buffer [cycligent.console]
    (module [Console]) and the filling loops of [cycligent.args] (module
    [Args]).  Where these look a name up that the caller chooses, what the
    prototype chain would give is named: [inherited_names] lists the
    properties of [Object.prototype], and [Args] takes the inherited
    members as a parameter.  The last part of the file, "Further
    properties of the code", holds the properties proved of the code
    beyond those of the specification. *)

From Stdlib Require Import Ascii String ZArith Lia.
From stdpp Require Import gmap strings list fin_maps pretty.

#[local] Set Warnings "-register-all".
#[local] Open Scope string_scope.
#[local] Open Scope Z_scope.

(** ** Strings *)

Module Str.

(** [s.split(c)] for a one-character separator: never the empty list. *)
Fixpoint split_on (c : ascii) (s : string) : list string :=
  match s with
  | EmptyString => [EmptyString]
  | String a s' =>
      let r := split_on c s' in
      if Ascii.eqb a c then EmptyString :: r
      else match r with
           | [] => [String a EmptyString]
           | h :: t => String a h :: t
           end
  end.

Definition split_dots (s : string) : list string := split_on "." s.

Definition join_dots (l : list string) : string := String.concat "." l.

(** The class [\s] restricted to the ASCII range. *)
Definition is_space (a : ascii) : bool :=
  let n := nat_of_ascii a in
  ((9 <=? n)%nat && (n <=? 13)%nat) || (n =? 32)%nat.

(** The class [\w]: letters, digits and underscore. *)
Definition is_word (a : ascii) : bool :=
  let n := nat_of_ascii a in
  ((48 <=? n)%nat && (n <=? 57)%nat) || ((65 <=? n)%nat && (n <=? 90)%nat)
  || ((97 <=? n)%nat && (n <=? 122)%nat) || (n =? 95)%nat.

(** The class [[A-Z]]. *)
Definition is_upper (a : ascii) : bool :=
  let n := nat_of_ascii a in (65 <=? n)%nat && (n <=? 90)%nat.

Fixpoint drop_spaces (s : string) : string :=
  match s with
  | EmptyString => EmptyString
  | String a s' => if is_space a then drop_spaces s' else s
  end.

Fixpoint all_chars (p : ascii -> bool) (s : string) : bool :=
  match s with
  | EmptyString => true
  | String a s' => p a && all_chars p s'
  end.

(** Removes the white space that ends the string. *)
Fixpoint drop_trailing_spaces (s : string) : string :=
  match s with
  | EmptyString => EmptyString
  | String a s' =>
      if all_chars is_space s then EmptyString
      else String a (drop_trailing_spaces s')
  end.

(** [s.replace(/(^\s*|\s*$)/g, "")]. *)
Definition trim (s : string) : string :=
  drop_trailing_spaces (drop_spaces s).

(** [s.match(/\.\w+$/)]: the text after the last dot when the string has
    a dot and that text is a non-empty run of word characters; the
    result, when there is one, is returned without its leading dot (the
    source removes it with [substr(1)]). *)
Definition match_last_word (s : string) : option string :=
  match reverse (split_dots s) with
  | lst :: _ :: _ =>
      if negb (String.eqb lst "") && all_chars is_word lst
      then Some lst else None
  | _ => None
  end.

(** [s.substr(0, 1).search(/[A-Z]/) < 0]. *)
Definition no_leading_upper (s : string) : bool :=
  match s with
  | EmptyString => true
  | String a _ => negb (is_upper a)
  end.

End Str.

(** ** Values and the namespace tree *)

(** The functions the framework itself creates and later calls through a
    property: the constructors made by [Class.extend] and
    [Interface.extend], these two [extend] functions, and any other
    function ([FOpaque]), which is a pure thunk. *)
Inductive ftag := FClassCtor | FInterfaceCtor | FClassExtend | FInterfaceExtend | FOpaque.

(** A function value carries the value it returns when called as a thunk
    and its own properties.  Arrays are objects with index keys. *)
Inductive value :=
| VUndefined
| VNull
| VBool (b : bool)
| VNum (n : Z)
| VStr (s : string)
| VObj (props : gmap string value)
| VFun (tag : ftag) (ret : value) (props : gmap string value).

#[global] Instance ftag_eq_dec : EqDecision ftag.
Proof. solve_decision. Defined.

Definition truthy (v : value) : bool :=
  match v with
  | VUndefined | VNull => false
  | VBool b => b
  | VNum n => negb (n =? 0)
  | VStr s => negb (String.eqb s "")
  | VObj _ | VFun _ _ _ => true
  end.

Definition nullish (v : value) : bool :=
  match v with
  | VUndefined | VNull => true
  | _ => false
  end.

Definition is_function (v : value) : bool :=
  match v with
  | VFun _ _ _ => true
  | _ => false
  end.

(** The own properties of a value that has some. *)
Definition own_props (v : value) : gmap string value :=
  match v with
  | VObj m | VFun _ _ m => m
  | _ => ∅
  end.

Inductive exn :=
| TypeError (what : string)
| SyntaxError (what : string)
| Thrown (what : string).

(** The outcome of a call: a value, an exception, or the exhaustion of the
    fuel of a loop of the model (which the loops of the source never
    reach, see the [_total] lemmas). *)
Inductive result (A : Type) :=
| Ok (a : A)
| Throw (e : exn)
| OutOfFuel.
Arguments Ok {A} a.
Arguments Throw {A} e.
Arguments OutOfFuel {A}.

Definition is_ok {A} (r : result A) : bool :=
  match r with Ok _ => true | _ => false end.

Definition is_throw {A} (r : result A) : bool :=
  match r with Throw _ => true | _ => false end.

Module Tree.

(** [v[k]]: reading a property of [undefined] or [null] throws; a
    primitive has no property of its own. *)
Definition get_prop (v : value) (k : string) : result value :=
  match v with
  | VUndefined | VNull =>
      Throw (TypeError ("Cannot read property '" +:+ k +:+ "' of undefined or null"))
  | VObj m | VFun _ _ m => Ok (default VUndefined (m !! k))
  | _ => Ok VUndefined
  end.

(** [v[k] = x] outside strict mode: throws on [undefined] and [null],
    is silently ignored on a primitive. *)
Definition set_prop (v : value) (k : string) (x : value) : result value :=
  match v with
  | VUndefined | VNull =>
      Throw (TypeError ("Cannot set property '" +:+ k +:+ "' of undefined or null"))
  | VObj m => Ok (VObj (<[k := x]> m))
  | VFun t r m => Ok (VFun t r (<[k := x]> m))
  | _ => Ok v
  end.

Definition rbind {A B} (r : result A) (f : A -> result B) : result B :=
  match r with
  | Ok a => f a
  | Throw e => Throw e
  | OutOfFuel => OutOfFuel
  end.

(** The walk [for (...) currentObj = currentObj[split[i]]]. *)
Fixpoint get_path (v : value) (p : list string) : result value :=
  match p with
  | [] => Ok v
  | k :: p' => rbind (get_prop v k) (fun c => get_path c p')
  end.

(** The walk to the parent followed by the assignment of the last
    segment.  The source mutates the parent in place; here the changed
    child is put back under its key on the way up. *)
Fixpoint set_path (v : value) (p : list string) (x : value) : result value :=
  match p with
  | [] => Ok v
  | [k] => set_prop v k x
  | k :: p' =>
      rbind (get_prop v k) (fun c =>
      rbind (set_path c p' x) (fun c' =>
      set_prop v k c'))
  end.

(** The walk of [_createAssumedDefinitions]: every segment that is
    falsy is assigned a fresh empty object before the walk enters it. *)
Fixpoint materialize (v : value) (p : list string) : result value :=
  match p with
  | [] => Ok v
  | k :: p' =>
      rbind (get_prop v k) (fun c =>
      if truthy c then
        rbind (materialize c p') (fun c' => set_prop v k c')
      else
        rbind (set_prop v k (VObj ∅)) (fun v1 =>
        rbind (get_prop v1 k) (fun c1 =>
        rbind (materialize c1 p') (fun c' =>
        if truthy c1 then set_prop v1 k c' else Ok v1))))
  end.

End Tree.

(** ** The state monad with exceptions *)

Definition M (S A : Type) : Type := S -> result A * S.

Definition ret {S A} (a : A) : M S A := fun s => (Ok a, s).

Definition bind {S A B} (m : M S A) (f : A -> M S B) : M S B :=
  fun s =>
    match m s with
    | (Ok a, s') => f a s'
    | (Throw e, s') => (Throw e, s')
    | (OutOfFuel, s') => (OutOfFuel, s')
    end.

Definition throw {S A} (e : exn) : M S A := fun s => (Throw e, s).

Definition gets {S A} (f : S -> A) : M S A := fun s => (Ok (f s), s).

Definition modify {S} (f : S -> S) : M S unit := fun s => (Ok tt, f s).

Definition lift_result {S A} (r : result A) : M S A := fun s => (r, s).

Definition when {S} (b : bool) (m : M S unit) : M S unit :=
  if b then m else ret tt.

(** [try { m } catch (ex) { h ex }]. *)
Definition try_catch {S A} (m : M S A) (h : exn -> M S A) : M S A :=
  fun s =>
    match m s with
    | (Throw e, s') => h e s'
    | other => other
    end.

(** Runs a computation of a component inside a larger state. *)
Definition zoom {S T A} (get : T -> S) (set : S -> T -> T) (m : M S A) : M T A :=
  fun t => let '(r, s') := m (get t) in (r, set s' t).

Declare Scope js_scope.
Delimit Scope js_scope with js.
Notation "x <- m ;; k" := (bind m (fun x => k))
  (at level 100, m at next level, right associativity) : js_scope.
Notation "m ;;; k" := (bind m (fun _ => k))
  (at level 100, right associativity) : js_scope.
#[local] Open Scope js_scope.

(** [for (x of l) body(x)], stopping at the first exception. *)
Fixpoint for_each {S A} (l : list A) (body : A -> M S unit) : M S unit :=
  match l with
  | [] => ret tt
  | x :: l' => body x ;;; for_each l' body
  end.

(** ** Console *)

Inductive level := Info | Log | Warn | Error.

(** A console message: its level and the operands of the concatenation
    that builds its text. *)
Inductive part :=
| PStr (s : string)
| PVal (v : value)
| PExn (e : exn).

Definition message : Type := level * list part.

(** ** Configuration and host *)

Inductive search_result := Found | NotFound | BadPattern.

Record Test := { doImports : bool }.

(** [cycligent.config], [cycligent.test] and what the model needs of the
    page: whether [window.location.hostname] is the local host, whether
    [window.cycligentConfigOverride] is set, whether the document is
    already complete when [load] runs, the locator translation
    [cycligent.url], the outcome of the search of a method's source text
    for the call [cycligent.args(arguments, <interface>.prototype.<method>);],
    whether the [n]-th call of the application's [main] throws, and
    whether the observer with a given identity throws when called. *)
Record Config := {
  debug_on : bool;
  debug_startup : bool;
  debug_scripts : bool;
  debug_args_check : bool;
  debug_interfaces_check : bool;
  debug_doNotCatchAllExceptionsOnLocalHost : bool;
  waitFor_dom : bool;
  waitFor_page : bool;
  startupScript : string;
  test : option Test;
  hostname_is_local : bool;
  configOverride : bool;
  document_complete : bool;
  url : string -> string;
  signature_search : value -> value -> string -> search_result;
  main_throws : nat -> bool;
  observer_throws : nat -> bool
}.

(** ** Registry *)

(** The arguments of [cycligent.class] after [implements] has been split
    at the commas and trimmed; a falsy [extends] or [implements] ([undefined]
    or the empty string) never passes a test of the source, see
    [str_truthy]. *)
Record ClassArgs := {
  c_name : string;
  c_extends : option string;
  c_implements : option (list string);
  c_definition : value
}.

Record InterfaceArgs := {
  i_name : string;
  i_extends : option string;
  i_definition : value
}.

Record DefArgs := {
  d_name : string;
  d_definition : value;
  d_priority : option Z
}.

Definition str_truthy (o : option string) : option string :=
  match o with
  | Some s => if String.eqb s "" then None else Some s
  | None => None
  end.

(** The part of the global state the registry works on: the global object
    [window], [cycligent.classes], [cycligent.interfaces], the three
    deferred queues, the priority list, and the captured console. *)
Record Registry := {
  window : value;
  classes : gmap string bool;
  interfaces : gmap string bool;
  classesToProcess : list (option ClassArgs);
  interfacesToProcess : list (option InterfaceArgs);
  definitionsToProcess : list DefArgs;
  priorityDefinitions : list DefArgs;
  console : list message
}.

Definition with_window (w : value) (r : Registry) : Registry :=
  {| window := w; classes := classes r; interfaces := interfaces r;
     classesToProcess := classesToProcess r;
     interfacesToProcess := interfacesToProcess r;
     definitionsToProcess := definitionsToProcess r;
     priorityDefinitions := priorityDefinitions r; console := console r |}.

Definition with_classes (c : gmap string bool) (r : Registry) : Registry :=
  {| window := window r; classes := c; interfaces := interfaces r;
     classesToProcess := classesToProcess r;
     interfacesToProcess := interfacesToProcess r;
     definitionsToProcess := definitionsToProcess r;
     priorityDefinitions := priorityDefinitions r; console := console r |}.

Definition with_interfaces (i : gmap string bool) (r : Registry) : Registry :=
  {| window := window r; classes := classes r; interfaces := i;
     classesToProcess := classesToProcess r;
     interfacesToProcess := interfacesToProcess r;
     definitionsToProcess := definitionsToProcess r;
     priorityDefinitions := priorityDefinitions r; console := console r |}.

Definition with_classesToProcess (q : list (option ClassArgs)) (r : Registry) : Registry :=
  {| window := window r; classes := classes r; interfaces := interfaces r;
     classesToProcess := q;
     interfacesToProcess := interfacesToProcess r;
     definitionsToProcess := definitionsToProcess r;
     priorityDefinitions := priorityDefinitions r; console := console r |}.

Definition with_interfacesToProcess (q : list (option InterfaceArgs)) (r : Registry) : Registry :=
  {| window := window r; classes := classes r; interfaces := interfaces r;
     classesToProcess := classesToProcess r;
     interfacesToProcess := q;
     definitionsToProcess := definitionsToProcess r;
     priorityDefinitions := priorityDefinitions r; console := console r |}.

Definition with_definitionsToProcess (q : list DefArgs) (r : Registry) : Registry :=
  {| window := window r; classes := classes r; interfaces := interfaces r;
     classesToProcess := classesToProcess r;
     interfacesToProcess := interfacesToProcess r;
     definitionsToProcess := q;
     priorityDefinitions := priorityDefinitions r; console := console r |}.

Definition with_priorityDefinitions (q : list DefArgs) (r : Registry) : Registry :=
  {| window := window r; classes := classes r; interfaces := interfaces r;
     classesToProcess := classesToProcess r;
     interfacesToProcess := interfacesToProcess r;
     definitionsToProcess := definitionsToProcess r;
     priorityDefinitions := q; console := console r |}.

Definition with_console (c : list message) (r : Registry) : Registry :=
  {| window := window r; classes := classes r; interfaces := interfaces r;
     classesToProcess := classesToProcess r;
     interfacesToProcess := interfacesToProcess r;
     definitionsToProcess := definitionsToProcess r;
     priorityDefinitions := priorityDefinitions r; console := c |}.

Definition RM (A : Type) : Type := M Registry A.

(** [console.info], [console.log], [console.warn], [console.error]: the
    captured console appends the message and never throws. *)
Definition console_add (m : message) : RM unit :=
  modify (fun r => with_console (console r ++ [m]) r).

Definition console_put (l : level) (ps : list part) : RM unit :=
  console_add (l, ps).

Definition console_error (s : string) : RM unit := console_put Error [PStr s].
Definition console_info (s : string) : RM unit := console_put Info [PStr s].

(** [cycligent.definitionGet(dottedName)]; [undefined] for an undefined
    name. *)
Definition definitionGet (name : option string) : RM value :=
  match name with
  | None => ret VUndefined
  | Some n => w <- gets window ;; lift_result (Tree.get_path w (Str.split_dots n))
  end.

(** [cycligent.definitionSet(dottedName, value)]. *)
Definition definitionSet (name : string) (x : value) : RM value :=
  w <- gets window ;;
  w' <- lift_result (Tree.set_path w (Str.split_dots name) x) ;;
  modify (with_window w') ;;;
  ret x.

(** ** The object utilities [Class.extend] and [Interface.extend] *)

Module Oop.

Import Tree.

Fixpoint chars_from (i : nat) (s : string) : list (string * value) :=
  match s with
  | EmptyString => []
  | String a s' => (pretty i, VStr (String a EmptyString)) :: chars_from (S i) s'
  end.

(** The properties [for (name in v)] visits and [hasOwnProperty] keeps. *)
Definition enum_props (v : value) : list (string * value) :=
  match v with
  | VObj m | VFun _ _ m => map_to_list m
  | VStr s => chars_from 0 s
  | _ => []
  end.

(** [new this()]: the properties the new object sees, those of
    [this.prototype] (the prototype chain is flattened); a thunk that
    returns an object yields that object. *)
Definition new_object (this : value) : result (gmap string value) :=
  match this with
  | VFun FOpaque (VObj o) _ | VFun FOpaque (VFun _ _ o) _ => Ok o
  | VFun _ _ m => Ok (own_props (default VUndefined (m !! "prototype")))
  | _ => Throw (TypeError "this is not a constructor")
  end.

Definition copy_member (p : gmap string value) (nx : string * value) : gmap string value :=
  let holder := default VUndefined (p !! nx.1) in
  let x :=
    match nx.2 with
    | VFun t r m => if truthy holder then VFun t r (<["super" := holder]> m) else nx.2
    | _ => nx.2
    end in
  <[nx.1 := x]> p.

Definition Class_extend (this cycligentClass prop : value) : result value :=
  rbind (new_object this) (fun proto0 =>
    let prototype :=
      fold_left copy_member (enum_props prop)
                (<["cycligentClass" := cycligentClass]> proto0) in
    Ok (VFun FClassCtor VUndefined
          (<["prototype" := VObj prototype]>
             (<["extend" := VFun FClassExtend VUndefined ∅]> ∅)))).

Definition Interface_extend (this prop : value) : result value :=
  rbind (new_object this) (fun proto0 =>
    let prototype :=
      fold_left (fun p nx => <[nx.1 := nx.2]> p) (enum_props prop) proto0 in
    Ok (VFun FInterfaceCtor VUndefined
          (<["prototype" := VObj prototype]>
             (<["extend" := VFun FInterfaceExtend VUndefined ∅]> ∅)))).

(** [obj.extend(a0, a1)]. *)
Definition call_extend (obj a0 a1 : value) : result value :=
  rbind (get_prop obj "extend") (fun f =>
    match f with
    | VFun FClassExtend _ _ => Class_extend obj a0 a1
    | VFun FInterfaceExtend _ _ => Interface_extend obj a0
    | VFun _ r _ => Ok r
    | _ => Throw (TypeError "extend is not a function")
    end).

(** The global functions [Class] and [Interface]. *)
Definition base_Class : value :=
  VFun FClassCtor VUndefined
       (<["prototype" := VObj ∅]> (<["extend" := VFun FClassExtend VUndefined ∅]> ∅)).

Definition base_Interface : value :=
  VFun FInterfaceCtor VUndefined
       (<["prototype" := VObj ∅]> (<["extend" := VFun FInterfaceExtend VUndefined ∅]> ∅)).

(** An array literal, as an object. *)
Definition array_of (l : list value) : value :=
  VObj (<["length" := VNum (Z.of_nat (length l))]>
          (list_to_map (imap (fun i v => (pretty i, v)) l))).

(** The property key a value is converted to.  Objects have the default
    conversion; the text of a function is not modelled. *)
Definition to_key (v : value) : string :=
  match v with
  | VUndefined => "undefined"
  | VNull => "null"
  | VBool true => "true"
  | VBool false => "false"
  | VNum n => pretty n
  | VStr s => s
  | VObj _ => "[object Object]"
  | VFun _ _ _ => "function () { }"
  end.

End Oop.

(** ** Classes *)

Section Registry.

Variable cfg : Config.

Import Tree Oop.

(** The loop over the parent chain shared by [classMissing],
    [interfaceMissing] and [definitionMissing]: the name of the first
    segment that is falsy, or the empty string. *)
Fixpoint ancestors_missing (dependantVar : value) (dependantVarName : string)
         (segs : list string) : result string :=
  match segs with
  | [] => Ok ""
  | seg :: rest =>
      let name := dependantVarName +:+ "." +:+ seg in
      rbind (get_prop dependantVar seg) (fun c =>
        if truthy c then ancestors_missing c name rest else Ok name)
  end.

Definition parent_missing (name : string) : RM string :=
  w <- gets window ;;
  lift_result (ancestors_missing w "window" (removelast (Str.split_dots name))).

Definition registered (m : gmap string bool) (k : string) : bool :=
  match m !! k with
  | Some true => true
  | _ => false
  end.

Fixpoint first_unregistered (m : gmap string bool) (l : list string) : string :=
  match l with
  | [] => ""
  | x :: l' => if registered m x then first_unregistered m l' else x
  end.

(** [cycligent.classMissing(args)]. *)
Definition classMissing (args : ClassArgs) : RM string :=
  missing <- parent_missing (c_name args) ;;
  cls <- gets classes ;;
  ifs <- gets interfaces ;;
  let missing :=
    match str_truthy (c_extends args) with
    | Some e => if String.eqb missing "" && negb (registered cls e) then e else missing
    | None => missing
    end in
  let missing :=
    match c_implements args with
    | Some l => if String.eqb missing "" then first_unregistered ifs l else missing
    | None => missing
    end in
  ret missing.

Definition unknown_or_cyName (v : value) : part :=
  match get_prop v "cyName" with
  | Ok c => if truthy v && truthy c then PVal c else PStr "UNKNOWN"
  | _ => PStr "UNKNOWN"
  end.

(** The body of the loop over [currentInterface.prototype]. *)
Definition check_method (args : ClassArgs) (newClass currentInterface : value)
           (methodIndex : string) : RM unit :=
  cy <- lift_result (get_prop currentInterface "cyName") ;;
  proto <- lift_result (get_prop newClass "prototype") ;;
  match proto with
  | VObj m | VFun _ _ m =>
      match m !! methodIndex with
      | Some f =>
          if is_function f then
            match signature_search cfg f cy methodIndex with
            | Found => ret tt
            | NotFound =>
                console_put Error
                  [PStr ("Class " +:+ (if String.eqb (c_name args) "" then "?" else c_name args)
                         +:+ " tries to implement the interface ");
                   PVal cy; PStr (" but the method '" +:+ methodIndex
                         +:+ "' does not have the required signature (");
                   PVal cy; PStr (".prototype." +:+ methodIndex
                         +:+ "). Check to make sure you did not forget the .prototype. as part of the name.")]
            | BadPattern => throw (SyntaxError "Invalid regular expression")
            end
          else
            console_put Error
              [PStr ("Class " +:+ (if String.eqb (c_name args) "" then "?" else c_name args)
                     +:+ " tries to implement the interface ");
               PVal cy; PStr (" but does not contain the required method: " +:+ methodIndex
                     +:+ ", although it is present as a non-function.")]
      | None =>
          console_put Error
            [PStr ("Class " +:+ (if String.eqb (c_name args) "" then "?" else c_name args)
                   +:+ " tries to implement the interface ");
             PVal cy; PStr (" but does not contain the required method: " +:+ methodIndex +:+ ".")]
      end
  | _ => throw (TypeError "Cannot use 'in' operator to search for a key in a non-object")
  end.

(** The body of the loop [for (interfaceIndex in Implements)]. *)
Definition check_interface (args : ClassArgs) (newClass currentInterface : value) : RM unit :=
  ifs <- gets interfaces ;;
  let cy := match get_prop currentInterface "cyName" with Ok c => c | _ => VUndefined end in
  when (negb (truthy currentInterface) || negb (truthy cy)
        || bool_decide (ifs !! to_key cy = None))
       (console_put Error
          [PStr ("Class '" +:+ c_name args +:+ "' tries to implement a non-Interface based object '");
           unknown_or_cyName currentInterface; PStr "'."]) ;;;
  proto <- lift_result (get_prop currentInterface "prototype") ;;
  for_each (enum_props proto)
           (fun nx => check_method args newClass currentInterface nx.1).

(** [Implements.push(cycligent.definitionGet(...))] for every name. *)
Fixpoint get_all (names : list string) : RM (list value) :=
  match names with
  | [] => ret []
  | n :: names' =>
      v <- definitionGet (Some n) ;;
      vs <- get_all names' ;;
      ret (v :: vs)
  end.

(** The name [classProcess] checks: [args.name.match(/\.\w+$/)] without
    its dot, or the whole name when there is no match. *)
Definition className_of (name : string) : string :=
  match Str.match_last_word name with
  | None => name
  | Some w => w
  end.

Definition uppercase_error (name : string) : message :=
  (Error, [PStr ("Class '" +:+ name +:+ "of the expression '" +:+ name
                 +:+ "' should begin with an uppercase letter.")]).

(** The start of [cycligent.classProcess(args)]: the check of the
    name. *)
Definition class_name_check (args : ClassArgs) : RM unit :=
  let className := className_of (c_name args) in
  when (Str.no_leading_upper className)
       (console_add (uppercase_error (c_name args))).

(** The middle of [cycligent.classProcess(args)]: the class is built by
    [extend] and, when debugging is on, validated. *)
Definition class_make (args : ClassArgs) : RM value :=
  Extends <- definitionGet (c_extends args) ;;
  newClass <-
    (if truthy Extends
     then lift_result (call_extend Extends (VStr (c_name args)) (c_definition args))
     else w <- gets window ;;
          Class <- lift_result (get_prop w "Class") ;;
          lift_result (call_extend Class (VStr (c_name args)) (c_definition args))) ;;
  if debug_on cfg then
    when (debug_args_check cfg && truthy Extends)
         (cls <- gets classes ;;
          cy <- lift_result (get_prop Extends "cyName") ;;
          when (negb (truthy cy) || bool_decide (cls !! to_key cy = None))
               (console_put Error
                  [PStr ("Class '" +:+ c_name args +:+ "' tries to extend a non-Class based object '");
                   unknown_or_cyName Extends; PStr "'."])) ;;;
    Implements <-
      (if debug_interfaces_check cfg || debug_args_check cfg
       then match c_implements args with
            | Some l => vs <- get_all l ;; ret (Some vs)
            | None => ret (Some [])
            end
       else ret None) ;;
    newClass <-
      match Implements with
      | Some vs =>
          lift_result (set_path newClass ["prototype"; "cycligentInterfaces"] (array_of vs))
      | None => ret newClass
      end ;;
    match c_implements args, debug_interfaces_check cfg with
    | Some _, true =>
        for_each (default [] Implements) (check_interface args newClass)
    | _, _ => ret tt
    end ;;;
    ret newClass
  else ret newClass.

(** The end of [cycligent.classProcess(args)]: the class is named,
    stored under its name and recorded in [cycligent.classes]. *)
Definition class_store (args : ClassArgs) (newClass : value) : RM value :=
  newClass <- lift_result (set_prop newClass "cyName" (VStr (c_name args))) ;;
  definitionSet (c_name args) newClass ;;;
  modify (fun r => with_classes (<[c_name args := true]> (classes r)) r) ;;;
  ret newClass.

(** [cycligent.classProcess(args)]. *)
Definition classProcess (args : ClassArgs) : RM value :=
  class_name_check args ;;;
  newClass <- class_make args ;;
  class_store args newClass.

(** The two [while] loops that pop the [null]s that end the queue and
    shift those that begin it. *)
Fixpoint shift_nulls {A} (q : list (option A)) : list (option A) :=
  match q with
  | None :: q' => shift_nulls q'
  | _ => q
  end.

Definition compact {A} (q : list (option A)) : list (option A) :=
  shift_nulls (reverse (shift_nulls (reverse q))).

(** One iteration of the [for] loop of [classProcessDeferred]; the
    result tells whether the entry was processed. *)
Definition class_step (index : nat) : RM bool :=
  q <- gets classesToProcess ;;
  match q !! index with
  | Some (Some args) =>
      missing <- classMissing args ;;
      if String.eqb missing "" then
        classProcess args ;;;
        modify (fun r => with_classesToProcess (<[index := None]> (classesToProcess r)) r) ;;;
        ret true
      else ret false
  | _ => ret false
  end.

(** The [for] loop from [index] on, over [n] entries ([classProcess] does
    not change the length of the queue). *)
Fixpoint class_for (index n : nat) (seen : bool) : RM bool :=
  match n with
  | O => ret seen
  | S n' => s <- class_step index ;; class_for (S index) n' (seen || s)
  end.

(** The [do ... while (ProcessSeen)] loop. *)
Fixpoint class_do (fuel : nat) : RM unit :=
  match fuel with
  | O => fun r => (OutOfFuel, r)
  | S fuel' =>
      q <- gets classesToProcess ;;
      seen <- class_for 0 (length q) false ;;
      modify (fun r => with_classesToProcess (compact (classesToProcess r)) r) ;;;
      if seen then class_do fuel' else ret tt
  end.

(** [cycligent.classProcessDeferred()]. *)
Definition classProcessDeferred : RM unit :=
  q <- gets classesToProcess ;;
  class_do (S (length q)).

(** The arguments of the map passed to [cycligent.class]. *)
Record ClassSpec := {
  cs_name : string;
  cs_extends : option string;
  cs_implements : option string;
  cs_definition : value
}.

Definition class_args (map : ClassSpec) : ClassArgs :=
  {| c_name := cs_name map;
     c_extends := cs_extends map;
     c_implements :=
       match str_truthy (cs_implements map) with
       | Some s => Some (List.map Str.trim (Str.split_on "," s))
       | None => None
       end;
     c_definition := cs_definition map |}.

(** [cycligent.class(map)]. *)
Definition cycligent_class (map : ClassSpec) : RM unit :=
  let args := class_args map in
  missing <- classMissing args ;;
  if String.eqb missing "" then
    classProcess args ;;;
    classProcessDeferred
  else
    modify (fun r => with_classes (<[c_name args := false]> (classes r)) r) ;;;
    modify (fun r => with_classesToProcess (classesToProcess r ++ [Some args]) r).

(** ** Interfaces *)

(** [cycligent.interfaceMissing(args)]. *)
Definition interfaceMissing (args : InterfaceArgs) : RM string :=
  missing <- parent_missing (i_name args) ;;
  ifs <- gets interfaces ;;
  ret (match str_truthy (i_extends args) with
       | Some e => if String.eqb missing "" && negb (registered ifs e) then e else missing
       | None => missing
       end).

(** [cycligent.interfaceProcess(args)].  In the [extends] branch the
    result of [extend] is not assigned, so [newInterface] is still
    [undefined] at [newInterface.cyName = args.name]. *)
Definition interfaceProcess (args : InterfaceArgs) : RM unit :=
  newInterface <-
    match str_truthy (i_extends args) with
    | Some e =>
        parent <- definitionGet (Some e) ;;
        lift_result (call_extend parent (i_definition args) VUndefined) ;;;
        ret VUndefined
    | None =>
        w <- gets window ;;
        Interface <- lift_result (get_prop w "Interface") ;;
        lift_result (call_extend Interface (i_definition args) VUndefined)
    end ;;
  newInterface <- lift_result (set_prop newInterface "cyName" (VStr (i_name args))) ;;
  definitionSet (i_name args) newInterface ;;;
  ret tt.

(** The object [this] of the call [cycligent.interfaceProcessDeferred()]
    is the namespace object [cycligent]; read as interface arguments, its
    [name] must be a string for [args.name.split] to be callable. *)
Definition this_args : RM InterfaceArgs :=
  w <- gets window ;;
  this <- lift_result (get_prop w "cycligent") ;;
  name <- lift_result (get_prop this "name") ;;
  ext <- lift_result (get_prop this "extends") ;;
  def <- lift_result (get_prop this "definition") ;;
  match name with
  | VStr n =>
      ret {| i_name := n;
             i_extends := if truthy ext then Some (to_key ext) else None;
             i_definition := def |}
  | VUndefined | VNull => throw (TypeError "Cannot read property 'split' of undefined")
  | _ => throw (TypeError "args.name.split is not a function")
  end.

(** One iteration of the [for] loop of [interfaceProcessDeferred]: the
    entry read is [args], the object tested and processed is [this]. *)
Definition interface_step (index : nat) : RM bool :=
  q <- gets interfacesToProcess ;;
  match q !! index with
  | Some (Some args) =>
      this <- this_args ;;
      missing <- interfaceMissing this ;;
      if String.eqb missing "" then
        interfaceProcess this ;;;
        modify (fun r => with_interfacesToProcess (<[index := None]> (interfacesToProcess r)) r) ;;;
        ret true
      else ret false
  | _ => ret false
  end.

Fixpoint interface_for (index n : nat) (seen : bool) : RM bool :=
  match n with
  | O => ret seen
  | S n' => s <- interface_step index ;; interface_for (S index) n' (seen || s)
  end.

(** The [do ... while (processSeen)] loop; the result is
    [interfaceProcessed]. *)
Fixpoint interface_do (fuel : nat) (interfaceProcessed : bool) : RM bool :=
  match fuel with
  | O => fun r => (OutOfFuel, r)
  | S fuel' =>
      q <- gets interfacesToProcess ;;
      seen <- interface_for 0 (length q) false ;;
      modify (fun r => with_interfacesToProcess (compact (interfacesToProcess r)) r) ;;;
      if seen then interface_do fuel' true else ret interfaceProcessed
  end.

(** [cycligent.interfaceProcessDeferred()]. *)
Definition interfaceProcessDeferred : RM unit :=
  q <- gets interfacesToProcess ;;
  interfaceProcessed <- interface_do (S (length q)) false ;;
  when interfaceProcessed classProcessDeferred.

(** [cycligent.interface(map)]. *)
Definition cycligent_interface (args : InterfaceArgs) : RM unit :=
  missing <- interfaceMissing args ;;
  if String.eqb missing "" then
    interfaceProcess args ;;;
    modify (fun r => with_interfaces (<[i_name args := true]> (interfaces r)) r) ;;;
    interfaceProcessDeferred
  else
    modify (fun r => with_interfaces (<[i_name args := false]> (interfaces r)) r) ;;;
    modify (fun r => with_interfacesToProcess (interfacesToProcess r ++ [Some args]) r).

(** ** Definitions *)

(** [cycligent.definitionMissing(args)]. *)
Definition definitionMissing (args : DefArgs) : RM string :=
  parent_missing (d_name args).

Definition priority_truthy (p : option Z) : bool :=
  match p with
  | Some n => negb (n =? 0)
  | None => false
  end.

(** The assignment both [definitionProcess2] and [define.execute] make:
    a function is called and its result stored when truthy, any other
    value is stored as it is. *)
Definition store_definition (args : DefArgs) : RM unit :=
  match d_definition args with
  | VFun _ returnValue _ =>
      when (truthy returnValue) (definitionSet (d_name args) returnValue ;;; ret tt)
  | v => definitionSet (d_name args) v ;;; ret tt
  end.

(** [cycligent.definitionProcess2(args)]. *)
Definition definitionProcess2 (args : DefArgs) : RM unit :=
  when (truthy (d_definition args))
       (if priority_truthy (d_priority args)
        then modify (fun r => with_priorityDefinitions (priorityDefinitions r ++ [args]) r)
        else store_definition args).

(** [cycligent.definitionProcess(args)]. *)
Definition definitionProcess (args : DefArgs) : RM unit :=
  v <- definitionGet (Some (d_name args)) ;;
  when (negb (truthy v)) (definitionSet (d_name args) (VObj ∅) ;;; ret tt) ;;;
  definitionProcess2 args.

(** The [for] loop of [definitionProcessDeferred] over the entries not
    yet visited: a processed entry is spliced out and the index stays,
    so the loop visits each entry once, keeping those still missing a
    parent.  [kept] are the entries before the index. *)
Fixpoint definition_for (kept todo : list DefArgs) (seen : bool) : RM bool :=
  match todo with
  | [] => ret seen
  | args :: todo' =>
      missing <- definitionMissing args ;;
      if String.eqb missing "" then
        definitionProcess args ;;;
        modify (with_definitionsToProcess (kept ++ todo')) ;;;
        definition_for kept todo' true
      else definition_for (kept ++ [args]) todo' seen
  end.

Fixpoint definition_do (fuel : nat) : RM unit :=
  match fuel with
  | O => fun r => (OutOfFuel, r)
  | S fuel' =>
      q <- gets definitionsToProcess ;;
      seen <- definition_for [] q false ;;
      if seen then definition_do fuel' else ret tt
  end.

(** [cycligent.definitionProcessDeferred()]. *)
Definition definitionProcessDeferred : RM unit :=
  q <- gets definitionsToProcess ;;
  definition_do (S (length q)).

(** [cycligent.define(name, definition, priority)]. *)
Definition cycligent_define (args : DefArgs) : RM unit :=
  missing <- definitionMissing args ;;
  if String.eqb missing "" then
    definitionProcess args ;;;
    definitionProcessDeferred
  else
    modify (fun r => with_definitionsToProcess (definitionsToProcess r ++ [args]) r).

(** The order [Array.prototype.sort] gives with the comparator
    [a.priority - b.priority], as a stable insertion sort. *)
Definition priority_of (d : DefArgs) : Z := default 0 (d_priority d).

Fixpoint insert_by_priority (d : DefArgs) (l : list DefArgs) : list DefArgs :=
  match l with
  | [] => [d]
  | x :: l' =>
      if priority_of d <=? priority_of x then d :: l
      else x :: insert_by_priority d l'
  end.

Definition sort_by_priority (l : list DefArgs) : list DefArgs :=
  fold_right insert_by_priority [] l.

(** [cycligent.define.execute()]. *)
Definition define_execute : RM unit :=
  modify (fun r => with_priorityDefinitions (sort_by_priority (priorityDefinitions r)) r) ;;;
  l <- gets priorityDefinitions ;;
  for_each l (fun d =>
    store_definition d ;;;
    classProcessDeferred ;;;
    interfaceProcessDeferred).

(** The loop of [_createAssumedDefinitions] over
    [cycligent.definitionsToProcess]. *)
Definition assume_definition (definition : DefArgs) : RM unit :=
  w <- gets window ;;
  w' <- lift_result (materialize w (Str.split_dots (d_name definition))) ;;
  modify (with_window w') ;;;
  definitionProcess2 definition.

End Registry.

(** ** Loader and start-up sequencer *)

(** A [cycligent.Script]: [interval] tells whether its time-out timer is
    still set. *)
Record Script := {
  scriptId : string;
  loaded : bool;
  interval : bool
}.

(** [cycligent.imports]. *)
Record Imports := {
  scriptsPending : Z;
  scriptsCount : Z;
  scripts : gmap string Script
}.

(** The variables closed over by [cycligent.appLoad]; an observer is the
    identity of a function. *)
Record AppLoad := {
  scriptsReady : bool;
  domReady : bool;
  pageReady : bool;
  appLoadFinished : bool;
  notifyFunctions : list nat
}.

(** What the framework does to the application, as a trace: the number of
    calls of [main], the observers called, in order, the number of calls
    of [cycligent.appLoad.allScriptsLoaded], and
    [cycligent.test.scaffoldingReady]. *)
Record Host := {
  mainCalls : nat;
  notified : list nat;
  settled : nat;
  scaffoldingReady : bool
}.

Record State := {
  registry : Registry;
  imports : Imports;
  appLoad : AppLoad;
  host : Host
}.

Definition with_registry (r : Registry) (s : State) : State :=
  {| registry := r; imports := imports s; appLoad := appLoad s; host := host s |}.
Definition with_imports (i : Imports) (s : State) : State :=
  {| registry := registry s; imports := i; appLoad := appLoad s; host := host s |}.
Definition with_appLoad (a : AppLoad) (s : State) : State :=
  {| registry := registry s; imports := imports s; appLoad := a; host := host s |}.
Definition with_host (h : Host) (s : State) : State :=
  {| registry := registry s; imports := imports s; appLoad := appLoad s; host := h |}.

Definition with_scriptsReady (b : bool) (a : AppLoad) : AppLoad :=
  {| scriptsReady := b; domReady := domReady a; pageReady := pageReady a;
     appLoadFinished := appLoadFinished a; notifyFunctions := notifyFunctions a |}.
Definition with_domReady (b : bool) (a : AppLoad) : AppLoad :=
  {| scriptsReady := scriptsReady a; domReady := b; pageReady := pageReady a;
     appLoadFinished := appLoadFinished a; notifyFunctions := notifyFunctions a |}.
Definition with_pageReady (b : bool) (a : AppLoad) : AppLoad :=
  {| scriptsReady := scriptsReady a; domReady := domReady a; pageReady := b;
     appLoadFinished := appLoadFinished a; notifyFunctions := notifyFunctions a |}.
Definition with_appLoadFinished (b : bool) (a : AppLoad) : AppLoad :=
  {| scriptsReady := scriptsReady a; domReady := domReady a; pageReady := pageReady a;
     appLoadFinished := b; notifyFunctions := notifyFunctions a |}.
Definition with_notifyFunctions (l : list nat) (a : AppLoad) : AppLoad :=
  {| scriptsReady := scriptsReady a; domReady := domReady a; pageReady := pageReady a;
     appLoadFinished := appLoadFinished a; notifyFunctions := l |}.

Definition SM (A : Type) : Type := M State A.

(** A registry function run on the whole state. *)
Definition reg {A} (m : RM A) : SM A := zoom registry with_registry m.

Definition on_imports (f : Imports -> Imports) : SM unit :=
  modify (fun s => with_imports (f (imports s)) s).
Definition on_appLoad (f : AppLoad -> AppLoad) : SM unit :=
  modify (fun s => with_appLoad (f (appLoad s)) s).
Definition on_host (f : Host -> Host) : SM unit :=
  modify (fun s => with_host (f (host s)) s).

(** [new cycligent.Imports()].  [Class.extend] copies the members of the
    definition onto the prototype, so a new instance reads the counters of
    the prototype, 1 and 0, and shares the array [scripts] with every
    other instance: what an earlier instance has stored is still there. *)
Definition new_Imports (shared : gmap string Script) : Imports :=
  {| scriptsPending := 1; scriptsCount := 0; scripts := shared |}.

Section Loader.

Variable cfg : Config.

Definition in_test : bool :=
  match test cfg with
  | Some _ => true
  | None => false
  end.

(** [cycligent.test && !cycligent.test.doImports]. *)
Definition imports_disabled : bool :=
  match test cfg with
  | Some t => negb (doImports t)
  | None => false
  end.

(** [new cycligent.Script(scriptId)]: the script element is created and
    the time-out timer set. *)
Definition new_Script (id : string) : SM Script :=
  when (debug_scripts cfg)
       (reg (console_info ("Importing script: " +:+ id +:+ " (" +:+ url cfg id +:+ ")"))) ;;;
  ret {| scriptId := id; loaded := false; interval := true |}.

(** [cycligent.import(scriptId)], that is [cycligent.Imports.Import]. *)
Definition Import (id : string) : SM unit :=
  if imports_disabled then ret tt
  else
    i <- gets imports ;;
    match scripts i !! id with
    | Some _ =>
        when (debug_scripts cfg)
             (reg (console_info ("Redundant import of '" +:+ id +:+ "' avoided.")))
    | None =>
        on_imports (fun i => {| scriptsPending := scriptsPending i + 1;
                                scriptsCount := scriptsCount i;
                                scripts := scripts i |}) ;;;
        on_imports (fun i => {| scriptsPending := scriptsPending i;
                                scriptsCount := scriptsCount i + 1;
                                scripts := scripts i |}) ;;;
        s <- new_Script id ;;
        on_imports (fun i => {| scriptsPending := scriptsPending i;
                                scriptsCount := scriptsCount i;
                                scripts := <[id := s]> (scripts i) |})
    end.

(** The call of the application's [main]. *)
Definition call_main : SM unit :=
  n <- gets (fun s => mainCalls (host s)) ;;
  on_host (fun h => {| mainCalls := S (mainCalls h); notified := notified h;
                       settled := settled h; scaffoldingReady := scaffoldingReady h |}) ;;;
  if main_throws cfg n then throw (Thrown "main") else ret tt.

(** The call [notifyFunctions[i]()]. *)
Definition call_observer (f : nat) : SM unit :=
  on_host (fun h => {| mainCalls := mainCalls h; notified := notified h ++ [f];
                       settled := settled h; scaffoldingReady := scaffoldingReady h |}) ;;;
  if observer_throws cfg f then throw (Thrown "observer") else ret tt.

(** The inner function [mainGo] of [_executeMain]. *)
Definition mainGo : SM unit :=
  finished <- gets (fun s => appLoadFinished (appLoad s)) ;;
  match test cfg with
  | Some _ =>
      on_host (fun h => {| mainCalls := mainCalls h; notified := notified h;
                           settled := settled h; scaffoldingReady := true |})
  | None => if finished then ret tt else call_main
  end ;;;
  on_appLoad (with_appLoadFinished true) ;;;
  l <- gets (fun s => notifyFunctions (appLoad s)) ;;
  for_each l call_observer.

(** The two diagnostic loops of [_executeMain]; a [null] left in a queue
    has no [name]. *)
Definition report_interface (o : option InterfaceArgs) : RM unit :=
  match o with
  | None => throw (TypeError "Cannot read property 'name' of null")
  | Some a =>
      missing <- interfaceMissing a ;;
      console_error ("The interface '" +:+ i_name a
                     +:+ "' failed to process at startup. Missing dependency '"
                     +:+ missing +:+ "'.")
  end.

Definition report_class (o : option ClassArgs) : RM unit :=
  match o with
  | None => throw (TypeError "Cannot read property 'name' of null")
  | Some a =>
      missing <- classMissing a ;;
      console_error ("The class '" +:+ c_name a
                     +:+ "' failed to process at startup. Missing dependency '"
                     +:+ missing +:+ "'.")
  end.

(** [_executeMain()]. *)
Definition _executeMain : SM unit :=
  iq <- gets (fun s => interfacesToProcess (registry s)) ;;
  reg (for_each iq report_interface) ;;;
  cq <- gets (fun s => classesToProcess (registry s)) ;;
  reg (for_each cq report_class) ;;;
  if debug_doNotCatchAllExceptionsOnLocalHost cfg && hostname_is_local cfg
  then mainGo
  else try_catch mainGo (fun ex => reg (console_put Error [PExn ex])).

(** [readyCheck()]. *)
Definition readyCheck : SM unit :=
  a <- gets appLoad ;;
  when (negb (appLoadFinished a) && debug_startup cfg)
       (reg (console_info
               ("Scripts " +:+ (if scriptsReady a then "" else "not ") +:+ "ready, "
                +:+ "DOM " +:+ (if domReady a then "" else "not ") +:+ "ready, "
                +:+ "page " +:+ (if pageReady a then "" else "not ") +:+ "ready."))) ;;;
  if scriptsReady a && domReady a && pageReady a then
    when (configOverride cfg)
         (reg (console_put Log [PStr "Configuration override was present in markup."])) ;;;
    when (negb (appLoadFinished a) && debug_startup cfg)
         (reg (console_info "Cycligent starting application.")) ;;;
    _executeMain
  else ret tt.

(** [_allScriptsLoaded2()]. *)
Definition _allScriptsLoaded2 : SM unit :=
  reg (define_execute cfg) ;;;
  readyCheck.

(** [_createAssumedDefinitions()]. *)
Definition _createAssumedDefinitions : SM unit :=
  q <- gets (fun s => definitionsToProcess (registry s)) ;;
  reg (for_each q assume_definition) ;;;
  reg (classProcessDeferred cfg) ;;;
  reg (interfaceProcessDeferred cfg) ;;;
  _allScriptsLoaded2.

(** The step shared by [allScriptsLoaded] and the test branch of
    [load]. *)
Definition run_initialization : SM unit :=
  q <- gets (fun s => definitionsToProcess (registry s)) ;;
  match q with
  | [] => _allScriptsLoaded2
  | _ :: _ => _createAssumedDefinitions
  end.

(** [cycligent.appLoad.allScriptsLoaded()]. *)
Definition allScriptsLoaded : SM unit :=
  on_host (fun h => {| mainCalls := mainCalls h; notified := notified h;
                       settled := S (settled h); scaffoldingReady := scaffoldingReady h |}) ;;;
  n <- gets (fun s => scriptsCount (imports s)) ;;
  when (debug_scripts cfg)
       (reg (console_put Info [PVal (VNum n); PStr " script(s) loaded."])) ;;;
  on_appLoad (with_scriptsReady true) ;;;
  when (debug_startup cfg) (reg (console_info "Running module initialization code.")) ;;;
  run_initialization.

(** [cycligent.Imports.scriptLoaded()], the callback of every script
    that [Import] creates. *)
Definition imports_scriptLoaded : SM unit :=
  reg (classProcessDeferred cfg) ;;;
  reg (interfaceProcessDeferred cfg) ;;;
  on_imports (fun i => {| scriptsPending := scriptsPending i - 1;
                          scriptsCount := scriptsCount i;
                          scripts := scripts i |}) ;;;
  p <- gets (fun s => scriptsPending (imports s)) ;;
  if p =? 0 then allScriptsLoaded else ret tt.

Definition update_script (id : string) (f : Script -> Script) : SM unit :=
  on_imports (fun i => {| scriptsPending := scriptsPending i;
                          scriptsCount := scriptsCount i;
                          scripts := alter f id (scripts i) |}).

(** [cycligent.Script.scriptLoaded()], the handler of the [load] event
    of the script element. *)
Definition Script_scriptLoaded (id : string) : SM unit :=
  update_script id (fun s => {| scriptId := scriptId s; loaded := loaded s; interval := false |}) ;;;
  update_script id (fun s => {| scriptId := scriptId s; loaded := true; interval := interval s |}) ;;;
  when (debug_scripts cfg)
       (reg (console_info ("Import Complete (Script Loaded): " +:+ id))) ;;;
  imports_scriptLoaded.

(** [cycligent.Script.timeout()], the handler of the timer. *)
Definition Script_timeout (id : string) : SM unit :=
  update_script id (fun s => {| scriptId := scriptId s; loaded := loaded s; interval := false |}) ;;;
  reg (console_error ("Script Import Failed: " +:+ id)).

(** [domLoaded()] and [pageLoaded()]. *)
Definition domLoaded : SM unit :=
  on_appLoad (with_domReady true) ;;;
  readyCheck.

Definition pageLoaded : SM unit :=
  on_appLoad (with_pageReady true) ;;;
  readyCheck.

(** The statement of [load] that releases the unit [scriptsPending]
    starts with. *)
Definition release_bias : SM unit :=
  on_imports (fun i => {| scriptsPending := scriptsPending i - 1;
                          scriptsCount := scriptsCount i;
                          scripts := scripts i |}).

(** [load()]. *)
Definition load : SM unit :=
  on_imports (fun i => new_Imports (scripts i)) ;;;
  (if negb in_test && waitFor_dom cfg
   then when (document_complete cfg) domLoaded
   else on_appLoad (with_domReady true)) ;;;
  (if negb in_test && waitFor_page cfg
   then ret tt
   else on_appLoad (with_pageReady true)) ;;;
  if negb imports_disabled then
    release_bias ;;;
    Import (startupScript cfg)
  else
    on_appLoad (with_scriptsReady true) ;;;
    when (debug_startup cfg)
         (reg (console_info "Running module initialization code in test mode.")) ;;;
    run_initialization.

(** [cycligent.appLoad.notify(func)]. *)
Definition notify (func : nat) : SM unit :=
  on_appLoad (fun a =>
    if bool_decide (func ∈ notifyFunctions a) then a
    else with_notifyFunctions (notifyFunctions a ++ [func]) a).

(** [cycligent.appLoad.notifyClear(func)]. *)
Definition notifyClear (func : nat) : SM unit :=
  on_appLoad (fun a =>
    with_notifyFunctions (filter (fun g => g ≠ func) (notifyFunctions a)) a).

(** [cycligent.appLoad.finished()]. *)
Definition finished (s : State) : bool := appLoadFinished (appLoad s).

End Loader.

(** ** The page as a transition system *)

(** What can happen on the page: the calls a running script makes, and the
    events the browser delivers. *)
Inductive op :=
| OpLoad
| OpImport (id : string)
| OpClass (map : ClassSpec)
| OpInterface (args : InterfaceArgs)
| OpDefine (args : DefArgs)
| OpNotify (func : nat)
| OpNotifyClear (func : nat)
| OpScriptLoaded (id : string)
| OpScriptTimeout (id : string)
| OpDomLoaded
| OpPageLoaded.

(** The browser delivers the [load] event of a script element once, and
    the tick of a timer only while the timer is set: an event for a script
    that was not requested, a second [load] event, or a tick after the
    timer has been cleared does not happen. *)
Definition script_event (id : string) (enabled : Script -> bool) (handler : SM unit) : SM unit :=
  i <- gets imports ;;
  match scripts i !! id with
  | Some sc => if enabled sc then handler else ret tt
  | None => ret tt
  end.

Definition step (cfg : Config) (o : op) : SM unit :=
  match o with
  | OpLoad => load cfg
  | OpImport id => Import cfg id
  | OpClass map => reg (cycligent_class cfg map)
  | OpInterface args => reg (cycligent_interface cfg args)
  | OpDefine args => reg (cycligent_define args)
  | OpNotify f => notify f
  | OpNotifyClear f => notifyClear f
  | OpScriptLoaded id =>
      script_event id (fun sc => negb (loaded sc)) (Script_scriptLoaded cfg id)
  | OpScriptTimeout id => script_event id interval (Script_timeout id)
  | OpDomLoaded => domLoaded cfg
  | OpPageLoaded => pageLoaded cfg
  end.

(** An exception that leaves a call or a handler goes to the browser; the
    state keeps what was done before it. *)
Definition exec (cfg : Config) (o : op) (s : State) : State := (step cfg o s).2.

Definition run (cfg : Config) (l : list op) (s : State) : State :=
  fold_left (fun s o => exec cfg o s) l s.

(** The registry once the framework has booted: the globals [Class] and
    [Interface], the namespace object [cycligent] (its own members are the
    fields of the state, not entries of the tree), nothing registered. *)
Definition empty_registry : Registry :=
  {| window := VObj (<["Class" := Oop.base_Class]>
                       (<["Interface" := Oop.base_Interface]>
                          (<["cycligent" := VObj ∅]> ∅)));
     classes := ∅; interfaces := ∅;
     classesToProcess := []; interfacesToProcess := [];
     definitionsToProcess := []; priorityDefinitions := [];
     console := [] |}.

Definition initial_state : State :=
  {| registry := empty_registry;
     imports := new_Imports ∅;
     appLoad := {| scriptsReady := false; domReady := false; pageReady := false;
                   appLoadFinished := false; notifyFunctions := [] |};
     host := {| mainCalls := 0; notified := []; settled := 0; scaffoldingReady := false |} |}.

(** The configuration of [config.js], outside test mode and with an
    application whose [main] and observers return. *)
Definition default_config : Config :=
  {| debug_on := true; debug_startup := true; debug_scripts := false;
     debug_args_check := true; debug_interfaces_check := true;
     debug_doNotCatchAllExceptionsOnLocalHost := false;
     waitFor_dom := false; waitFor_page := false;
     startupScript := "^main"; test := None;
     hostname_is_local := false; configOverride := false;
     document_complete := false;
     url := fun id => id;
     signature_search := fun _ _ _ => Found;
     main_throws := fun _ => false;
     observer_throws := fun _ => false |}.

(** ** Predicates of the development *)

(** A computation preserves a relation between the state it starts from
    and the state it reaches, whatever its outcome. *)
Inductive preserves {S A} (P : S -> S -> Prop) (m : M S A) : Prop :=
| Preserves : (forall s, P s (m s).2) -> preserves P m.

(** The pending counter and the number of "all scripts loaded" events. *)
Definition pending (s : State) : Z := scriptsPending (imports s).
Definition fired (s : State) : nat := settled (host s).

(** The loader's fields and the number of settled events are as they
    were. *)
Definition same_loader (s s' : State) : Prop :=
  imports s' = imports s /\ settled (host s') = settled (host s).

(** The requests whose script has not loaded, their number, and what the
    counter holds above it. *)
Definition unloaded (s : State) : gmap string Script :=
  filter (fun kv => loaded kv.2 = false) (scripts (imports s)).
Definition outstanding (s : State) : Z := Z.of_nat (size (unloaded s)).
Definition slack (s : State) : Z := pending s - outstanding s.

(** The requested scripts and their flags are as they were. *)
Definition same_scripts (s s' : State) : Prop :=
  scripts (imports s') = scripts (imports s).

(** The flag [scriptsReady] of the sequencer. *)
Definition ready (s : State) : bool := scriptsReady (appLoad s).

(** The flag stays set. *)
Definition keeps_ready (s s' : State) : Prop := ready s = true -> ready s' = true.

(** The flag stays set, and [main] is not called while it is unset. *)
Definition gated (s s' : State) : Prop :=
  keeps_ready s s' /\
  (mainCalls (host s') = mainCalls (host s) \/ ready s' = true).

(** The flag is set by the event [allScriptsLoaded] only, or by [load]
    when imports are switched off. *)
Definition ready_by_event (cfg : Config) (s s' : State) : Prop :=
  (fired s <= fired s')%nat /\
  (ready s' = ready s \/ (0 < fired s')%nat \/ imports_disabled cfg = true).

(** Under the test structure [main] is not called. *)
Definition main_outside_test (cfg : Config) (s s' : State) : Prop :=
  test cfg <> None -> mainCalls (host s') = mainCalls (host s).

(** [main] has not been called, or it has been called once and the
    sequencer is finished. *)
Definition main_latched (s : State) : Prop :=
  mainCalls (host s) = 0%nat \/
  (mainCalls (host s) = 1%nat /\ appLoadFinished (appLoad s) = true).

Definition keeps_latch (s s' : State) : Prop := main_latched s -> main_latched s'.

Definition same_main (s s' : State) : Prop :=
  mainCalls (host s') = mainCalls (host s) /\ appLoad s' = appLoad s.

Definition keeps_nodup (s s' : State) : Prop :=
  NoDup (notifyFunctions (appLoad s)) -> NoDup (notifyFunctions (appLoad s')).

(** The exception boundary of [_executeMain] is switched off. *)
Definition boundary_disabled (cfg : Config) : bool :=
  debug_doNotCatchAllExceptionsOnLocalHost cfg && hostname_is_local cfg.

(** An object or a function: a value that keeps the properties assigned
    to it. *)
Definition is_object (v : value) : bool :=
  match v with
  | VObj _ | VFun _ _ _ => true
  | _ => false
  end.

(** The parent namespace of a dotted name exists and is an object. *)
Definition parent_is_object (r : Registry) (name : string) : Prop :=
  exists p, Tree.get_path (window r) (removelast (Str.split_dots name)) = Ok p /\ is_object p = true.

(** The registry is as it was but for messages added to the console. *)
Definition only_logs (r r' : Registry) : Prop :=
  exists t, r' = with_console (console r ++ t) r.

Definition same_console (r r' : Registry) : Prop := console r' = console r.

(** The constructor [Class.extend] returns, given the prototype it has
    built. *)
Definition class_ctor (proto : gmap string value) : value :=
  VFun FClassCtor VUndefined
       (<["prototype" := VObj proto]> (<["extend" := VFun FClassExtend VUndefined ∅]> ∅)).

(** A result other than the exhaustion of the fuel, and a computation
    that never exhausts it. *)
Definition defined {A} (r : result A) : Prop := r <> OutOfFuel.

Inductive total {S A} (m : M S A) : Prop :=
| Total : (forall s, defined (m s).1) -> total m.

(** The entries of a queue that are not [null]. *)
Fixpoint live {A} (q : list (option A)) : nat :=
  match q with
  | [] => 0
  | Some _ :: q' => S (live q')
  | None :: q' => live q'
  end.

Definition same_class_queue (r r' : Registry) : Prop :=
  classesToProcess r' = classesToProcess r.
Definition same_interface_queue (r r' : Registry) : Prop :=
  interfacesToProcess r' = interfacesToProcess r.
Definition same_definition_queue (r r' : Registry) : Prop :=
  definitionsToProcess r' = definitionsToProcess r.

(** ** Scenarios *)

(** [definitionGet(name).cyName]. *)
Definition cyName_at (r : Registry) (name : string) : result value :=
  Tree.rbind (Tree.get_path (window r) (Str.split_dots name))
             (fun v => Tree.get_prop v "cyName").

(** Interface [I], class [C] that extends [B] and implements [I], and
    class [B], none with a parent namespace. *)
Definition I_args : InterfaceArgs :=
  {| i_name := "I"; i_extends := None; i_definition := VObj ∅ |}.
Definition C_spec : ClassSpec :=
  {| cs_name := "C"; cs_extends := Some "B"; cs_implements := Some "I";
     cs_definition := VObj ∅ |}.
Definition B_spec : ClassSpec :=
  {| cs_name := "B"; cs_extends := None; cs_implements := None;
     cs_definition := VObj ∅ |}.

(** Interface [J] extends the interface [I]; interface [K] extends an
    interface [Z] that is not registered; interface [L] depends on
    nothing. *)
Definition J_args : InterfaceArgs :=
  {| i_name := "J"; i_extends := Some "I"; i_definition := VObj ∅ |}.
Definition K_args : InterfaceArgs :=
  {| i_name := "K"; i_extends := Some "Z"; i_definition := VObj ∅ |}.
Definition L_args : InterfaceArgs :=
  {| i_name := "L"; i_extends := None; i_definition := VObj ∅ |}.

(** The registry in which [K] has been deferred. *)
Definition K_deferred : Registry :=
  (cycligent_interface default_config K_args empty_registry).2.

(** Definitions [a.b.c] (no payload) and [a.b] (payload [{x: 1}]),
    registered in this order while [a] does not exist, and the definition
    of [a]. *)
Definition d_abc : DefArgs :=
  {| d_name := "a.b.c"; d_definition := VUndefined; d_priority := None |}.
Definition d_ab : DefArgs :=
  {| d_name := "a.b"; d_definition := VObj {["x" := VNum 1]}; d_priority := None |}.
Definition d_a : DefArgs :=
  {| d_name := "a"; d_definition := VUndefined; d_priority := None |}.

(** The namespace [app], and a class named [app.Widget]. *)
Definition d_app : DefArgs :=
  {| d_name := "app"; d_definition := VUndefined; d_priority := None |}.
Definition Widget_spec : ClassSpec :=
  {| cs_name := "app.Widget"; cs_extends := None; cs_implements := None;
     cs_definition := VObj ∅ |}.
Definition widget_spec : ClassSpec :=
  {| cs_name := "App.widget"; cs_extends := None; cs_implements := None;
     cs_definition := VObj ∅ |}.

(** [default_config] with an application whose [main] throws. *)
Definition throwing_main_config : Config :=
  {| debug_on := true; debug_startup := true; debug_scripts := false;
     debug_args_check := true; debug_interfaces_check := true;
     debug_doNotCatchAllExceptionsOnLocalHost := false;
     waitFor_dom := false; waitFor_page := false;
     startupScript := "^main"; test := None;
     hostname_is_local := false; configOverride := false;
     document_complete := false;
     url := fun id => id;
     signature_search := fun _ _ _ => Found;
     main_throws := fun _ => true;
     observer_throws := fun _ => false |}.

(** [default_config] under the test structure of the repository
    ([cycligent.test.doImports] is false). *)
Definition test_config : Config :=
  {| debug_on := true; debug_startup := true; debug_scripts := false;
     debug_args_check := true; debug_interfaces_check := true;
     debug_doNotCatchAllExceptionsOnLocalHost := false;
     waitFor_dom := false; waitFor_page := false;
     startupScript := "^main"; test := Some {| doImports := false |};
     hostname_is_local := false; configOverride := false;
     document_complete := false;
     url := fun id => id;
     signature_search := fun _ _ _ => Found;
     main_throws := fun _ => false;
     observer_throws := fun _ => false |}.

(** The page once [load] has requested the start-up script. *)
Definition loading : State := exec default_config OpLoad initial_state.

(** A page on which a script is imported after the application has been
    started: the readiness check runs a second time. *)
Definition lazy_import : list op :=
  [OpLoad; OpScriptLoaded "^main"; OpImport "lazy"; OpScriptLoaded "lazy"].

(** Three requests, the start-up script of [loading] and two imports:
    two of them load, the timer of the third fires. *)
Definition two_load_one_times_out : list op :=
  [OpImport "app.a"; OpImport "app.b";
   OpScriptLoaded "^main"; OpScriptLoaded "app.a"; OpScriptTimeout "app.b"].

(** Two observers are registered before the page loads. *)
Definition observed : list op := [OpNotify 1%nat; OpNotify 2%nat; OpLoad].

(** The namespace [App], for the class [App.widget]. *)
Definition d_App : DefArgs :=
  {| d_name := "App"; d_definition := VUndefined; d_priority := None |}.

(** ** Resource locations: [cycligent.url] *)

(** The names of the properties every object inherits from
    [Object.prototype]: a lookup by one of them finds the inherited
    property in an object that has none of its own by that name. *)
Definition inherited_names : list string :=
  ["constructor"; "hasOwnProperty"; "isPrototypeOf"; "propertyIsEnumerable";
   "toLocaleString"; "toString"; "valueOf"; "__proto__"; "__defineGetter__";
   "__defineSetter__"; "__lookupGetter__"; "__lookupSetter__"].

Module Text.

(** [s.substr(0, 1)]. *)
Definition first_char (s : string) : string :=
  match s with
  | EmptyString => ""
  | String a _ => String a ""
  end.

(** [s.substr(1)]. *)
Definition drop_first (s : string) : string :=
  match s with
  | EmptyString => ""
  | String _ s' => s'
  end.

(** [s.substr(s.length - 1)]. *)
Fixpoint last_char (s : string) : string :=
  match s with
  | EmptyString => ""
  | String a EmptyString => String a ""
  | String _ s' => last_char s'
  end.

(** [s.indexOf(t)]: the position of the first occurrence, if any. *)
Definition indexOf (t s : string) : option nat := String.index 0 t s.

Definition contains (t s : string) : bool :=
  match indexOf t s with Some _ => true | None => false end.

End Text.

Module Url.

Import Text.

Record Location := { protocol : string; host : string; pathname : string }.

(** [cycligent.root]. *)
Record Root := { deploy : string; app : string; client : string }.

(** What [cycligent.url] reads: [window.location], [cycligent.root], the
    table [cycligent.config.loader.roots] (each name with the [root] of
    its entry) and three settings of [cycligent.config]. *)
Record Env := {
  location : Location;
  root : Root;
  roots : gmap string string;
  production : bool;
  appVersion : string;
  minimizeSource : bool
}.

Definition known_extensions : list string :=
  ["htm"; "html"; "js"; "css"; "gif"; "jpg"; "png"; "cgi"; "pl"; "java";
   "class"; "php"; "php3"; "shtm"; "shtml"; "asp"; "cfm"; "cfml"].

(** [/(?:\.([^.]+))?$/.exec(url)[1]]: the text after the last dot, when
    there is a dot and text after it. *)
Definition extension_candidate (url : string) : option string :=
  match reverse (Str.split_dots url) with
  | lst :: _ :: _ => if String.eqb lst "" then None else Some lst
  | _ => None
  end.

(** The inner function [extensionEnsure]. *)
Definition extensionEnsure (url extension : string) : string :=
  match extension_candidate url with
  | Some candidate =>
      if negb (String.eqb candidate "min")
         && bool_decide (candidate ∈ known_extensions)
      then url
      else url +:+ "." +:+ extension
  | None => url +:+ "." +:+ extension
  end.

Definition ends_with_delimiter (s : string) : bool :=
  String.eqb (last_char s) "/" || String.eqb (last_char s) "\".

(** The inner function [urlBuild]: the URL so far and the elements left
    after [elements.splice(0, 1)].  For a first element that names an
    inherited property, [roots[elements[0]]] is that property, which is
    truthy and has no [root]. *)
Definition urlBuild (e : Env) (elements : list string) (rootBase nonRootBase : string)
  : string * list string :=
  let first := hd "undefined" elements in
  let url :=
    match roots e !! first with
    | Some r => rootBase +:+ r
    | None =>
        if bool_decide (first ∈ inherited_names) then rootBase +:+ "undefined"
        else
          (if ends_with_delimiter nonRootBase then nonRootBase else nonRootBase +:+ "/")
          +:+ first
    end in
  let rest := tl elements in
  (match rest with
   | [] => url
   | _ :: _ => if ends_with_delimiter url then url else url +:+ "/"
   end, rest).

(** The inner function [pathNoFile]. *)
Definition pathNoFile (path : string) : string :=
  let segments := Str.split_on "/" path in
  let segment := List.last segments "" in
  let segments :=
    match indexOf ".htm" segment with
    | Some (S _) => removelast segments
    | _ => segments
    end in
  let retVal := String.concat "/" segments in
  if String.eqb retVal "/" then "" else retVal.

Definition here (e : Env) : string :=
  protocol (location e) +:+ "//" +:+ host (location e)
  +:+ pathNoFile (pathname (location e)).

(** The end of [cycligent.url] for a dotted name: the version in
    production, [.min] for minimised scripts and style sheets, and the
    extension. *)
Definition suffixed (e : Env) (fileType url : string) : string :=
  let url := if production e then url +:+ "-" +:+ appVersion e else url in
  let url :=
    if minimizeSource e && (String.eqb fileType "js" || String.eqb fileType "css")
    then url +:+ ".min" else url in
  url +:+ "." +:+ fileType.

(** The part of [cycligent.url] for a dotted name: the [switch] on the
    anchor character, then the elements joined by slashes. *)
Definition dotted_url (e : Env) (dottedId fileType : string) : string :=
  let '(url, elements) :=
    if String.eqb (first_char dottedId) "." then
      (here e +:+ "/", Str.split_dots (drop_first dottedId))
    else if String.eqb (first_char dottedId) "^" then
      urlBuild e (Str.split_dots (drop_first dottedId)) (deploy (root e)) (deploy (root e))
    else if String.eqb (first_char dottedId) "@" then
      (client (root e) +:+ "/", Str.split_dots (drop_first dottedId))
    else
      urlBuild e (Str.split_dots dottedId) (deploy (root e)) (here e) in
  suffixed e fileType (url +:+ String.concat "/" elements).

(** [extension], or ["js"] when it is not given. *)
Definition file_type (extension : option string) : string :=
  match extension with
  | Some x => if String.eqb x "" then "js" else x
  | None => "js"
  end.

(** [cycligent.url(dottedNameOrUrl, extension)]. *)
Definition url (e : Env) (dottedNameOrUrl : string) (extension : option string)
  : RM string :=
  let fileType := file_type extension in
  let dottedId := dottedNameOrUrl in
  when (String.eqb dottedId "")
       (console_error "Required argument 'dottedId' was not supplied to cycligent.url.") ;;;
  if contains "//" dottedId then
    ret (extensionEnsure dottedId fileType)
  else if String.eqb (first_char dottedId) "/" then
    ret (extensionEnsure (deploy (root e) +:+ dottedId) fileType)
  else if match indexOf "@/" dottedId with Some O => true | _ => false end then
    ret (extensionEnsure (app (root e) +:+ drop_first dottedId) fileType)
  else
    ret (dotted_url e dottedId fileType).

End Url.

Module UrlSpec.

Import Text Url.

(** A dotted name with none of the anchor characters: it is not empty,
    has no double slash and begins with none of [.], [^], [@], [/]. *)
Definition plain (id : string) : bool :=
  negb (String.eqb id "") && negb (contains "//" id)
  && negb (bool_decide (first_char id ∈ ["."; "^"; "@"; "/"])).

(** The character does not occur in the string. *)
Definition lacks (c : ascii) (s : string) : bool :=
  Str.all_chars (fun a => negb (Ascii.eqb a c)) s.

(** A page of an application deployed with the roots of [config.js]. *)
Definition example_env : Env :=
  {| location := {| protocol := "http:"; host := "www.example.com";
                    pathname := "/app/client/page.html" |};
     root := {| deploy := "http://www.example.com";
                app := "http://www.example.com/app";
                client := "http://www.example.com/app/client" |};
     roots := {["cycligent" := "/app/lib/cycligent"]};
     production := false; appVersion := "M.m.B"; minimizeSource := false |}.

End UrlSpec.

(** ** The console: [cycligent.console] *)

Module Console.

(** [cycligent.console.Message]. *)
Record Message := { type : string; message : string; timestamp : Z }.

(** The variables of the closure of [cycligent.console], with what leaves
    it: the calls passed on to the console of the browser and the calls of
    the notify functions (the argument is [None] for [undefined]). [ticks]
    counts the readings of the clock. *)
Record State := {
  messages : list Message;
  notifyFunctions : list nat;
  countMap : gmap string Z;
  consoleMap : bool;
  passed : list (string * list value);
  calls : list (nat * option Message);
  ticks : nat
}.

Definition with_messages (l : list Message) (s : State) : State :=
  {| messages := l; notifyFunctions := notifyFunctions s; countMap := countMap s;
     consoleMap := consoleMap s; passed := passed s; calls := calls s; ticks := ticks s |}.
Definition with_notifyFunctions (l : list nat) (s : State) : State :=
  {| messages := messages s; notifyFunctions := l; countMap := countMap s;
     consoleMap := consoleMap s; passed := passed s; calls := calls s; ticks := ticks s |}.
Definition with_countMap (m : gmap string Z) (s : State) : State :=
  {| messages := messages s; notifyFunctions := notifyFunctions s; countMap := m;
     consoleMap := consoleMap s; passed := passed s; calls := calls s; ticks := ticks s |}.
Definition with_passed (l : list (string * list value)) (s : State) : State :=
  {| messages := messages s; notifyFunctions := notifyFunctions s; countMap := countMap s;
     consoleMap := consoleMap s; passed := l; calls := calls s; ticks := ticks s |}.
Definition with_calls (l : list (nat * option Message)) (s : State) : State :=
  {| messages := messages s; notifyFunctions := notifyFunctions s; countMap := countMap s;
     consoleMap := consoleMap s; passed := passed s; calls := l; ticks := ticks s |}.
Definition with_ticks (n : nat) (s : State) : State :=
  {| messages := messages s; notifyFunctions := notifyFunctions s; countMap := countMap s;
     consoleMap := consoleMap s; passed := passed s; calls := calls s; ticks := n |}.

Definition CM := M State.

(** The keys of [messageType]. *)
Definition messageType : list string := ["info"; "log"; "warn"; "error"].

Section Console.

(** The clock, by the number of the reading, and the notify functions
    that throw. *)
Variable clock : nat -> Z.
Variable callback_throws : nat -> bool.

(** [new Date()]. *)
Definition now : CM Z :=
  n <- gets ticks ;;
  modify (with_ticks (S n)) ;;;
  ret (clock n).

(** The inner function [notify(message)]. *)
Definition notify (m : option Message) : CM unit :=
  fs <- gets notifyFunctions ;;
  for_each fs (fun f =>
    modify (fun s => with_calls (calls s ++ [(f, m)]) s) ;;;
    if callback_throws f then throw (Thrown "notify function") else ret tt).

(** The inner function [clear()]. *)
Definition clear : CM unit :=
  modify (with_messages []) ;;;
  modify (fun s => with_countMap
            (fold_left (fun m index => <[index := 0]> m) messageType (countMap s)) s) ;;;
  notify None.

(** The text of [messageAdd]: the operands, converted and concatenated. *)
Definition text_of (args : list value) : string :=
  fold_left (fun text item => text +:+ Oop.to_key item) args "".

(** [messageAdd(type, args)], with [report] for the call of
    [console.error] in the constructor of [Message]. *)
Definition messageAdd_with (report : string -> CM unit) (type : string)
    (args : list value) : CM unit :=
  let text := text_of args in
  when (bool_decide (type ∉ messageType))
       (report ("Unknown message type '" +:+ type
                +:+ "' detected in cycligent.console.")) ;;;
  timestamp <- now ;;
  let message := {| type := type; message := text; timestamp := timestamp |} in
  modify (fun s => with_messages (messages s ++ [message]) s) ;;;
  l <- gets messages ;;
  when (100 <? length l)%nat (modify (fun s => with_messages (tl (messages s)) s)) ;;;
  captured <- gets consoleMap ;;
  when (captured && bool_decide (type ∈ messageType))
       (modify (fun s => with_passed (passed s ++ [(type, args)]) s)) ;;;
  counts <- gets countMap ;;
  match counts !! type with
  | Some n => modify (with_countMap (<[type := n + 1]> counts))
  | None => ret tt
  end ;;;
  notify (Some message).

(** [cycligent.console.error], which [init] installs as [console.error]:
    the type is known and the constructor reports nothing. *)
Definition error (args : list value) : CM unit :=
  messageAdd_with (fun _ => ret tt) "error" args.

(** [messageAdd(type, args)]. *)
Definition messageAdd (type : string) (args : list value) : CM unit :=
  messageAdd_with (fun text => error [VStr text]) type args.

(** [cycligent.console.count(type)]. *)
Definition count (type : option string) (s : State) : Z :=
  match type with
  | None => Z.of_nat (length (messages s))
  | Some t => default 0 (countMap s !! t)
  end.

(** [cycligent.console.notify(func)]. *)
Definition notify_add (func : nat) : CM unit :=
  modify (fun s =>
    if bool_decide (func ∈ notifyFunctions s) then s
    else with_notifyFunctions (notifyFunctions s ++ [func]) s).

(** [cycligent.console.notifyClear(func)]. *)
Definition notifyClear (func : nat) : CM unit :=
  modify (fun s => with_notifyFunctions (filter (fun g => g ≠ func) (notifyFunctions s)) s).

(** The calls of the console. *)
Inductive op :=
| Message_ (type : string) (args : list value)
| Clear
| Notify (func : nat)
| NotifyClear (func : nat).

Definition step (o : op) : CM unit :=
  match o with
  | Message_ type args => messageAdd type args
  | Clear => clear
  | Notify f => notify_add f
  | NotifyClear f => notifyClear f
  end.

Definition exec (o : op) (s : State) : State := (step o s).2.

Definition run (l : list op) (s : State) : State := fold_left (fun s o => exec o s) l s.

End Console.

(** The console once the closure has run: nothing logged, the counts at
    zero after the first [clear()]. *)
Definition initial (captured : bool) : State :=
  {| messages := []; notifyFunctions := [];
     countMap := fold_left (fun m index => <[index := 0]> m) messageType ∅;
     consoleMap := captured; passed := []; calls := []; ticks := 0 |}.

End Console.

Module ConsoleSpec.
Import Console.

(** What the buffer keeps of a message. *)
Definition key (m : Message) : string * string := (type m, message m).

Definition unknown_report (t : string) : string :=
  "Unknown message type '" +:+ t +:+ "' detected in cycligent.console.".

(** The messages a call logs: a message of an unknown type comes after
    the error that reports it. *)
Definition entries (o : op) : list (string * string) :=
  match o with
  | Message_ t args =>
      ((if bool_decide (t ∈ messageType) then []
        else [("error", text_of [VStr (unknown_report t)])])
       ++ [(t, text_of args)])%list
  | _ => []
  end.

(** Everything logged since the last [clear()]. *)
Definition journal_step (j : list (string * string)) (o : op) : list (string * string) :=
  match o with
  | Clear => []
  | _ => (j ++ entries o)%list
  end.

Definition journal (ops : list op) : list (string * string) :=
  fold_left journal_step ops [].

Definition last100 {A} (l : list A) : list A := drop (length l - 100) l.

Definition of_type (t : string) (j : list (string * string)) : Z :=
  Z.of_nat (length (filter (fun e => e.1 = t) j)).

(** Every [Message_] call has one of the four types. *)
Definition known_type (o : op) : bool :=
  match o with Message_ t _ => bool_decide (t ∈ messageType) | _ => true end.

Definition known_types (ops : list op) : bool := forallb known_type ops.

(** No [Message_] call has a type that names an inherited property. *)
Definition own_type (o : op) : bool :=
  match o with Message_ t _ => bool_decide (t ∉ inherited_names) | _ => true end.

Definition own_types (ops : list op) : bool := forallb own_type ops.

(** The calls the theorems are about: the types are the four, or no
    notify function throws and no type names an inherited property. *)
Definition regular (callback_throws : nat -> bool) (ops : list op) : Prop :=
  known_types ops = true \/
  ((forall f, callback_throws f = false) /\ own_types ops = true).

(** [messages.shift()] when the buffer holds more than a hundred. *)
Definition capped {A} (l : list A) : list A :=
  if (100 <? length l)%nat then tl l else l.

(** The state [messageAdd] reaches before it notifies. *)
Definition recorded (clock : nat -> Z) (t : string) (args : list value) (s : State) : State :=
  let m := {| type := t; message := text_of args; timestamp := clock (ticks s) |} in
  let l := (messages s ++ [m])%list in
  {| messages := if (100 <? length l)%nat then tl l else l;
     notifyFunctions := notifyFunctions s;
     countMap := match countMap s !! t with
                 | Some n => <[t := n + 1]> (countMap s)
                 | None => countMap s
                 end;
     consoleMap := consoleMap s;
     passed := if consoleMap s && bool_decide (t ∈ messageType)
               then (passed s ++ [(t, args)])%list else passed s;
     calls := calls s;
     ticks := S (ticks s) |}.

(** The buffer holds the last hundred entries of the journal, and the
    counts are those of the whole journal. *)
Definition tallies (s : State) (j : list (string * string)) : Prop :=
  List.map key (messages s) = last100 j /\
  forall t, countMap s !! t =
            if bool_decide (t ∈ messageType) then Some (of_type t j) else None.

(** Whether the console of the browser was captured does not change. *)
Definition same_capture (s s' : State) : Prop := consoleMap s' = consoleMap s.

(** No notify function is registered twice. *)
Definition keeps_distinct (s s' : State) : Prop :=
  NoDup (notifyFunctions s) -> NoDup (notifyFunctions s').

(** All is as it was but for the calls of the notify functions. *)
Definition same_but_calls (s s' : State) : Prop := s' = with_calls (calls s') s.

(** A session: a clock that ticks, notify functions that return or of
    which the second throws. *)
Definition quiet_clock : nat -> Z := fun n => Z.of_nat n.
Definition no_thrower : nat -> bool := fun _ => false.
Definition second_throws : nat -> bool := fun f => (f =? 2)%nat.

Definition session : list op :=
  [Notify 1; Notify 2; Notify 1; Message_ "warn" [VStr "disk "; VNum 7];
   Clear; Message_ "debug" [VStr "x"]; Message_ "error" [VStr "a"; VNull]].

End ConsoleSpec.

(** ** Predicates on names and queues *)

(** Two paths that part at some segment: neither leads through the
    other. *)
Definition diverge (p q : list string) : Prop :=
  exists l a b p' q', a <> b /\ p = (l ++ a :: p')%list /\ q = (l ++ b :: q')%list.

(** A tree with the namespace [app], which holds [app.data]. *)
Definition app_registry : Registry :=
  with_window (VObj {["app" := VObj {["data" := VNum 1]}]}) empty_registry.

(** A queued class that cannot be processed yet: [classMissing] names a
    dependency. *)
Definition class_blocked (r : Registry) (a : ClassArgs) : Prop :=
  exists m, classMissing a r = (Ok m, r) /\ m <> "".

(** A queued definition whose parent namespace is missing. *)
Definition definition_blocked (r : Registry) (d : DefArgs) : Prop :=
  exists m, definitionMissing d r = (Ok m, r) /\ m <> "".

(** No class comes into the queue. *)
Definition class_queue_shrinks (r r' : Registry) : Prop :=
  forall a, Some a ∈ classesToProcess r' -> Some a ∈ classesToProcess r.

(** A registry where the class [C] waits for its parent [B] and the
    class [app.Widget] has waited for the namespace [app], which has been
    defined since. *)
Definition waiting_classes : Registry :=
  (cycligent_define d_app
     (cycligent_class default_config Widget_spec
        (cycligent_class default_config C_spec
           (cycligent_interface default_config I_args empty_registry).2).2).2).2.

(** A registry where the definitions [a.b.c], [a.b] and [x.y] have
    waited for their parents, of which [a] has been stored since. *)
Definition d_xy : DefArgs :=
  {| d_name := "x.y"; d_definition := VNum 2; d_priority := None |}.

Definition waiting_definitions : Registry :=
  (definitionSet "a" (VObj ∅)
     (cycligent_define d_xy
        (cycligent_define d_ab
           (cycligent_define d_abc empty_registry).2).2).2).2.

(** ** Members of an extended class *)

(** The member [Class.extend] stores for [x] where the prototype held
    [holder]: a function that overrides a truthy member keeps it as its
    [super]. *)
Definition overriding (holder : option value) (x : value) : value :=
  match x with
  | VFun t r m =>
      if truthy (default VUndefined holder)
      then VFun t r (<["super" := default VUndefined holder]> m)
      else x
  | _ => x
  end.

(** A base class with the methods [init] and [draw], and a definition
    that overrides [draw] and adds [size]. *)
Definition shape_class : value :=
  class_ctor {["init" := VFun FOpaque VUndefined ∅; "draw" := VFun FOpaque (VNum 1) ∅]}.

Definition circle_definition : value :=
  VObj {["draw" := VFun FOpaque (VNum 2) ∅; "size" := VNum 3]}.

(** ** Predicates on the start of the application *)

(** The three conditions of [readyCheck]. *)
Definition all_ready (a : AppLoad) : bool :=
  scriptsReady a && domReady a && pageReady a.

(** The three flags are as they were. *)
Definition same_flags (s s' : State) : Prop :=
  scriptsReady (appLoad s') = scriptsReady (appLoad s) /\
  domReady (appLoad s') = domReady (appLoad s) /\
  pageReady (appLoad s') = pageReady (appLoad s).

(** A flag that is set stays set. *)
Definition keeps_flags (s s' : State) : Prop :=
  (scriptsReady (appLoad s) = true -> scriptsReady (appLoad s') = true) /\
  (domReady (appLoad s) = true -> domReady (appLoad s') = true) /\
  (pageReady (appLoad s) = true -> pageReady (appLoad s') = true).

(** The flags stay set, and [main] is called only with the three set. *)
Definition started_ready (s s' : State) : Prop :=
  keeps_flags s s' /\
  (mainCalls (host s') = mainCalls (host s) \/ all_ready (appLoad s') = true).

Definition same_dom (s s' : State) : Prop :=
  domReady (appLoad s') = domReady (appLoad s).

Definition same_page (s s' : State) : Prop :=
  pageReady (appLoad s') = pageReady (appLoad s).

(** A page that waits for the DOM and for the page, and a start where
    the event of the DOM has not been delivered. *)
Definition waiting_config : Config :=
  {| debug_on := true; debug_startup := true; debug_scripts := false;
     debug_args_check := true; debug_interfaces_check := true;
     debug_doNotCatchAllExceptionsOnLocalHost := false;
     waitFor_dom := true; waitFor_page := true;
     startupScript := "^main"; test := None;
     hostname_is_local := false; configOverride := false;
     document_complete := false;
     url := fun id => id;
     signature_search := fun _ _ _ => Found;
     main_throws := fun _ => false;
     observer_throws := fun _ => false |}.

Definition dom_missing : list op :=
  [OpLoad; OpScriptLoaded "^main"; OpPageLoaded].

(** Every call and every handler of the list returns. *)
Fixpoint all_return (cfg : Config) (ops : list op) (s : State) : bool :=
  match ops with
  | [] => true
  | o :: ops' => is_ok (step cfg o s).1 && all_return cfg ops' (exec cfg o s)
  end.

(** The flag stays set, and it is set when the event
    [allScriptsLoaded] is triggered. *)
Definition settle_sets_ready (s s' : State) : Prop :=
  keeps_ready s s' /\ (fired s' = fired s \/ ready s' = true).

(** The latch is set only after a call of [main]. *)
Definition latched_after_call (s : State) : Prop :=
  appLoadFinished (appLoad s) = true -> (1 <= mainCalls (host s))%nat.

Definition keeps_call (s s' : State) : Prop :=
  latched_after_call s -> latched_after_call s'.

(** With the three conditions met [main] has been called. *)
Definition started (s : State) : Prop :=
  all_ready (appLoad s) = true -> (1 <= mainCalls (host s))%nat.

(** The flags, the latch and the calls of [main] are as they were. *)
Definition same_start (s s' : State) : Prop :=
  same_flags s s' /\
  appLoadFinished (appLoad s') = appLoadFinished (appLoad s) /\
  mainCalls (host s') = mainCalls (host s).

(** A page that imports one script besides the start-up script. *)
Definition two_scripts : list op :=
  [OpImport "app.a"; OpScriptLoaded "^main"; OpScriptLoaded "app.a"].

(** A computation that returns from a state that satisfies [Pre] reaches
    a state that satisfies [Post]. *)
Definition triple {S A} (Pre : S -> Prop) (m : M S A) (Post : S -> Prop) : Prop :=
  forall s a s', Pre s -> m s = (Ok a, s') -> Post s'.

(** No script is requested where none was. *)
Definition keeps_no_scripts (s s' : State) : Prop :=
  scripts (imports s) = ∅ -> scripts (imports s') = ∅.

(** The test structure with imports switched off. *)
Definition scaffold_config : Config :=
  {| debug_on := true; debug_startup := true; debug_scripts := false;
     debug_args_check := true; debug_interfaces_check := true;
     debug_doNotCatchAllExceptionsOnLocalHost := false;
     waitFor_dom := true; waitFor_page := true;
     startupScript := "^main"; test := Some {| doImports := false |};
     hostname_is_local := false; configOverride := false;
     document_complete := false;
     url := fun id => id;
     signature_search := fun _ _ _ => Found;
     main_throws := fun _ => false;
     observer_throws := fun _ => false |}.

(** ** The argument normaliser: [cycligent.args] *)

Module Args.

(** A specification, in the order [for (specIndex in spec)] visits it:
    the names of the arguments, each with its [defaultValue].  The [type]
    and [required] of an entry are read by the validation only. *)
Definition Spec : Type := list (string * value).

Definition is_undefined (v : value) : bool :=
  match v with
  | VUndefined => true
  | _ => false
  end.

Section Args.

(** What the prototype chain of a value gives for a name the value has
    no property of its own for: [undefined] unless the name is one of
    those every object, string or function inherits. *)
Variable inherited : value -> string -> value.

(** [argsIn[0][specIndex]], which is read only once [argsIn[0]] is known
    to be neither [undefined] nor [null]. *)
Definition member (a0 : value) (k : string) : value :=
  match a0 with
  | VUndefined | VNull => VUndefined
  | VObj m | VFun _ _ m =>
      match m !! k with
      | Some v => v
      | None => inherited a0 k
      end
  | _ => inherited a0 k
  end.

(** The first loop: whether the only argument is taken as a map. *)
Definition is_map (argsIn : list value) (spec : Spec) : bool :=
  match argsIn with
  | [a0] =>
      existsb (fun kv => negb (nullish a0) && negb (is_undefined (member a0 kv.1))) spec
  | _ => false
  end.

(** The value one of the two filling loops reads for the entry at
    position [i], named [k]. *)
Definition supplied (map : bool) (argsIn : list value) (i : nat) (k : string) : value :=
  if map then member (hd VUndefined argsIn) k
  else default VUndefined (argsIn !! i).

(** A filling loop, from position [i] on. *)
Fixpoint fill (value_of : nat -> string -> value) (i : nat) (spec : Spec)
    (argsOut : gmap string value) : gmap string value :=
  match spec with
  | [] => argsOut
  | (k, d) :: spec' =>
      let v := value_of i k in
      fill value_of (S i) spec' (<[k := if is_undefined v then d else v]> argsOut)
  end.

(** [cycligent.args(argsIn, spec)] where the validation is switched off
    ([cycligent.config.debug.args.check] is falsy) or deleted by the
    build: the object [argsOut]. *)
Definition args (argsIn : list value) (spec : Spec) : gmap string value :=
  fill (supplied (is_map argsIn spec) argsIn) 0 spec ∅.

End Args.

(** A page where nothing has been added to the prototypes, for names
    that no built-in prototype has. *)
Definition nothing_inherited : value -> string -> value := fun _ _ => VUndefined.

(** The specification [cycligent.definitionSetArgs]. *)
Definition definitionSetArgs : Spec := [("name", VUndefined); ("value", VUndefined)].

(** The specification [cycligent.tracerMessageArgs] of the
    documentation, with a default for [type] and for [category]. *)
Definition tracerMessageArgs : Spec :=
  [("message", VUndefined); ("type", VNum 1); ("category", VStr ""); ("ex", VUndefined)].

End Args.

(** ** What a definition stores *)

(** The value found under a name, [undefined] when the walk fails. *)
Definition held_at (r : Registry) (name : string) : value :=
  match Tree.get_path (window r) (Str.split_dots name) with
  | Ok v => v
  | _ => VUndefined
  end.

(** The namespace [definitionProcess] makes sure of: what is there, or
    an empty object. *)
Definition holder (r : Registry) (name : string) : value :=
  if truthy (held_at r name) then held_at r name else VObj ∅.

(** What a definition produces: the result of the function, or the
    value itself. *)
Definition produced (d : DefArgs) : value :=
  match d_definition d with
  | VFun _ returnValue _ => returnValue
  | v => v
  end.

(** The definition is kept for [cycligent.define.execute]. *)
Definition kept_for_execute (d : DefArgs) : bool :=
  truthy (d_definition d) && priority_truthy (d_priority d).

(** ** Reasoning about the monad *)

Lemma bind_ok {S A B} (m : M S A) (f : A -> M S B) s a s' :
  m s = (Ok a, s') -> bind m f s = f a s'.
Proof. intros H. unfold bind. by rewrite H. Qed.

Lemma bind_throw {S A B} (m : M S A) (f : A -> M S B) s e s' :
  m s = (Throw e, s') -> bind m f s = (Throw e, s').
Proof. intros H. unfold bind. by rewrite H. Qed.

Lemma bind_fuel {S A B} (m : M S A) (f : A -> M S B) s s' :
  m s = (OutOfFuel, s') -> bind m f s = (OutOfFuel, s').
Proof. intros H. unfold bind. by rewrite H. Qed.

Lemma bind_modify {S B} (g : S -> S) (f : unit -> M S B) s :
  bind (modify g) f s = f tt (g s).
Proof. reflexivity. Qed.

Lemma bind_gets {S A B} (g : S -> A) (f : A -> M S B) s :
  bind (gets g) f s = f (g s) s.
Proof. reflexivity. Qed.

Lemma bind_assoc {S A B C} (m : M S A) (f : A -> M S B) (g : B -> M S C) s :
  bind (bind m f) g s = bind m (fun a => bind (f a) g) s.
Proof. unfold bind. destruct (m s) as [[a|e|] s']; reflexivity. Qed.

Lemma bind_ret {S A B} (a : A) (f : A -> M S B) s : bind (ret a) f s = f a s.
Proof. reflexivity. Qed.

Lemma bind_lift_ok {S A B} (a : A) (f : A -> M S B) s :
  bind (lift_result (Ok a)) f s = f a s.
Proof. reflexivity. Qed.

Lemma bind_inv_ok {S A B} (m : M S A) (f : A -> M S B) s b s' :
  bind m f s = (Ok b, s') ->
  exists a s1, m s = (Ok a, s1) /\ f a s1 = (Ok b, s').
Proof.
  unfold bind. destruct (m s) as [[a|e|] s1]; intros H; try discriminate. eauto.
Qed.

(** Unfolds the combinators of the monad. *)
Ltac munfold :=
  unfold bind, ret, gets, modify, throw, lift_result, when, zoom, reg,
    on_imports, on_appLoad, on_host, console_info, console_error, console_put,
    console_add in *.

Lemma script_event_cases (id : string) (enabled : Script -> bool)
    (handler : SM unit) (s : State) :
  script_event id enabled handler s = handler s \/
  script_event id enabled handler s = (Ok tt, s).
Proof.
  unfold script_event. rewrite bind_gets.
  destruct (scripts (imports s) !! id) as [sc|]; [|by right].
  destruct (enabled sc); [by left | by right].
Qed.

Lemma with_console_nil r : with_console (console r ++ []) r = r.
Proof. destruct r. unfold with_console. cbn. by rewrite app_nil_r. Qed.

(** ** The deferred pass over interfaces *)

Section InterfacePass.

Variable cfg : Config.

(** With [cycligent.name] undefined, reading [this] as the arguments of
    an interface throws, and changes nothing. *)
Lemma this_args_undefined_name r :
  Tree.get_path (window r) ["cycligent"; "name"] = Ok VUndefined ->
  this_args r = (Throw (TypeError "Cannot read property 'split' of undefined"), r).
Proof.
  intros H. unfold this_args, bind, gets, lift_result.
  cbn [Tree.get_path Tree.rbind] in H.
  destruct (Tree.get_prop (window r) "cycligent") as [c| |] eqn:Hc; try discriminate.
  cbn [Tree.rbind] in H.
  destruct c as [| |b|n|s|m|t rt m]; try discriminate; try reflexivity;
    unfold Tree.get_prop in *; injection H as H; rewrite H; reflexivity.
Qed.

Lemma interface_step_throws r index a e :
  interfacesToProcess r !! index = Some (Some a) ->
  this_args r = (Throw e, r) ->
  interface_step index r = (Throw e, r).
Proof.
  intros Hq Ht. unfold interface_step.
  rewrite (bind_ok _ _ r (interfacesToProcess r) r) by reflexivity.
  rewrite Hq. by apply bind_throw.
Qed.

Lemma interface_step_skip r index :
  (forall a, interfacesToProcess r !! index <> Some (Some a)) ->
  interface_step index r = (Ok false, r).
Proof.
  intros Hq. unfold interface_step.
  rewrite (bind_ok _ _ r (interfacesToProcess r) r) by reflexivity.
  destruct (interfacesToProcess r !! index) as [[a|]|] eqn:E; try reflexivity.
  by destruct (Hq a).
Qed.

Lemma interface_for_throws r e n : forall index seen j a,
  (index <= j < index + n)%nat ->
  interfacesToProcess r !! j = Some (Some a) ->
  this_args r = (Throw e, r) ->
  interface_for index n seen r = (Throw e, r).
Proof.
  induction n as [|n IH]; intros index seen j a Hj Hq Ht; [lia|].
  cbn [interface_for].
  destruct (interfacesToProcess r !! index) as [[a'|]|] eqn:E.
  - apply bind_throw. by eapply interface_step_throws.
  - rewrite (bind_ok _ _ r false r).
    + apply (IH (S index) _ j a); [|done..].
      assert (j <> index) by (intros ->; congruence). lia.
    + apply interface_step_skip. intros a'. congruence.
  - rewrite (bind_ok _ _ r false r).
    + apply (IH (S index) _ j a); [|done..].
      assert (j <> index) by (intros ->; congruence). lia.
    + apply interface_step_skip. intros a'. congruence.
Qed.

Lemma interfaceProcessDeferred_this r a e :
  Some a ∈ interfacesToProcess r ->
  this_args r = (Throw e, r) ->
  interfaceProcessDeferred cfg r = (Throw e, r).
Proof.
  intros Hin Ht.
  apply list_elem_of_lookup in Hin as [j Hj].
  pose proof (lookup_lt_Some _ _ _ Hj) as Hlt.
  unfold interfaceProcessDeferred.
  rewrite (bind_ok _ _ r (interfacesToProcess r) r) by reflexivity.
  apply bind_throw. cbn [interface_do].
  rewrite (bind_ok _ _ r (interfacesToProcess r) r) by reflexivity.
  apply bind_throw.
  apply (interface_for_throws r e _ 0%nat false j a); [lia|done..].
Qed.

End InterfacePass.

(** ** Reasoning about what a computation preserves *)

Section Frame.

Context {S : Type} (P : S -> S -> Prop) `{!PreOrder P}.

Lemma preserved {A} (m : M S A) : preserves P m -> forall s, P s (m s).2.
Proof. by intros [H]. Qed.

Lemma preserves_ret {A} (a : A) : preserves P (ret a).
Proof. constructor. intros s. reflexivity. Qed.

Lemma preserves_throw {A} e : preserves P (@throw S A e).
Proof. constructor. intros s. reflexivity. Qed.

Lemma preserves_gets {A} (f : S -> A) : preserves P (gets f).
Proof. constructor. intros s. reflexivity. Qed.

Lemma preserves_lift_result {A} (r : result A) : preserves P (lift_result r).
Proof. constructor. intros s. reflexivity. Qed.

Lemma preserves_fuel {A} : preserves P (fun r : S => (@OutOfFuel A, r)).
Proof. constructor. intros s. reflexivity. Qed.

Lemma preserves_modify (f : S -> S) : (forall s, P s (f s)) -> preserves P (modify f).
Proof. intros H. constructor. intros s. apply H. Qed.

Lemma preserves_bind {A B} (m : M S A) (f : A -> M S B) :
  preserves P m -> (forall a, preserves P (f a)) -> preserves P (bind m f).
Proof.
  intros [Hm] Hf. constructor. intros s. unfold bind. specialize (Hm s).
  destruct (m s) as [[a|e|] s']; cbn in *; [|done..].
  etrans; [exact Hm|by apply preserved].
Qed.

Lemma preserves_when (b : bool) (m : M S unit) : preserves P m -> preserves P (when b m).
Proof. intros H. destruct b; [exact H|apply preserves_ret]. Qed.

Lemma preserves_for_each {A} (l : list A) (body : A -> M S unit) :
  (forall x, preserves P (body x)) -> preserves P (for_each l body).
Proof.
  intros H. induction l as [|x l IH]; cbn [for_each].
  - apply preserves_ret.
  - apply preserves_bind; [apply H|intros _; exact IH].
Qed.

Lemma preserves_try_catch {A} (m : M S A) (h : exn -> M S A) :
  preserves P m -> (forall e, preserves P (h e)) -> preserves P (try_catch m h).
Proof.
  intros [Hm] Hh. constructor. intros s. unfold try_catch. specialize (Hm s).
  destruct (m s) as [[a|e|] s']; cbn in *; [done| |done].
  etrans; [exact Hm|by apply preserved].
Qed.

End Frame.

Lemma preserves_reg (P : State -> State -> Prop) `{!PreOrder P} {A} (m : RM A) :
  (forall s r, P s (with_registry r s)) -> preserves P (reg m).
Proof.
  intros H. constructor. intros s. unfold reg, zoom. destruct (m (registry s)) as [r s'] eqn:E. cbn. apply H.
Qed.

(** Decomposes a goal [preserves P m] along the structure of [m]. *)
Ltac frame_step :=
  first
    [ assumption
    | solve [auto]
    | apply preserves_ret; apply _
    | apply preserves_throw; apply _
    | apply preserves_gets; apply _
    | apply preserves_lift_result; apply _
    | apply preserves_fuel; apply _
    | apply preserves_reg; [apply _|solve [auto]]
    | apply preserves_bind; [apply _| |intros ?]
    | apply preserves_when; [apply _|]
    | apply preserves_for_each; [apply _|intros ?]
    | apply preserves_try_catch; [apply _| |intros ?]
    | apply preserves_modify; intros ?
    | match goal with |- preserves _ (if ?b then _ else _) => destruct b end
    | match goal with |- preserves _ (match ?x with _ => _ end) => destruct x end ].

Ltac frame := repeat frame_step; try (split; reflexivity); eauto.

(** The readiness check preserves what [mainGo] preserves. *)
Section Entry.

Variable cfg : Config.
Context (P : State -> State -> Prop) `{!PreOrder P}.
Hypothesis P_registry : forall s r, P s (with_registry r s).
Hypothesis P_mainGo : preserves P (mainGo cfg).

Lemma executeMain_preserves : preserves P (_executeMain cfg).
Proof using All. unfold _executeMain. frame. Qed.
Hint Resolve executeMain_preserves : core.

Lemma readyCheck_preserves : preserves P (readyCheck cfg).
Proof using All. unfold readyCheck. frame. Qed.

End Entry.

(** The sequencer and the loader preserve what the readiness check
    preserves. *)
Section Sequencer.

Variable cfg : Config.
Context (P : State -> State -> Prop) `{!PreOrder P}.
Hypothesis P_registry : forall s r, P s (with_registry r s).
Hypothesis P_domReady : forall s, P s (with_appLoad (with_domReady true (appLoad s)) s).
Hypothesis P_pageReady : forall s, P s (with_appLoad (with_pageReady true (appLoad s)) s).
Hypothesis P_readyCheck : preserves P (readyCheck cfg).

Lemma allScriptsLoaded2_preserves : preserves P (_allScriptsLoaded2 cfg).
Proof using All. unfold _allScriptsLoaded2. frame. Qed.
Hint Resolve allScriptsLoaded2_preserves : core.

Lemma createAssumedDefinitions_preserves : preserves P (_createAssumedDefinitions cfg).
Proof using All. unfold _createAssumedDefinitions. frame. Qed.
Hint Resolve createAssumedDefinitions_preserves : core.

Lemma run_initialization_preserves : preserves P (run_initialization cfg).
Proof using All. unfold run_initialization. frame. Qed.

Lemma domLoaded_preserves : preserves P (domLoaded cfg).
Proof using All. unfold domLoaded, on_appLoad. frame. Qed.

Lemma pageLoaded_preserves : preserves P (pageLoaded cfg).
Proof using All. unfold pageLoaded, on_appLoad. frame. Qed.

(** When moreover the flag [scriptsReady], the loader's own fields and
    the count of settled events are of no concern, the loader functions
    preserve it too. *)
Hypothesis P_scriptsReady : forall s, P s (with_appLoad (with_scriptsReady true (appLoad s)) s).
Hypothesis P_imports : forall s i, P s (with_imports i s).
Hypothesis P_settled : forall s,
  P s (with_host {| mainCalls := mainCalls (host s); notified := notified (host s);
                    settled := S (settled (host s));
                    scaffoldingReady := scaffoldingReady (host s) |} s).
Hint Resolve run_initialization_preserves domLoaded_preserves : core.

Lemma allScriptsLoaded_preserves : preserves P (allScriptsLoaded cfg).
Proof using All. unfold allScriptsLoaded, on_host, on_appLoad. frame. Qed.
Hint Resolve allScriptsLoaded_preserves : core.

Lemma imports_scriptLoaded_preserves : preserves P (imports_scriptLoaded cfg).
Proof using All. unfold imports_scriptLoaded, on_imports. frame. Qed.
Hint Resolve imports_scriptLoaded_preserves : core.

Lemma Script_scriptLoaded_preserves id : preserves P (Script_scriptLoaded cfg id).
Proof using All. unfold Script_scriptLoaded, update_script, on_imports. frame. Qed.

Lemma Script_timeout_preserves id : preserves P (Script_timeout id).
Proof using All. unfold Script_timeout, update_script, on_imports. frame. Qed.

Lemma Import_preserves id : preserves P (Import cfg id).
Proof using All. unfold Import, new_Script, on_imports. frame. Qed.
Hint Resolve Import_preserves : core.

Lemma load_preserves : preserves P (load cfg).
Proof using All. unfold load, release_bias, on_imports, on_appLoad. frame. Qed.

(** And so does every step of the page but the registration of
    observers. *)
Lemma step_preserves o :
  (forall f, o <> OpNotify f) -> (forall f, o <> OpNotifyClear f) ->
  preserves P (step cfg o).
Proof using All.
  intros H1 H2.
  pose proof Script_scriptLoaded_preserves. pose proof Script_timeout_preserves.
  destruct o; cbn [step]; unfold script_event;
    auto using load_preserves, pageLoaded_preserves, preserves_reg; try frame.
  - by destruct (H1 func).
  - by destruct (H2 func).
Qed.

End Sequencer.

(** ** The counters of the loader *)

#[local] Instance same_loader_preorder : PreOrder same_loader.
Proof.
  split.
  - intros s. by split.
  - intros a b c [? ?] [? ?]. split; congruence.
Qed.

Lemma mainGo_same_loader cfg : preserves same_loader (mainGo cfg).
Proof. unfold mainGo, call_main, call_observer, on_host, on_appLoad. frame. Qed.

Lemma readyCheck_same_loader cfg : preserves same_loader (readyCheck cfg).
Proof. apply readyCheck_preserves; [apply _|done|apply mainGo_same_loader]. Qed.

Lemma run_initialization_same_loader cfg : preserves same_loader (run_initialization cfg).
Proof. apply run_initialization_preserves; [apply _|done..|apply readyCheck_same_loader]. Qed.

Lemma domLoaded_same_loader cfg : preserves same_loader (domLoaded cfg).
Proof. apply domLoaded_preserves; [apply _|done..|apply readyCheck_same_loader]. Qed.

Lemma pageLoaded_same_loader cfg : preserves same_loader (pageLoaded cfg).
Proof. apply pageLoaded_preserves; [apply _|done..|apply readyCheck_same_loader]. Qed.

Lemma notify_same_loader f : preserves same_loader (notify f).
Proof. unfold notify, on_appLoad. frame. Qed.

Lemma notifyClear_same_loader f : preserves same_loader (notifyClear f).
Proof. unfold notifyClear, on_appLoad. frame. Qed.

#[local] Hint Resolve run_initialization_same_loader domLoaded_same_loader
  pageLoaded_same_loader : core.

Lemma reg_shape {A} (m : RM A) s : exists res r, reg m s = (res, with_registry r s).
Proof. unfold reg, zoom. destruct (m (registry s)) as [res r]. eauto. Qed.

Lemma allScriptsLoaded_count cfg s :
  pending (allScriptsLoaded cfg s).2 = pending s /\
  fired (allScriptsLoaded cfg s).2 = S (fired s).
Proof.
  unfold allScriptsLoaded, on_host. rewrite bind_modify.
  match goal with |- context [?m ?s0] =>
    match s0 with with_host _ _ =>
      assert (H : preserves same_loader m) by (unfold on_appLoad; frame);
      destruct (preserved _ _ H s0) as [H1 H2]
    end
  end.
  unfold pending, fired. rewrite H1, H2. by split.
Qed.

Lemma imports_scriptLoaded_count cfg s :
  let s' := (imports_scriptLoaded cfg s).2 in
  (pending s' = pending s /\ fired s' = fired s) \/
  (pending s' = pending s - 1 /\
   fired s' = if pending s - 1 =? 0 then S (fired s) else fired s).
Proof.
  cbv zeta. unfold imports_scriptLoaded.
  destruct (reg_shape (classProcessDeferred cfg) s) as (res1 & r1 & E1).
  destruct res1 as [[]|e|];
    [rewrite (bind_ok _ _ _ _ _ E1)
    |rewrite (bind_throw _ _ _ _ _ E1); left; split; reflexivity
    |rewrite (bind_fuel _ _ _ _ E1); left; split; reflexivity].
  destruct (reg_shape (interfaceProcessDeferred cfg) (with_registry r1 s)) as (res2 & r2 & E2).
  destruct res2 as [[]|e|];
    [rewrite (bind_ok _ _ _ _ _ E2)
    |rewrite (bind_throw _ _ _ _ _ E2); left; split; reflexivity
    |rewrite (bind_fuel _ _ _ _ E2); left; split; reflexivity].
  right. unfold on_imports. rewrite bind_modify, bind_gets.
  cbn [imports with_imports with_registry scriptsPending].
  fold (pending s).
  destruct (pending s - 1 =? 0) eqn:E.
  - match goal with |- context [allScriptsLoaded cfg ?s0] =>
      destruct (allScriptsLoaded_count cfg s0) as [H1 H2]; rewrite H1, H2
    end.
    split; reflexivity.
  - split; reflexivity.
Qed.

Lemma Script_scriptLoaded_count cfg id s :
  let s' := (Script_scriptLoaded cfg id s).2 in
  (pending s' = pending s /\ fired s' = fired s) \/
  (pending s' = pending s - 1 /\
   fired s' = if pending s - 1 =? 0 then S (fired s) else fired s).
Proof.
  cbv zeta. unfold Script_scriptLoaded, update_script, on_imports.
  rewrite !bind_modify.
  match goal with |- context [bind (when ?b ?m) ?f ?s0] =>
    assert (E : exists r, bind (when b m) f s0 = f tt (with_registry r s0))
  end.
  { destruct (debug_scripts cfg); cbn [when].
    - unfold reg, zoom, console_info, console_put, console_add, modify, bind. cbn. eauto.
    - unfold bind, ret. eexists (registry _). destruct s; reflexivity. }
  destruct E as [r E]. rewrite E.
  match goal with |- context [imports_scriptLoaded cfg ?s0] =>
    destruct (imports_scriptLoaded_count cfg s0) as [[H1 H2]|[H1 H2]];
      rewrite H1, H2; [left|right]; split; reflexivity
  end.
Qed.

Lemma Import_count cfg id s :
  let s' := (Import cfg id s).2 in
  fired s' = fired s /\
  pending s' =
    if imports_disabled cfg then pending s
    else match scripts (imports s) !! id with
         | Some _ => pending s
         | None => pending s + 1
         end.
Proof.
  cbv zeta. unfold Import, new_Script.
  destruct (imports_disabled cfg); [split; reflexivity|].
  rewrite bind_gets.
  destruct (scripts (imports s) !! id); destruct (debug_scripts cfg); split; reflexivity.
Qed.

Lemma load_count cfg s :
  fired (load cfg s).2 = fired s /\
  (pending (load cfg s).2 = 1 \/
   pending (load cfg s).2 = 0 /\ is_Some (scripts (imports s) !! startupScript cfg)).
Proof.
  unfold load, on_imports. rewrite bind_modify. cbv beta.
  set (s0 := with_imports (new_Imports (scripts (imports s))) s).
  match goal with |- context [bind ?m ?f s0] =>
    assert (H : preserves same_loader m) by (unfold on_appLoad; frame);
    destruct (preserved _ _ H s0) as [H1 H2];
    destruct (m s0) as [res1 s1] eqn:E1
  end.
  cbn [snd] in H1, H2.
  destruct res1 as [[]|e|];
    [rewrite (bind_ok _ _ _ _ _ E1)
    |rewrite (bind_throw _ _ _ _ _ E1); unfold pending, fired; cbn [snd];
     rewrite H1, H2; split; [reflexivity|by left]
    |rewrite (bind_fuel _ _ _ _ E1); unfold pending, fired; cbn [snd];
     rewrite H1, H2; split; [reflexivity|by left]].
  match goal with |- context [bind ?m ?f s1] =>
    assert (H' : preserves same_loader m) by (unfold on_appLoad; frame);
    destruct (preserved _ _ H' s1) as [H3 H4];
    destruct (m s1) as [res2 s2] eqn:E2
  end.
  cbn [snd] in H3, H4.
  assert (Hi : imports s2 = new_Imports (scripts (imports s)))
    by (rewrite H3, H1; reflexivity).
  assert (Hf : fired s2 = fired s) by (unfold fired; rewrite H4, H2; reflexivity).
  destruct res2 as [[]|e|];
    [rewrite (bind_ok _ _ _ _ _ E2)
    |rewrite (bind_throw _ _ _ _ _ E2); unfold pending; cbn [snd]; rewrite Hi;
     split; [exact Hf|by left]
    |rewrite (bind_fuel _ _ _ _ E2); unfold pending; cbn [snd]; rewrite Hi;
     split; [exact Hf|by left]].
  destruct (imports_disabled cfg) eqn:Hd; cbn [negb].
  - match goal with |- context [?m s2] =>
      assert (H'' : preserves same_loader m) by (unfold on_appLoad; frame);
      destruct (preserved _ _ H'' s2) as [H5 H6]
    end.
    unfold pending, fired in *. rewrite H5, H6, Hi. split; [exact Hf|by left].
  - unfold release_bias, on_imports. rewrite bind_modify.
    match goal with |- context [Import cfg ?i ?s3] =>
      destruct (Import_count cfg i s3) as [H5 H6]; rewrite H5, H6
    end.
    rewrite Hd. cbn [imports with_imports scripts]. rewrite Hi. cbn.
    split; [exact Hf|].
    destruct (scripts (imports s) !! startupScript cfg); [right; eauto|by left].
Qed.

(** ** Requests that have not loaded *)

Lemma alter_present {A} (f : A -> A) (m : gmap string A) i x :
  m !! i = Some x -> alter f i m = <[i := f x]> m.
Proof.
  intros H. apply map_eq. intros j.
  destruct (decide (i = j)) as [<-|Hne].
  - by rewrite lookup_alter_eq, lookup_insert_eq, H.
  - by rewrite lookup_alter_ne, lookup_insert_ne.
Qed.

Lemma size_waiting_insert (m : gmap string Script) i sc sc' :
  m !! i = Some sc ->
  Z.of_nat (size (filter (fun kv => loaded kv.2 = false) (<[i := sc']> m))) =
  Z.of_nat (size (filter (fun kv => loaded kv.2 = false) m))
  + (if loaded sc' then 0 else 1) - (if loaded sc then 0 else 1).
Proof.
  intros H. rewrite map_filter_insert. cbn [snd].
  destruct (decide (loaded sc' = false)) as [E'|E'].
  - rewrite E', map_size_insert.
    destruct (filter _ m !! i) as [x|] eqn:Ex.
    + apply map_lookup_filter_Some in Ex as [Ex Hx]. cbn in Hx.
      rewrite H in Ex. injection Ex as <-. rewrite Hx. unfold id. lia.
    + destruct (loaded sc) eqn:El; [lia|].
      assert (filter (fun kv : string * Script => loaded kv.2 = false) m !! i = Some sc)
        by (apply map_lookup_filter_Some; by split).
      congruence.
  - apply not_false_is_true in E'. rewrite E', map_filter_delete, map_size_delete.
    destruct (filter _ m !! i) as [x|] eqn:Ex.
    + apply map_lookup_filter_Some in Ex as [Ex Hx]. cbn in Hx.
      rewrite H in Ex. injection Ex as <-. rewrite Hx.
      assert (size (filter (fun kv : string * Script => loaded kv.2 = false) m) <> 0%nat).
      { intros Hz. apply map_size_empty_iff in Hz.
        assert (filter (fun kv : string * Script => loaded kv.2 = false) m !! i = Some sc)
          by (apply map_lookup_filter_Some; by split).
        rewrite Hz in H0. by rewrite lookup_empty in H0. }
      lia.
    + destruct (loaded sc) eqn:El; [unfold id; lia|].
      assert (filter (fun kv : string * Script => loaded kv.2 = false) m !! i = Some sc)
        by (apply map_lookup_filter_Some; by split).
      congruence.
Qed.

Lemma size_waiting_new (m : gmap string Script) i sc :
  m !! i = None ->
  Z.of_nat (size (filter (fun kv => loaded kv.2 = false) (<[i := sc]> m))) =
  Z.of_nat (size (filter (fun kv => loaded kv.2 = false) m))
  + (if loaded sc then 0 else 1).
Proof.
  intros H. rewrite map_filter_insert. cbn [snd].
  assert (Hf : filter (fun kv : string * Script => loaded kv.2 = false) m !! i = None)
    by (apply map_lookup_filter_None; by left).
  destruct (decide (loaded sc = false)) as [E|E].
  - rewrite E, map_size_insert, Hf. lia.
  - apply not_false_is_true in E. rewrite E, map_filter_delete, map_size_delete, Hf.
    unfold id. lia.
Qed.

#[local] Instance same_scripts_preorder : PreOrder same_scripts.
Proof.
  split; unfold same_scripts; [intros s|intros a b c ? ?]; congruence.
Qed.

Lemma same_scripts_registry s r : same_scripts s (with_registry r s).
Proof. reflexivity. Qed.

#[local] Hint Resolve same_scripts_registry : core.

Lemma mainGo_same_scripts cfg : preserves same_scripts (mainGo cfg).
Proof. unfold mainGo, call_main, call_observer, on_host, on_appLoad. frame. Qed.

Lemma run_initialization_same_scripts cfg :
  preserves same_scripts (run_initialization cfg).
Proof.
  apply run_initialization_preserves; [apply _|done..|].
  apply readyCheck_preserves; [apply _|done|apply mainGo_same_scripts].
Qed.

Lemma imports_scriptLoaded_same_scripts cfg :
  preserves same_scripts (imports_scriptLoaded cfg).
Proof.
  pose proof (run_initialization_same_scripts cfg).
  unfold imports_scriptLoaded, allScriptsLoaded, on_imports, on_host, on_appLoad.
  frame.
Qed.

Lemma Script_scriptLoaded_scripts cfg id s :
  scripts (imports (Script_scriptLoaded cfg id s).2) =
  alter (fun sc => {| scriptId := scriptId sc; loaded := true; interval := interval sc |}) id
    (alter (fun sc => {| scriptId := scriptId sc; loaded := loaded sc; interval := false |}) id
       (scripts (imports s))).
Proof.
  pose proof (imports_scriptLoaded_same_scripts cfg) as Hrest.
  unfold Script_scriptLoaded, update_script, on_imports. rewrite !bind_modify.
  match goal with |- context [bind ?m ?f ?s0] =>
    assert (H : preserves same_scripts (bind m f)) by frame;
    pose proof (preserved _ _ H s0) as E
  end.
  unfold same_scripts in E. by rewrite E.
Qed.

Lemma Script_scriptLoaded_outstanding cfg id sc s :
  scripts (imports s) !! id = Some sc -> loaded sc = false ->
  outstanding (Script_scriptLoaded cfg id s).2 = outstanding s - 1.
Proof.
  intros Hsc Hl. unfold outstanding, unloaded.
  rewrite Script_scriptLoaded_scripts, (alter_present _ _ _ _ Hsc).
  erewrite alter_present by apply lookup_insert_eq.
  rewrite insert_insert_eq, (size_waiting_insert _ _ _ _ Hsc). cbn [loaded].
  rewrite Hl. lia.
Qed.

Lemma Script_timeout_outstanding id s :
  outstanding (Script_timeout id s).2 = outstanding s /\
  pending (Script_timeout id s).2 = pending s /\
  fired (Script_timeout id s).2 = fired s.
Proof.
  unfold Script_timeout, update_script, on_imports. rewrite bind_modify.
  match goal with |- context [reg ?m ?s0] =>
    destruct (reg_shape m s0) as (res & r & E); rewrite E
  end.
  split; [|split; reflexivity].
  unfold outstanding, unloaded. cbn [snd imports with_registry with_imports scripts].
  destruct (scripts (imports s) !! id) as [sc|] eqn:Hsc.
  - rewrite (alter_present _ _ _ _ Hsc), (size_waiting_insert _ _ _ _ Hsc). cbn [loaded].
    lia.
  - f_equal. f_equal. f_equal. apply map_eq. intros j.
    destruct (decide (id = j)) as [<-|Hne].
    + by rewrite lookup_alter_eq, Hsc.
    + by rewrite lookup_alter_ne.
Qed.

Lemma Import_slack cfg id s : slack (Import cfg id s).2 = slack s.
Proof.
  unfold Import, new_Script.
  destruct (imports_disabled cfg); [reflexivity|].
  rewrite bind_gets.
  destruct (scripts (imports s) !! id) as [sc|] eqn:Hsc.
  - destruct (debug_scripts cfg); reflexivity.
  - unfold slack, pending, outstanding, unloaded.
    destruct (debug_scripts cfg); cbn;
      rewrite (size_waiting_new _ _ _ Hsc); cbn [loaded]; lia.
Qed.

Lemma quiet_steps cfg o s :
  match o with
  | OpLoad | OpImport _ | OpScriptLoaded _ | OpScriptTimeout _ => True
  | _ => same_loader s (exec cfg o s)
  end.
Proof.
  unfold exec.
  destruct o; cbn [step]; try exact I; apply (preserved same_loader);
    first [apply preserves_reg; [apply _|done]
          | apply notify_same_loader | apply notifyClear_same_loader
          | apply domLoaded_same_loader | apply pageLoaded_same_loader].
Qed.

Lemma scriptLoaded_step_count cfg id s :
  let s' := exec cfg (OpScriptLoaded id) s in
  (pending s' = pending s \/ pending s' = pending s - 1) /\
  (fired s' = fired s \/ fired s' = S (fired s)) /\
  (fired s' = S (fired s) <-> pending s' = pending s - 1 /\ pending s' = 0).
Proof.
  cbv zeta. unfold exec, step.
  destruct (script_event_cases id (fun sc => negb (loaded sc))
              (Script_scriptLoaded cfg id) s) as [-> | ->];
    [|cbn; repeat split; intros; first [lia | auto]].
  destruct (Script_scriptLoaded_count cfg id s) as [[H1 H2]|[H1 H2]];
    rewrite H1, H2.
  - repeat split; intros; first [lia | auto].
  - destruct (pending s - 1 =? 0) eqn:E.
    + apply Z.eqb_eq in E. repeat split; intros; first [lia | auto].
    + apply Z.eqb_neq in E. repeat split; intros; first [lia | auto].
Qed.

Lemma other_steps_count cfg o s :
  match o with
  | OpLoad | OpImport _ | OpScriptLoaded _ => True
  | _ => pending (exec cfg o s) = pending s /\ fired (exec cfg o s) = fired s
  end.
Proof.
  pose proof (quiet_steps cfg o s) as H.
  destruct o; try exact I;
    try (unfold pending, fired; by rewrite (proj1 H), (proj2 H)).
  unfold exec, step.
  destruct (script_event_cases id interval (Script_timeout id) s) as [-> | ->];
    [|split; reflexivity].
  apply Script_timeout_outstanding.
Qed.

Lemma step_slack cfg o s : o <> OpLoad -> slack s <= slack (exec cfg o s).
Proof.
  intros Hload.
  pose proof (quiet_steps cfg o s) as H.
  destruct o; try done;
    try (unfold slack, pending, outstanding, unloaded; rewrite (proj1 H); lia).
  - unfold exec, step. rewrite Import_slack. lia.
  - destruct (scriptLoaded_step_count cfg id s) as (Hp & _).
    revert Hp. unfold exec, step, script_event. rewrite bind_gets.
    destruct (scripts (imports s) !! id) as [sc|] eqn:Hsc; [|cbn; lia].
    destruct (loaded sc) eqn:Hl; [cbn; lia|]. cbn [negb].
    unfold slack. rewrite (Script_scriptLoaded_outstanding cfg id sc s Hsc Hl). lia.
  - unfold exec, step.
    destruct (script_event_cases id interval (Script_timeout id) s) as [-> | ->];
      [|cbn; lia].
    destruct (Script_timeout_outstanding id s) as (H1 & H2 & _).
    unfold slack. rewrite H1, H2. lia.
Qed.

Lemma step_fired cfg o s :
  fired (exec cfg o s) = S (fired s) -> pending (exec cfg o s) = 0.
Proof.
  intros Hf.
  pose proof (other_steps_count cfg o s) as H.
  destruct o; try (rewrite (proj2 H) in Hf; lia).
  - destruct (load_count cfg s) as [H1 _]. unfold exec, step in Hf. rewrite H1 in Hf. lia.
  - destruct (Import_count cfg id s) as [H1 _]. unfold exec, step in Hf.
    rewrite H1 in Hf. lia.
  - by apply scriptLoaded_step_count in Hf as [_ ?].
Qed.

Lemma run_app cfg ops o s : run cfg (ops ++ [o]) s = exec cfg o (run cfg ops s).
Proof. unfold run. by rewrite fold_left_app. Qed.

Lemma run_slack cfg ops s :
  Forall (fun o => o <> OpLoad) ops -> slack s <= slack (run cfg ops s).
Proof.
  intros H. revert s. induction H as [|o ops Ho _ IH]; intros s; [cbn; lia|].
  change (run cfg (o :: ops) s) with (run cfg ops (exec cfg o s)).
  specialize (IH (exec cfg o s)). pose proof (step_slack cfg o s Ho). lia.
Qed.

Lemma load_slack cfg s : - outstanding s <= slack (load cfg s).2.
Proof.
  unfold load, on_imports. rewrite bind_modify. cbv beta.
  set (s0 := with_imports (new_Imports (scripts (imports s))) s).
  assert (H0 : slack s0 = 1 - outstanding s) by reflexivity.
  match goal with |- context [bind ?m ?f s0] =>
    assert (H : preserves same_loader m) by (unfold on_appLoad; frame);
    destruct (preserved _ _ H s0) as [H1 _];
    destruct (m s0) as [res1 s1] eqn:E1
  end.
  cbn [snd] in H1.
  assert (Hs1 : slack s1 = slack s0)
    by (unfold slack, pending, outstanding, unloaded; by rewrite H1).
  destruct res1 as [[]|e|];
    [rewrite (bind_ok _ _ _ _ _ E1)
    |rewrite (bind_throw _ _ _ _ _ E1); cbn [snd]; lia
    |rewrite (bind_fuel _ _ _ _ E1); cbn [snd]; lia].
  match goal with |- context [bind ?m ?f s1] =>
    assert (H' : preserves same_loader m) by (unfold on_appLoad; frame);
    destruct (preserved _ _ H' s1) as [H3 _];
    destruct (m s1) as [res2 s2] eqn:E2
  end.
  cbn [snd] in H3.
  assert (Hs2 : slack s2 = slack s1)
    by (unfold slack, pending, outstanding, unloaded; by rewrite H3).
  destruct res2 as [[]|e|];
    [rewrite (bind_ok _ _ _ _ _ E2)
    |rewrite (bind_throw _ _ _ _ _ E2); cbn [snd]; lia
    |rewrite (bind_fuel _ _ _ _ E2); cbn [snd]; lia].
  destruct (imports_disabled cfg) eqn:Hd; cbn [negb].
  - match goal with |- context [?m s2] =>
      assert (H'' : preserves same_loader m) by (unfold on_appLoad; frame);
      destruct (preserved _ _ H'' s2) as [H5 _]
    end.
    unfold slack, pending, outstanding, unloaded in *. rewrite H5. lia.
  - unfold release_bias, on_imports. rewrite bind_modify, Import_slack.
    unfold slack, pending, outstanding, unloaded in *.
    cbn [imports with_imports scripts scriptsPending]. lia.
Qed.

Lemma loading_slack cfg : 0 <= slack (exec cfg OpLoad initial_state).
Proof. apply (load_slack cfg initial_state). Qed.

(** On a page, that is after [load] and without a second call of it,
    every request that has not loaded holds a unit of the counter. *)
Lemma page_slack cfg ops :
  Forall (fun o => o <> OpLoad) ops ->
  0 <= slack (run cfg ops (exec cfg OpLoad initial_state)).
Proof.
  intros H. pose proof (run_slack cfg ops (exec cfg OpLoad initial_state) H).
  pose proof (loading_slack cfg). lia.
Qed.

Lemma outstanding_zero s id sc :
  outstanding s <= 0 -> scripts (imports s) !! id = Some sc -> loaded sc = true.
Proof.
  unfold outstanding, unloaded. intros Hz Hsc.
  destruct (loaded sc) eqn:Hl; [done|].
  assert (Hs : size (filter (fun kv : string * Script => loaded kv.2 = false)
                       (scripts (imports s))) = 0%nat) by lia.
  apply map_size_empty_iff in Hs.
  assert (H : filter (fun kv : string * Script => loaded kv.2 = false)
                (scripts (imports s)) !! id = Some sc)
    by (apply map_lookup_filter_Some; by split).
  rewrite Hs in H. by rewrite lookup_empty in H.
Qed.

(** The event [allScriptsLoaded] is triggered only by a step that leaves
    every requested script loaded. *)
Lemma settled_only_when_all_loaded cfg ops o :
  Forall (fun o => o <> OpLoad) (ops ++ [o]) ->
  let s := run cfg ops (exec cfg OpLoad initial_state) in
  fired (exec cfg o s) = S (fired s) ->
  forall id sc, scripts (imports (exec cfg o s)) !! id = Some sc -> loaded sc = true.
Proof.
  intros Hops s Hf id sc Hsc.
  apply (outstanding_zero (exec cfg o s) id sc); [|exact Hsc].
  pose proof (page_slack cfg (ops ++ [o]) Hops) as Hslack.
  rewrite run_app in Hslack. fold s in Hslack.
  pose proof (step_fired cfg o s Hf). unfold slack in Hslack. lia.
Qed.

Lemma step_fired_cases cfg o s :
  fired (exec cfg o s) = fired s \/ fired (exec cfg o s) = S (fired s).
Proof.
  pose proof (other_steps_count cfg o s) as H.
  destruct o; try (left; exact (proj2 H)).
  - left. apply load_count.
  - left. apply Import_count.
  - apply scriptLoaded_step_count.
Qed.

Lemma Script_timeout_scripts id s :
  scripts (imports (Script_timeout id s).2) =
  alter (fun sc => {| scriptId := scriptId sc; loaded := loaded sc; interval := false |}) id
    (scripts (imports s)).
Proof.
  unfold Script_timeout, update_script, on_imports. rewrite bind_modify.
  match goal with |- context [reg ?m ?s0] =>
    destruct (reg_shape m s0) as (res & r & E); rewrite E
  end.
  reflexivity.
Qed.

(** A script that has not loaded stays so until its [load] event. *)
Lemma step_waiting cfg o s id sc :
  o <> OpLoad -> o <> OpScriptLoaded id ->
  scripts (imports s) !! id = Some sc -> loaded sc = false ->
  exists sc', scripts (imports (exec cfg o s)) !! id = Some sc' /\ loaded sc' = false.
Proof.
  intros Hload Hid Hsc Hl.
  pose proof (quiet_steps cfg o s) as H.
  destruct o; try done; try (exists sc; by rewrite (proj1 H)).
  - exists sc. split; [|exact Hl].
    unfold exec, step, Import, new_Script.
    destruct (imports_disabled cfg); [exact Hsc|].
    rewrite bind_gets.
    destruct (scripts (imports s) !! id0) as [sc0|] eqn:H0.
    + by destruct (debug_scripts cfg).
    + assert (id0 <> id) by congruence.
      destruct (debug_scripts cfg); cbn; by rewrite lookup_insert_ne.
  - assert (id0 <> id) by congruence.
    exists sc. split; [|exact Hl].
    unfold exec, step.
    destruct (script_event_cases id0 (fun sc => negb (loaded sc))
                (Script_scriptLoaded cfg id0) s) as [-> | ->]; [|exact Hsc].
    by rewrite Script_scriptLoaded_scripts, !lookup_alter_ne.
  - unfold exec, step.
    destruct (script_event_cases id0 interval (Script_timeout id0) s) as [-> | ->];
      [|by exists sc].
    rewrite Script_timeout_scripts.
    destruct (decide (id0 = id)) as [->|Hne].
    + rewrite lookup_alter_eq, Hsc. eexists. split; [reflexivity|exact Hl].
    + rewrite lookup_alter_ne by done. by exists sc.
Qed.

(** A request whose script does not load holds the counter above zero:
    whatever else happens on the page, a time-out included, the event
    [allScriptsLoaded] is not triggered. *)
Lemma unloaded_script_blocks_settle cfg ops id sc s :
  0 <= slack s ->
  scripts (imports s) !! id = Some sc -> loaded sc = false ->
  Forall (fun o => o <> OpLoad /\ o <> OpScriptLoaded id) ops ->
  fired (run cfg ops s) = fired s.
Proof.
  intros Hslack Hsc Hl Hops. revert s sc Hslack Hsc Hl.
  induction Hops as [|o ops [Hload Hid] _ IH]; intros s sc Hslack Hsc Hl; [reflexivity|].
  change (run cfg (o :: ops) s) with (run cfg ops (exec cfg o s)).
  destruct (step_waiting cfg o s id sc Hload Hid Hsc Hl) as (sc' & Hsc' & Hl').
  pose proof (step_slack cfg o s Hload) as Hs.
  rewrite (IH (exec cfg o s) sc') by (lia || assumption).
  destruct (step_fired_cases cfg o s) as [E|E]; [exact E|].
  pose proof (step_fired cfg o s E) as Hp.
  pose proof (outstanding_zero (exec cfg o s) id sc') as Hz.
  unfold slack in Hs, Hslack. rewrite Hz in Hl'; [discriminate|lia|exact Hsc'].
Qed.

(** ** [main] waits for the settled event *)

#[local] Instance gated_preorder : PreOrder gated.
Proof.
  split.
  - intros s. split; [intros H; exact H|by left].
  - intros a b c [H1 H2] [H3 H4]. split; [intros H; auto|].
    destruct H4 as [H4|H4]; [|by right].
    destruct H2 as [H2|H2]; [left; congruence|right; auto].
Qed.

#[local] Instance ready_by_event_preorder cfg : PreOrder (ready_by_event cfg).
Proof.
  split.
  - intros s. split; auto.
  - intros a b c [H1 H2] [H3 H4]. split; [lia|].
    destruct H4 as [H4|[H4|H4]]; [|auto..].
    destruct H2 as [H2|[H2|H2]]; [left; congruence|right; left; lia|auto].
Qed.

#[local] Instance main_outside_test_preorder cfg : PreOrder (main_outside_test cfg).
Proof.
  split; unfold main_outside_test.
  - intros s; auto.
  - intros a b c H1 H2 H. rewrite H2, H1; auto.
Qed.

Lemma gated_same s s' :
  appLoad s' = appLoad s -> host s' = host s -> gated s s'.
Proof.
  intros H1 H2. unfold gated, keeps_ready, ready. rewrite H1, H2.
  split; [intros H; exact H|by left].
Qed.

#[local] Instance keeps_ready_preorder : PreOrder keeps_ready.
Proof. split; unfold keeps_ready; [intros s|intros a b c]; auto. Qed.

Lemma mainGo_keeps_ready cfg : preserves keeps_ready (mainGo cfg).
Proof.
  unfold mainGo, call_main, call_observer, on_host, on_appLoad.
  frame; intros H; exact H.
Qed.

Lemma readyCheck_gated cfg : preserves gated (readyCheck cfg).
Proof.
  constructor. intros s.
  destruct (ready s) eqn:Hr.
  - pose proof (preserved _ _
      (readyCheck_preserves cfg keeps_ready (fun s r H => H) (mainGo_keeps_ready cfg))
      s) as H.
    split; [exact H|right; by apply H].
  - unfold readyCheck. rewrite bind_gets. unfold ready in Hr. rewrite Hr. cbn [andb].
    match goal with |- context [bind (when ?b ?m) ?f s] =>
      destruct b; cbn [when]
    end.
    + match goal with |- context [bind (reg ?m) ?f s] =>
        destruct (reg_shape m s) as (res & r & E)
      end.
      destruct res as [[]|e|];
        [rewrite (bind_ok _ _ _ _ _ E)|rewrite (bind_throw _ _ _ _ _ E)
        |rewrite (bind_fuel _ _ _ _ E)]; by apply gated_same.
    + rewrite bind_ret. by apply gated_same.
Qed.

Lemma step_gated cfg o : preserves gated (step cfg o).
Proof.
  destruct o;
    try (apply step_preserves;
         first [apply _ | apply readyCheck_gated | done
               | intros; apply gated_same; reflexivity
               | intros; split; [intros H; exact H|by left]
               | intros; split; [intros _; reflexivity|by right]]).
  - cbn [step]. unfold notify, on_appLoad. frame.
    split; [unfold keeps_ready, ready; cbn; by case_bool_decide|left].
    cbn. reflexivity.
  - cbn [step]. unfold notifyClear, on_appLoad. frame.
    split; [intros H; exact H|by left].
Qed.

Lemma ready_by_event_same cfg s s' :
  appLoad s' = appLoad s -> host s' = host s -> ready_by_event cfg s s'.
Proof.
  intros H1 H2. unfold ready_by_event, ready, fired. rewrite H1, H2.
  split; [lia|by left].
Qed.

Lemma ready_by_event_flag cfg s a :
  scriptsReady a = scriptsReady (appLoad s) -> ready_by_event cfg s (with_appLoad a s).
Proof. intros H. split; [reflexivity|by left]. Qed.

#[local] Hint Resolve ready_by_event_same ready_by_event_flag : core.

Lemma mainGo_ready_by_event cfg : preserves (ready_by_event cfg) (mainGo cfg).
Proof.
  unfold mainGo, call_main, call_observer, on_host, on_appLoad.
  frame; first [by apply ready_by_event_same | by apply ready_by_event_flag].
Qed.

Lemma readyCheck_ready_by_event cfg : preserves (ready_by_event cfg) (readyCheck cfg).
Proof.
  apply readyCheck_preserves; [apply _|auto|apply mainGo_ready_by_event].
Qed.

Lemma allScriptsLoaded_ready_by_event cfg :
  preserves (ready_by_event cfg) (allScriptsLoaded cfg).
Proof.
  constructor. intros s. destruct (allScriptsLoaded_count cfg s) as [_ H].
  split; [|right; left]; lia.
Qed.

Lemma step_ready_by_event cfg o : preserves (ready_by_event cfg) (step cfg o).
Proof.
  pose proof (readyCheck_ready_by_event cfg) as Hrc.
  pose proof (allScriptsLoaded_ready_by_event cfg) as Hall.
  assert (Hinit : preserves (ready_by_event cfg) (run_initialization cfg))
    by (apply run_initialization_preserves; [apply _|auto..]).
  assert (Hdom : preserves (ready_by_event cfg) (domLoaded cfg))
    by (unfold domLoaded, on_appLoad; frame).
  destruct o; cbn [step].
  - unfold load, release_bias, Import, new_Script, on_imports, on_appLoad.
    destruct (imports_disabled cfg) eqn:Hd; cbn [negb]; frame.
    split; [reflexivity|by right; right].
  - unfold Import, new_Script, on_imports. frame.
  - frame.
  - frame.
  - frame.
  - unfold notify, on_appLoad. frame. apply ready_by_event_flag. by case_bool_decide.
  - unfold notifyClear, on_appLoad. frame.
  - unfold script_event, Script_scriptLoaded, imports_scriptLoaded, update_script,
      on_imports. frame.
  - unfold script_event, Script_timeout, update_script, on_imports. frame.
  - exact Hdom.
  - unfold pageLoaded, on_appLoad. frame.
Qed.

Lemma main_outside_test_same cfg s s' :
  mainCalls (host s') = mainCalls (host s) -> main_outside_test cfg s s'.
Proof. intros H _. exact H. Qed.

#[local] Hint Resolve main_outside_test_same : core.

Lemma mainGo_main_outside_test cfg : preserves (main_outside_test cfg) (mainGo cfg).
Proof.
  unfold mainGo. destruct (test cfg) as [t|] eqn:Ht.
  - unfold call_observer, on_host, on_appLoad. frame.
  - constructor. intros s H. by rewrite Ht in H.
Qed.

Lemma step_main_outside_test cfg o : preserves (main_outside_test cfg) (step cfg o).
Proof.
  destruct o;
    try (apply step_preserves;
         first [apply _ | done | by auto
               | apply readyCheck_preserves;
                 [apply _|by auto|apply mainGo_main_outside_test]]).
  - cbn [step]. unfold notify, on_appLoad. frame.
  - cbn [step]. unfold notifyClear, on_appLoad. frame.
Qed.

Lemma run_preserved cfg (P : State -> State -> Prop) `{!PreOrder P} ops s :
  (forall o, preserves P (step cfg o)) -> P s (run cfg ops s).
Proof.
  intros H. revert s. induction ops as [|o ops IH]; intros s; [reflexivity|].
  change (run cfg (o :: ops) s) with (run cfg ops (exec cfg o s)).
  transitivity (exec cfg o s); [apply (preserved P _ (H o))|apply IH].
Qed.

(** On a page [main] is not called before the event [allScriptsLoaded]. *)
Lemma main_waits_for_settle cfg ops :
  let s := run cfg ops initial_state in
  fired s = 0%nat -> mainCalls (host s) = 0%nat.
Proof.
  cbv zeta. intros Hf.
  destruct (run_preserved cfg gated ops initial_state (step_gated cfg)) as [_ Hg].
  destruct (run_preserved cfg (ready_by_event cfg) ops initial_state
              (step_ready_by_event cfg)) as [_ Hr].
  pose proof (run_preserved cfg (main_outside_test cfg) ops initial_state
                (step_main_outside_test cfg)) as Ht.
  destruct Hg as [Hg|Hg]; [exact Hg|].
  destruct Hr as [Hr|[Hr|Hr]].
  - rewrite Hg in Hr. discriminate.
  - lia.
  - apply Ht. unfold imports_disabled in Hr. by destruct (test cfg).
Qed.

Lemma run_cat cfg ops1 ops2 s :
  run cfg (ops1 ++ ops2) s = run cfg ops2 (run cfg ops1 s).
Proof. unfold run. by rewrite fold_left_app. Qed.

Lemma settle_is_a_load_event cfg o s :
  fired (exec cfg o s) = S (fired s) -> exists id, o = OpScriptLoaded id.
Proof.
  intros Hf.
  pose proof (other_steps_count cfg o s) as H.
  destruct o; try (rewrite (proj2 H) in Hf; lia); [| |by eexists].
  - destruct (load_count cfg s) as [H1 _]. unfold exec, step in Hf. rewrite H1 in Hf. lia.
  - destruct (Import_count cfg id s) as [H1 _]. unfold exec, step in Hf.
    rewrite H1 in Hf. lia.
Qed.

(** On a page a requested script that has not loaded keeps the event
    [allScriptsLoaded] from being triggered and, when it has not been
    triggered before, [main] from being called. *)
Lemma unloaded_script_blocks_start cfg ops0 ops id sc :
  Forall (fun o => o <> OpLoad) ops0 ->
  let s := run cfg ops0 (exec cfg OpLoad initial_state) in
  scripts (imports s) !! id = Some sc -> loaded sc = false ->
  Forall (fun o => o <> OpLoad /\ o <> OpScriptLoaded id) ops ->
  fired (run cfg ops s) = fired s /\
  (fired s = 0%nat -> mainCalls (host (run cfg ops s)) = 0%nat).
Proof.
  intros Hops0 s Hsc Hl Hops.
  assert (Hf : fired (run cfg ops s) = fired s)
    by (apply (unloaded_script_blocks_settle cfg ops id sc);
        [by apply page_slack|done..]).
  split; [exact Hf|]. intros Hz.
  pose proof (main_waits_for_settle cfg (OpLoad :: ops0 ++ ops)) as Hm.
  change (run cfg (OpLoad :: ops0 ++ ops) initial_state)
    with (run cfg (ops0 ++ ops) (exec cfg OpLoad initial_state)) in Hm.
  rewrite run_cat in Hm. apply Hm. fold s. lia.
Qed.

Lemma timeout_keeps_flag id s :
  loaded <$> scripts (imports (Script_timeout id s).2) !! id =
  loaded <$> scripts (imports s) !! id.
Proof.
  rewrite Script_timeout_scripts, lookup_alter_eq.
  by destruct (scripts (imports s) !! id).
Qed.

(** ** The latch of [main] and the observers *)

#[local] Instance keeps_latch_preorder : PreOrder keeps_latch.
Proof. split; unfold keeps_latch; [intros s|intros a b c]; auto. Qed.

#[local] Instance same_main_preorder : PreOrder same_main.
Proof.
  split.
  - intros s. by split.
  - intros a b c [? ?] [? ?]. split; congruence.
Qed.

Lemma observers_same_main cfg l : preserves same_main (for_each l (call_observer cfg)).
Proof. unfold call_observer, on_host. frame. Qed.

Lemma call_observer_ok cfg f s :
  observer_throws cfg f = false ->
  call_observer cfg f s =
    (Ok tt, with_host {| mainCalls := mainCalls (host s);
                         notified := (notified (host s) ++ [f])%list;
                         settled := settled (host s);
                         scaffoldingReady := scaffoldingReady (host s) |} s).
Proof. intros H. unfold call_observer, on_host. rewrite bind_modify, H. reflexivity. Qed.

(** The loop over the observers when none of those called throws. *)
Lemma observers_all_called cfg l : forall s,
  (forall f, f ∈ l -> observer_throws cfg f = false) ->
  (for_each l (call_observer cfg) s).1 = Ok tt /\
  notified (host (for_each l (call_observer cfg) s).2) = (notified (host s) ++ l)%list.
Proof.
  induction l as [|f l IH]; intros s Hl; cbn [for_each].
  - split; [reflexivity|]. cbn. by rewrite app_nil_r.
  - rewrite (bind_ok _ _ _ _ _ (call_observer_ok cfg f s (Hl f ltac:(left)))).
    match goal with |- context [for_each l _ ?s0] =>
      destruct (IH s0) as [H1 H2]; [intros g Hg; apply Hl; by right|]
    end.
    split; [exact H1|]. rewrite H2. cbn. by rewrite <- app_assoc.
Qed.

Lemma mainGo_keeps_latch cfg :
  main_throws cfg 0 = false -> preserves keeps_latch (mainGo cfg).
Proof.
  intros Hmain. constructor. intros s Hl. unfold mainGo. rewrite bind_gets.
  assert (Hobs : forall s0, main_latched s0 ->
            main_latched ((l <- gets (fun s => notifyFunctions (appLoad s)) ;;
                           for_each l (call_observer cfg)) s0).2).
  { intros s0 H0. rewrite bind_gets.
    destruct (preserved _ _ (observers_same_main cfg (notifyFunctions (appLoad s0))) s0) as [H1 H2].
    unfold main_latched in *. rewrite H1, H2. exact H0. }
  destruct (test cfg) as [t|].
  - unfold on_host, on_appLoad. rewrite !bind_modify. apply Hobs.
    destruct Hl as [Hl|[Hl _]]; [left|right]; cbn; auto.
  - destruct (appLoadFinished (appLoad s)) eqn:Hf.
    + unfold on_appLoad. rewrite bind_ret, bind_modify. apply Hobs.
      destruct Hl as [Hl|[Hl _]]; [left|right]; cbn; auto.
    + destruct Hl as [Hl|[_ Hl]]; [|congruence].
      unfold call_main, on_host, on_appLoad.
      rewrite !bind_assoc, bind_gets, Hl, Hmain. rewrite !bind_assoc, !bind_modify.
      rewrite bind_ret, bind_modify. apply Hobs.
      right. cbn. auto.
Qed.

Lemma readyCheck_keeps_latch cfg :
  main_throws cfg 0 = false -> preserves keeps_latch (readyCheck cfg).
Proof.
  intros Hmain.
  apply readyCheck_preserves;
    [apply _|unfold keeps_latch; intros; assumption|by apply mainGo_keeps_latch].
Qed.

Lemma step_keeps_latch cfg o :
  main_throws cfg 0 = false -> preserves keeps_latch (step cfg o).
Proof.
  intros Hmain.
  destruct o;
    try (apply step_preserves;
         first [apply _ | by apply readyCheck_keeps_latch | done
               | unfold keeps_latch; intros; assumption]).
  - cbn [step]. unfold notify, on_appLoad. frame. intros H.
    unfold main_latched in *. cbn. case_bool_decide; exact H.
  - cbn [step]. unfold notifyClear, on_appLoad. frame. intros H. exact H.
Qed.

#[local] Instance keeps_nodup_preorder : PreOrder keeps_nodup.
Proof. split; unfold keeps_nodup; [intros s|intros a b c]; auto. Qed.

Lemma mainGo_keeps_nodup cfg : preserves keeps_nodup (mainGo cfg).
Proof.
  unfold mainGo, call_main, call_observer, on_host, on_appLoad.
  frame; intros H; exact H.
Qed.

Lemma readyCheck_keeps_nodup cfg : preserves keeps_nodup (readyCheck cfg).
Proof.
  apply readyCheck_preserves;
    [apply _|unfold keeps_nodup; intros; assumption|apply mainGo_keeps_nodup].
Qed.

Lemma step_keeps_nodup cfg o : preserves keeps_nodup (step cfg o).
Proof.
  destruct o;
    try (apply step_preserves;
         first [apply _ | apply readyCheck_keeps_nodup | done
               | unfold keeps_nodup; intros; assumption]).
  - cbn [step]. unfold notify, on_appLoad. frame. intros H.
    cbn. case_bool_decide as Hin; [exact H|].
    cbn. apply NoDup_app. repeat split; [exact H| |apply NoDup_singleton].
    intros x Hx Hx'. apply list_elem_of_singleton in Hx'. by subst.
  - cbn [step]. unfold notifyClear, on_appLoad. frame. intros H.
    cbn. by apply NoDup_filter.
Qed.

Lemma observers_registered_once cfg ops :
  NoDup (notifyFunctions (appLoad (run cfg ops initial_state))).
Proof.
  assert (H : forall s, NoDup (notifyFunctions (appLoad s)) ->
                        NoDup (notifyFunctions (appLoad (run cfg ops s)))).
  { induction ops as [|o ops IH]; intros s Hs; [exact Hs|].
    cbn. apply IH. unfold exec.
    by apply (preserved _ _ (step_keeps_nodup cfg o) s). }
  apply H. cbn. apply NoDup_nil_2.
Qed.

(** What [mainGo] does in a state where [main] is still to be called. *)
Lemma mainGo_calls_main cfg s :
  test cfg = None -> appLoadFinished (appLoad s) = false ->
  let s' := (mainGo cfg s).2 in
  mainCalls (host s') = S (mainCalls (host s)) /\
  if main_throws cfg (mainCalls (host s)) then
    (mainGo cfg s).1 = Throw (Thrown "main") /\
    appLoadFinished (appLoad s') = false /\
    notified (host s') = notified (host s)
  else
    appLoadFinished (appLoad s') = true /\
    ((forall f, f ∈ notifyFunctions (appLoad s) -> observer_throws cfg f = false) ->
     (mainGo cfg s).1 = Ok tt /\
     notified (host s') = (notified (host s) ++ notifyFunctions (appLoad s))%list).
Proof.
  intros Ht Hf. cbv zeta. unfold mainGo. rewrite bind_gets, Ht, Hf.
  unfold call_main, on_host, on_appLoad.
  rewrite !bind_assoc, bind_gets, !bind_assoc, bind_modify.
  destruct (main_throws cfg (mainCalls (host s))).
  - cbn. auto.
  - rewrite bind_ret, bind_modify, bind_gets.
    match goal with |- context [for_each ?l _ ?s0] =>
      destruct (preserved _ _ (observers_same_main cfg l) s0) as [H1 H2];
      pose proof (observers_all_called cfg l s0) as H3
    end.
    rewrite H1, H2. cbn. split; [reflexivity|]. split; [reflexivity|].
    intros Hobs. apply H3. exact Hobs.
Qed.

Lemma mainGo_skips_main cfg s :
  test cfg <> None \/ appLoadFinished (appLoad s) = true ->
  mainCalls (host (mainGo cfg s).2) = mainCalls (host s).
Proof.
  intros H. unfold mainGo. rewrite bind_gets.
  assert (Hobs : forall s0, mainCalls (host ((l <- gets (fun s => notifyFunctions (appLoad s)) ;;
                           for_each l (call_observer cfg)) s0).2) = mainCalls (host s0)).
  { intros s0. rewrite bind_gets.
    by destruct (preserved _ _ (observers_same_main cfg (notifyFunctions (appLoad s0))) s0) as [H1 H2]. }
  destruct (test cfg) as [t|].
  - unfold on_host, on_appLoad. rewrite !bind_modify, Hobs. reflexivity.
  - destruct H as [H|H]; [done|]. rewrite H.
    unfold on_appLoad. rewrite bind_ret, bind_modify, Hobs. reflexivity.
Qed.

(** ** The processing of a class *)

#[local] Instance only_logs_preorder : PreOrder only_logs.
Proof.
  split.
  - intros r. exists []. by rewrite with_console_nil.
  - intros a b c [t ->] [u ->]. exists (t ++ u)%list. cbn. by rewrite app_assoc.
Qed.

#[local] Instance same_console_preorder : PreOrder same_console.
Proof. split; unfold same_console; [intros r|intros a b c]; congruence. Qed.

Lemma only_logs_add r m : only_logs r (with_console (console r ++ [m]) r).
Proof. by exists [m]. Qed.
#[local] Hint Resolve only_logs_add : core.

Lemma definitionGet_only_logs n : preserves only_logs (definitionGet n).
Proof. unfold definitionGet. frame. Qed.
#[local] Hint Resolve definitionGet_only_logs : core.

Lemma get_all_only_logs l : preserves only_logs (get_all l).
Proof. induction l as [|n l IH]; cbn [get_all]; frame. Qed.
#[local] Hint Resolve get_all_only_logs : core.

Lemma check_method_only_logs cfg args nc ci m : preserves only_logs (check_method cfg args nc ci m).
Proof. unfold check_method, console_put, console_add. frame. Qed.
#[local] Hint Resolve check_method_only_logs : core.

Lemma check_interface_only_logs cfg args nc ci : preserves only_logs (check_interface cfg args nc ci).
Proof. unfold check_interface, console_put, console_add. frame. Qed.
#[local] Hint Resolve check_interface_only_logs : core.

Lemma class_make_only_logs cfg args : preserves only_logs (class_make cfg args).
Proof. unfold class_make, console_put, console_add. frame. Qed.

Lemma class_store_same_console args nc : preserves same_console (class_store args nc).
Proof. unfold class_store, definitionSet. frame. Qed.

Lemma split_on_nonempty c s : Str.split_on c s <> [].
Proof.
  destruct s as [|a s]; cbn; [done|].
  destruct (Ascii.eqb a c); [done|]. by destruct (Str.split_on c s).
Qed.

Lemma get_prop_object v k :
  is_object v = true -> Tree.get_prop v k = Ok (default VUndefined (own_props v !! k)).
Proof. by destruct v. Qed.

Lemma get_path_from_primitive v p par :
  is_object v = false -> Tree.get_path v p = Ok par -> is_object par = true -> False.
Proof.
  intros Hv Hp Hpar. destruct p as [|k p]; cbn in Hp.
  - injection Hp as ->. congruence.
  - destruct v; try discriminate; cbn in Hp;
      (destruct p as [|k' p]; cbn in Hp; [injection Hp as <-|]; discriminate).
Qed.

Lemma set_path_cons v k k' p x :
  Tree.set_path v (k :: k' :: p) x =
  Tree.rbind (Tree.get_prop v k) (fun c =>
  Tree.rbind (Tree.set_path c (k' :: p) x) (fun c' => Tree.set_prop v k c')).
Proof. reflexivity. Qed.

Lemma get_path_cons v k p :
  Tree.get_path v (k :: p) = Tree.rbind (Tree.get_prop v k) (fun c => Tree.get_path c p).
Proof. reflexivity. Qed.

Lemma set_path_get_path x : forall p w,
  p <> [] ->
  (exists par, Tree.get_path w (removelast p) = Ok par /\ is_object par = true) ->
  exists w', Tree.set_path w p x = Ok w' /\ Tree.get_path w' p = Ok x.
Proof.
  induction p as [|k p IH]; intros w Hne (par & Hpar & Hobj); [done|].
  destruct p as [|k' p].
  - cbn in Hpar. injection Hpar as <-.
    destruct w; try discriminate; cbn; eexists; (split; [reflexivity|]);
      cbn; by rewrite lookup_insert_eq.
  - change (removelast (k :: k' :: p)) with (k :: removelast (k' :: p)) in Hpar.
    rewrite get_path_cons in Hpar.
    destruct (is_object w) eqn:Hw.
    + rewrite (get_prop_object w k Hw) in Hpar. cbn [Tree.rbind] in Hpar.
      destruct (IH (default VUndefined (own_props w !! k))) as (c' & Hset & Hget);
        [done|eauto|].
      rewrite set_path_cons, (get_prop_object w k Hw). cbn [Tree.rbind].
      rewrite Hset. cbn [Tree.rbind].
      destruct w; try discriminate; cbn [Tree.set_prop]; eexists; (split; [reflexivity|]);
        rewrite get_path_cons; cbn [Tree.get_prop Tree.rbind];
        rewrite lookup_insert_eq; exact Hget.
    + exfalso. destruct w; try discriminate; cbn in Hpar;
        try discriminate;
        (eapply (get_path_from_primitive VUndefined); [reflexivity|exact Hpar|exact Hobj]).
Qed.

Lemma class_name_check_logs args r :
  Str.no_leading_upper (className_of (c_name args)) = true ->
  class_name_check args r =
    (Ok tt, with_console (console r ++ [uppercase_error (c_name args)]) r).
Proof. intros H. unfold class_name_check. rewrite H. reflexivity. Qed.

Lemma class_store_ok args nc r v r' :
  class_store args nc r = (Ok v, r') ->
  classes r' !! c_name args = Some true /\
  Tree.set_path (window r) (Str.split_dots (c_name args)) v = Ok (window r').
Proof.
  unfold class_store, definitionSet. intros H.
  apply bind_inv_ok in H as (nc' & r1 & H1 & H).
  unfold lift_result in H1. injection H1 as H1 <-.
  apply bind_inv_ok in H as (x & r2 & H2 & H).
  apply bind_inv_ok in H2 as (w & r3 & H3 & H2). injection H3 as <- <-.
  apply bind_inv_ok in H2 as (w' & r4 & H4 & H2). unfold lift_result in H4.
  injection H4 as H4 <-.
  injection H2 as <- <-. injection H as <- <-.
  split; [cbn; apply lookup_insert_eq|exact H4].
Qed.

Lemma call_extend_base a b :
  exists proto, Oop.call_extend Oop.base_Class a b = Ok (class_ctor proto).
Proof. eexists. reflexivity. Qed.

Lemma set_interfaces proto v :
  Tree.set_path (class_ctor proto) ["prototype"; "cycligentInterfaces"] v
  = Ok (class_ctor (<["cycligentInterfaces" := v]> proto)).
Proof.
  rewrite set_path_cons. unfold class_ctor at 1. cbn [Tree.get_prop].
  rewrite lookup_insert_eq. cbn. unfold class_ctor. by rewrite insert_insert_eq.
Qed.

(** A class with neither parent class nor interfaces is always built. *)
Lemma class_make_plain cfg args r :
  c_extends args = None -> c_implements args = None ->
  Tree.get_prop (window r) "Class" = Ok Oop.base_Class ->
  exists proto, class_make cfg args r = (Ok (class_ctor proto), r).
Proof.
  intros Hext Himp Hclass. unfold class_make. rewrite Hext, Himp.
  unfold definitionGet. rewrite bind_ret. cbn [truthy].
  rewrite bind_assoc, bind_gets, bind_assoc, Hclass, bind_lift_ok.
  destruct (call_extend_base (VStr (c_name args)) (c_definition args)) as [proto ->].
  rewrite bind_lift_ok.
  destruct (debug_on cfg); [|by exists proto].
  rewrite andb_false_r. cbn [when]. rewrite bind_ret.
  destruct (debug_interfaces_check cfg || debug_args_check cfg).
  - rewrite bind_ret, set_interfaces, bind_lift_ok, bind_ret.
    eexists. reflexivity.
  - rewrite !bind_ret. by exists proto.
Qed.

(** ** Termination of the deferred passes *)

Section Total.

Context {S : Type}.

Lemma totally {A} (m : M S A) : total m -> forall s, (m s).1 <> OutOfFuel.
Proof. by intros [H]. Qed.

Lemma total_ret {A} (a : A) : total (@ret S A a).
Proof. by constructor. Qed.

Lemma total_throw {A} e : total (@throw S A e).
Proof. by constructor. Qed.

Lemma total_gets {A} (f : S -> A) : total (gets f).
Proof. by constructor. Qed.

Lemma total_modify (f : S -> S) : total (modify f).
Proof. by constructor. Qed.

Lemma total_lift_result {A} (r : result A) : defined r -> total (@lift_result S A r).
Proof. by constructor. Qed.

Lemma total_bind {A B} (m : M S A) (f : A -> M S B) :
  total m -> (forall a, total (f a)) -> total (bind m f).
Proof.
  intros [Hm] Hf. constructor. intros s. unfold bind. specialize (Hm s).
  destruct (m s) as [[a|e|] s']; cbn in *; [by apply totally|done..].
Qed.

Lemma total_when (b : bool) (m : M S unit) : total m -> total (when b m).
Proof. intros H. destruct b; [exact H|apply total_ret]. Qed.

Lemma total_for_each {A} (l : list A) (body : A -> M S unit) :
  (forall x, total (body x)) -> total (for_each l body).
Proof.
  intros H. induction l as [|x l IH]; cbn [for_each].
  - apply total_ret.
  - apply total_bind; [apply H|intros _; exact IH].
Qed.

Lemma total_try_catch {A} (m : M S A) (h : exn -> M S A) :
  total m -> (forall e, total (h e)) -> total (try_catch m h).
Proof.
  intros [Hm] Hh. constructor. intros s. unfold try_catch. specialize (Hm s).
  destruct (m s) as [[a|e|] s']; cbn in *; [done|by apply totally|done].
Qed.

End Total.

Lemma bind_defined {S A B} (m : M S A) (f : A -> M S B) s :
  defined (m s).1 -> (forall a, total (f a)) -> defined (bind m f s).1.
Proof.
  intros Hm Hf. unfold bind. destruct (m s) as [[a|e|] s']; cbn in *;
    [by apply totally|done..].
Qed.

Lemma total_reg {A} (m : RM A) : total m -> total (reg m).
Proof.
  intros [H]. constructor. intros s. unfold reg, zoom. specialize (H (registry s)).
  by destruct (m (registry s)).
Qed.

Lemma rbind_defined {A B} (r : result A) (f : A -> result B) :
  defined r -> (forall a, defined (f a)) -> defined (Tree.rbind r f).
Proof. intros Hr Hf. destruct r; cbn; [apply Hf|done|by destruct Hr]. Qed.

Lemma get_prop_defined v k : defined (Tree.get_prop v k).
Proof. by destruct v. Qed.

Lemma set_prop_defined v k x : defined (Tree.set_prop v k x).
Proof. by destruct v. Qed.
#[local] Hint Resolve get_prop_defined set_prop_defined : core.

Lemma get_path_defined p : forall v, defined (Tree.get_path v p).
Proof.
  induction p as [|k p IH]; intros v; cbn; [done|].
  apply rbind_defined; auto.
Qed.

Lemma set_path_defined x p : forall v, defined (Tree.set_path v p x).
Proof.
  induction p as [|k p IH]; intros v; [done|].
  destruct p as [|k' p]; [apply set_prop_defined|].
  rewrite set_path_cons. apply rbind_defined; [auto|]. intros c.
  apply rbind_defined; auto.
Qed.

Lemma materialize_defined p : forall v, defined (Tree.materialize v p).
Proof.
  induction p as [|k p IH]; intros v; cbn; [done|].
  apply rbind_defined; [auto|]. intros c. destruct (truthy c).
  - apply rbind_defined; auto.
  - apply rbind_defined; [auto|]. intros v1.
    apply rbind_defined; [auto|]. intros c1.
    apply rbind_defined; [auto|]. intros c'. destruct (truthy c1); auto. done.
Qed.

Lemma ancestors_missing_defined segs : forall v n, defined (ancestors_missing v n segs).
Proof.
  induction segs as [|k p IH]; intros v n; cbn; [done|].
  apply rbind_defined; [auto|]. intros c. destruct (truthy c); auto. done.
Qed.

Lemma call_extend_defined o a b : defined (Oop.call_extend o a b).
Proof.
  unfold Oop.call_extend. apply rbind_defined; [auto|]. intros f.
  destruct f as [| | | | | |t r m]; try done.
  destruct t; try done.
  - unfold Oop.Class_extend. apply rbind_defined; [|done].
    unfold Oop.new_object. destruct o as [| | | | | |t' r' m']; try done.
    destruct t'; try done. destruct r'; done.
  - unfold Oop.Interface_extend. apply rbind_defined; [|done].
    unfold Oop.new_object. destruct o as [| | | | | |t' r' m']; try done.
    destruct t'; try done. destruct r'; done.
Qed.
#[local] Hint Resolve get_path_defined set_path_defined materialize_defined
  ancestors_missing_defined call_extend_defined : core.

(** Decomposes a goal [total m] along the structure of [m]. *)
Ltac total_step :=
  first
    [ assumption
    | solve [auto]
    | apply total_ret
    | apply total_throw
    | apply total_gets
    | apply total_modify
    | apply total_lift_result; solve [auto]
    | apply total_reg
    | apply total_bind; [|intros ?]
    | apply total_when
    | apply total_for_each; intros ?
    | apply total_try_catch; [|intros ?]
    | match goal with |- total (if ?b then _ else _) => destruct b end
    | match goal with |- total (match ?x with _ => _ end) => destruct x end ].

Ltac totality := repeat total_step.

Lemma definitionGet_total n : total (definitionGet n).
Proof. unfold definitionGet. totality. Qed.
Lemma definitionSet_total n x : total (definitionSet n x).
Proof. unfold definitionSet. totality. Qed.
#[local] Hint Resolve definitionGet_total definitionSet_total : core.

Lemma parent_missing_total n : total (parent_missing n).
Proof. unfold parent_missing. totality. Qed.
#[local] Hint Resolve parent_missing_total : core.

Lemma classMissing_total a : total (classMissing a).
Proof. unfold classMissing. totality. Qed.
Lemma interfaceMissing_total a : total (interfaceMissing a).
Proof. unfold interfaceMissing. totality. Qed.
#[local] Hint Resolve classMissing_total interfaceMissing_total : core.

Lemma get_all_total l : total (get_all l).
Proof. induction l as [|n l IH]; cbn [get_all]; totality. Qed.
#[local] Hint Resolve get_all_total : core.

Lemma check_interface_total cfg args nc ci : total (check_interface cfg args nc ci).
Proof. unfold check_interface, check_method, console_put, console_add. totality. Qed.
#[local] Hint Resolve check_interface_total : core.

Lemma classProcess_total cfg args : total (classProcess cfg args).
Proof.
  unfold classProcess, class_name_check, class_make, class_store, console_put, console_add.
  totality.
Qed.
#[local] Hint Resolve classProcess_total : core.

#[local] Instance same_class_queue_preorder : PreOrder same_class_queue.
Proof. split; unfold same_class_queue; [intros r|intros a b c]; congruence. Qed.
#[local] Instance same_interface_queue_preorder : PreOrder same_interface_queue.
Proof. split; unfold same_interface_queue; [intros r|intros a b c]; congruence. Qed.
#[local] Instance same_definition_queue_preorder : PreOrder same_definition_queue.
Proof. split; unfold same_definition_queue; [intros r|intros a b c]; congruence. Qed.

Lemma classProcess_same_class_queue cfg args :
  preserves same_class_queue (classProcess cfg args).
Proof.
  unfold classProcess, class_name_check, class_make, class_store, check_interface,
    check_method, definitionSet, definitionGet, console_put, console_add.
  assert (Hall : forall l, preserves same_class_queue (get_all l)).
  { induction l as [|n l IH]; cbn [get_all]; unfold definitionGet; frame. }
  frame.
Qed.

Lemma live_insert_None {A} (q : list (option A)) i a :
  q !! i = Some (Some a) -> (live (<[i := None]> q) + 1 = live q)%nat.
Proof.
  revert i. induction q as [|x q IH]; intros [|i] H; try done.
  - simpl in H. injection H as ->. simpl. lia.
  - simpl in H. specialize (IH i H). destruct x; simpl; lia.
Qed.

Lemma live_shift_nulls {A} (q : list (option A)) : live (shift_nulls q) = live q.
Proof. induction q as [|[x|] q IH]; cbn; auto. Qed.

Lemma live_app {A} (q1 q2 : list (option A)) : (live (q1 ++ q2) = live q1 + live q2)%nat.
Proof. induction q1 as [|[x|] q1 IH]; cbn; auto. Qed.

Lemma live_reverse {A} (q : list (option A)) : live (reverse q) = live q.
Proof.
  induction q as [|x q IH]; [done|].
  rewrite reverse_cons, live_app, IH. destruct x; cbn; lia.
Qed.

Lemma live_compact {A} (q : list (option A)) : live (compact q) = live q.
Proof.
  unfold compact. by rewrite live_shift_nulls, live_reverse, live_shift_nulls, live_reverse.
Qed.

Lemma missing_state {A} (m : RM A) :
  preserves eq m -> forall r, exists res, m r = (res, r).
Proof. intros [H] r. specialize (H r). destruct (m r) as [res r']. cbn in H. subst. eauto. Qed.

Lemma classMissing_pure a : preserves eq (classMissing a).
Proof. unfold classMissing, parent_missing. frame. Qed.
Lemma interfaceMissing_pure a : preserves eq (interfaceMissing a).
Proof. unfold interfaceMissing, parent_missing. frame. Qed.
Lemma this_args_pure : preserves eq this_args.
Proof. unfold this_args. frame. Qed.

(** One iteration of the loop over the queue of classes takes a live
    entry off when it processes it and leaves the queue alone
    otherwise. *)
Lemma class_step_live cfg index r b r' :
  class_step cfg index r = (Ok b, r') ->
  (live (classesToProcess r') + (if b then 1 else 0) <= live (classesToProcess r))%nat.
Proof.
  unfold class_step. rewrite bind_gets.
  destruct (classesToProcess r !! index) as [[args|]|] eqn:Hq;
    try (intros H; injection H as <- <-; lia).
  destruct (missing_state _ (classMissing_pure args) r) as [res Hm].
  intros H. destruct res as [missing|e|];
    [rewrite (bind_ok _ _ _ _ _ Hm) in H
    |rewrite (bind_throw _ _ _ _ _ Hm) in H; discriminate
    |rewrite (bind_fuel _ _ _ _ Hm) in H; discriminate].
  destruct (String.eqb missing ""); [|injection H as <- <-; lia].
  pose proof (preserved _ _ (classProcess_same_class_queue cfg args) r) as Hp.
  destruct (classProcess cfg args r) as [res r1] eqn:Ep. cbn [snd] in Hp.
  destruct res as [v|e|];
    [rewrite (bind_ok _ _ _ _ _ Ep) in H
    |rewrite (bind_throw _ _ _ _ _ Ep) in H; discriminate
    |rewrite (bind_fuel _ _ _ _ Ep) in H; discriminate].
  rewrite bind_modify in H. injection H as <- <-.
  cbn. rewrite Hp. rewrite <- (live_insert_None _ index args Hq). lia.
Qed.

Lemma class_step_total cfg index : total (class_step cfg index).
Proof. unfold class_step. totality. Qed.
#[local] Hint Resolve class_step_total : core.

Lemma class_for_total cfg n : forall index seen, total (class_for cfg index n seen).
Proof. induction n as [|n IH]; intros index seen; cbn [class_for]; totality. Qed.
#[local] Hint Resolve class_for_total : core.

Lemma class_for_live cfg n : forall index seen r b r',
  class_for cfg index n seen r = (Ok b, r') ->
  (live (classesToProcess r') + (if b && negb seen then 1 else 0)
   <= live (classesToProcess r))%nat.
Proof.
  induction n as [|n IH]; intros index seen r b r' H; cbn [class_for] in H.
  - injection H as <- <-. destruct seen; cbn; lia.
  - apply bind_inv_ok in H as (s & r1 & Hs & H).
    apply class_step_live in Hs. apply IH in H.
    destruct b, seen, s; cbn in *; lia.
Qed.

Lemma class_do_total cfg fuel : forall r,
  (live (classesToProcess r) < fuel)%nat -> defined (class_do cfg fuel r).1.
Proof.
  induction fuel as [|fuel IH]; intros r Hlive; [lia|].
  cbn [class_do]. rewrite bind_gets.
  pose proof (totally _ (class_for_total cfg (length (classesToProcess r)) 0%nat false) r) as Ht.
  destruct (class_for cfg 0 (length (classesToProcess r)) false r) as [res r1] eqn:Ef.
  destruct res as [seen|e|];
    [rewrite (bind_ok _ _ _ _ _ Ef)
    |rewrite (bind_throw _ _ _ _ _ Ef); done
    |by destruct Ht].
  apply class_for_live in Ef. rewrite bind_modify.
  destruct seen; [|done].
  apply IH. cbn. rewrite live_compact. cbn in Ef. lia.
Qed.

Lemma live_le_length {A} (q : list (option A)) : (live q <= length q)%nat.
Proof. induction q as [|[x|] q IH]; cbn; lia. Qed.

(** [cycligent.classProcessDeferred] always ends. *)
Lemma classProcessDeferred_total cfg : total (classProcessDeferred cfg).
Proof.
  constructor. intros r. unfold classProcessDeferred. rewrite bind_gets.
  apply class_do_total. pose proof (live_le_length (classesToProcess r)). lia.
Qed.
#[local] Hint Resolve classProcessDeferred_total : core.

Lemma interfaceProcess_total args : total (interfaceProcess args).
Proof. unfold interfaceProcess. totality. Qed.
Lemma this_args_total : total this_args.
Proof. unfold this_args. totality. Qed.
#[local] Hint Resolve interfaceProcess_total this_args_total : core.

Lemma interfaceProcess_same_interface_queue args :
  preserves same_interface_queue (interfaceProcess args).
Proof. unfold interfaceProcess, definitionSet, definitionGet. frame. Qed.

Lemma interface_step_live index r b r' :
  interface_step index r = (Ok b, r') ->
  (live (interfacesToProcess r') + (if b then 1 else 0) <= live (interfacesToProcess r))%nat.
Proof.
  unfold interface_step. rewrite bind_gets.
  destruct (interfacesToProcess r !! index) as [[args|]|] eqn:Hq;
    try (intros H; injection H as <- <-; lia).
  destruct (missing_state _ this_args_pure r) as [res0 Ht].
  intros H. destruct res0 as [this|e|];
    [rewrite (bind_ok _ _ _ _ _ Ht) in H
    |rewrite (bind_throw _ _ _ _ _ Ht) in H; discriminate
    |rewrite (bind_fuel _ _ _ _ Ht) in H; discriminate].
  destruct (missing_state _ (interfaceMissing_pure this) r) as [res Hm].
  destruct res as [missing|e|];
    [rewrite (bind_ok _ _ _ _ _ Hm) in H
    |rewrite (bind_throw _ _ _ _ _ Hm) in H; discriminate
    |rewrite (bind_fuel _ _ _ _ Hm) in H; discriminate].
  destruct (String.eqb missing ""); [|injection H as <- <-; lia].
  pose proof (preserved _ _ (interfaceProcess_same_interface_queue this) r) as Hp.
  destruct (interfaceProcess this r) as [res r1] eqn:Ep. cbn [snd] in Hp.
  destruct res as [v|e|];
    [rewrite (bind_ok _ _ _ _ _ Ep) in H
    |rewrite (bind_throw _ _ _ _ _ Ep) in H; discriminate
    |rewrite (bind_fuel _ _ _ _ Ep) in H; discriminate].
  rewrite bind_modify in H. injection H as <- <-.
  cbn. rewrite Hp. rewrite <- (live_insert_None _ index args Hq). lia.
Qed.

Lemma interface_step_total index : total (interface_step index).
Proof. unfold interface_step. totality. Qed.
#[local] Hint Resolve interface_step_total : core.

Lemma interface_for_total n : forall index seen, total (interface_for index n seen).
Proof. induction n as [|n IH]; intros index seen; cbn [interface_for]; totality. Qed.
#[local] Hint Resolve interface_for_total : core.

Lemma interface_for_live n : forall index seen r b r',
  interface_for index n seen r = (Ok b, r') ->
  (live (interfacesToProcess r') + (if b && negb seen then 1 else 0)
   <= live (interfacesToProcess r))%nat.
Proof.
  induction n as [|n IH]; intros index seen r b r' H; cbn [interface_for] in H.
  - injection H as <- <-. destruct seen; cbn; lia.
  - apply bind_inv_ok in H as (s & r1 & Hs & H).
    apply interface_step_live in Hs. apply IH in H.
    destruct b, seen, s; cbn in *; lia.
Qed.

Lemma interface_do_total fuel : forall p r,
  (live (interfacesToProcess r) < fuel)%nat -> defined (interface_do fuel p r).1.
Proof.
  induction fuel as [|fuel IH]; intros p r Hlive; [lia|].
  cbn [interface_do]. rewrite bind_gets.
  pose proof (totally _ (interface_for_total (length (interfacesToProcess r)) 0%nat false) r) as Ht.
  destruct (interface_for 0 (length (interfacesToProcess r)) false r) as [res r1] eqn:Ef.
  destruct res as [seen|e|];
    [rewrite (bind_ok _ _ _ _ _ Ef)
    |rewrite (bind_throw _ _ _ _ _ Ef); done
    |by destruct Ht].
  apply interface_for_live in Ef. rewrite bind_modify.
  destruct seen; [|done].
  apply IH. cbn. rewrite live_compact. cbn in Ef. lia.
Qed.

(** [cycligent.interfaceProcessDeferred] always ends. *)
Lemma interfaceProcessDeferred_total cfg : total (interfaceProcessDeferred cfg).
Proof.
  constructor. intros r. unfold interfaceProcessDeferred. rewrite bind_gets.
  apply bind_defined; [|intros b; totality].
  apply interface_do_total. pose proof (live_le_length (interfacesToProcess r)). lia.
Qed.
#[local] Hint Resolve interfaceProcessDeferred_total : core.

Lemma store_definition_total d : total (store_definition d).
Proof. unfold store_definition. totality. Qed.
#[local] Hint Resolve store_definition_total : core.

Lemma definitionProcess2_total d : total (definitionProcess2 d).
Proof. unfold definitionProcess2. totality. Qed.
#[local] Hint Resolve definitionProcess2_total : core.

Lemma definitionProcess_total d : total (definitionProcess d).
Proof. unfold definitionProcess. totality. Qed.
#[local] Hint Resolve definitionProcess_total : core.

Lemma definitionMissing_total d : total (definitionMissing d).
Proof. unfold definitionMissing. totality. Qed.
#[local] Hint Resolve definitionMissing_total : core.

Lemma definitionMissing_pure d : preserves eq (definitionMissing d).
Proof. unfold definitionMissing, parent_missing. frame. Qed.

Lemma definitionProcess_same_definition_queue d :
  preserves same_definition_queue (definitionProcess d).
Proof.
  unfold definitionProcess, definitionProcess2, store_definition, definitionSet,
    definitionGet.
  frame.
Qed.

Lemma definition_for_total todo : forall kept seen, total (definition_for kept todo seen).
Proof. induction todo as [|d todo IH]; intros kept seen; cbn [definition_for]; totality. Qed.
#[local] Hint Resolve definition_for_total : core.

(** A pass over the queue of definitions that processes an entry makes
    the queue shorter. *)
Lemma definition_for_length todo : forall kept seen r b r',
  definition_for kept todo seen r = (Ok b, r') ->
  length (definitionsToProcess r) = length (kept ++ todo) ->
  (length (definitionsToProcess r') + (if b && negb seen then 1 else 0)
   <= length (definitionsToProcess r))%nat.
Proof.
  induction todo as [|d todo IH]; intros kept seen r b r' H Hlen; cbn [definition_for] in H.
  - injection H as <- <-. destruct seen; cbn; lia.
  - destruct (missing_state _ (definitionMissing_pure d) r) as [res Hm].
    destruct res as [missing|e|];
      [rewrite (bind_ok _ _ _ _ _ Hm) in H
      |rewrite (bind_throw _ _ _ _ _ Hm) in H; discriminate
      |rewrite (bind_fuel _ _ _ _ Hm) in H; discriminate].
    destruct (String.eqb missing "").
    + pose proof (preserved _ _ (definitionProcess_same_definition_queue d) r) as Hp.
      destruct (definitionProcess d r) as [res r1] eqn:Ep. cbn [snd] in Hp.
      destruct res as [v|e|];
        [rewrite (bind_ok _ _ _ _ _ Ep) in H
        |rewrite (bind_throw _ _ _ _ _ Ep) in H; discriminate
        |rewrite (bind_fuel _ _ _ _ Ep) in H; discriminate].
      rewrite bind_modify in H. apply IH in H; [|reflexivity].
      cbn in H. rewrite length_app in *. cbn in Hlen.
      destruct b, seen; cbn in *; lia.
    + apply IH in H; [exact H|]. rewrite Hlen, !length_app. cbn. lia.
Qed.

Lemma definition_do_total fuel : forall r,
  (length (definitionsToProcess r) < fuel)%nat -> defined (definition_do fuel r).1.
Proof.
  induction fuel as [|fuel IH]; intros r Hlen; [lia|].
  cbn [definition_do]. rewrite bind_gets.
  pose proof (totally _ (definition_for_total (definitionsToProcess r) [] false) r) as Ht.
  destruct (definition_for [] (definitionsToProcess r) false r) as [res r1] eqn:Ef.
  destruct res as [seen|e|];
    [rewrite (bind_ok _ _ _ _ _ Ef)
    |rewrite (bind_throw _ _ _ _ _ Ef); done
    |by destruct Ht].
  apply definition_for_length in Ef; [|reflexivity].
  destruct seen; [|done].
  apply IH. cbn in Ef. lia.
Qed.

(** [cycligent.definitionProcessDeferred] always ends. *)
Lemma definitionProcessDeferred_total : total definitionProcessDeferred.
Proof.
  constructor. intros r. unfold definitionProcessDeferred. rewrite bind_gets.
  apply definition_do_total. lia.
Qed.
#[local] Hint Resolve definitionProcessDeferred_total : core.

Lemma define_execute_total cfg : total (define_execute cfg).
Proof. unfold define_execute. totality. Qed.
#[local] Hint Resolve define_execute_total : core.

Lemma assume_definition_total d : total (assume_definition d).
Proof. unfold assume_definition. totality. Qed.
#[local] Hint Resolve assume_definition_total : core.

Lemma mainGo_total cfg : total (mainGo cfg).
Proof. unfold mainGo, call_main, call_observer, on_host, on_appLoad. totality. Qed.
#[local] Hint Resolve mainGo_total : core.

Lemma executeMain_total cfg : total (_executeMain cfg).
Proof.
  unfold _executeMain, report_interface, report_class, console_error, console_put, console_add.
  totality.
Qed.
#[local] Hint Resolve executeMain_total : core.

Lemma readyCheck_total cfg : total (readyCheck cfg).
Proof. unfold readyCheck, console_info, console_put, console_add. totality. Qed.
#[local] Hint Resolve readyCheck_total : core.

Lemma run_initialization_total cfg : total (run_initialization cfg).
Proof.
  unfold run_initialization, _createAssumedDefinitions, _allScriptsLoaded2.
  totality.
Qed.
#[local] Hint Resolve run_initialization_total : core.

Lemma imports_scriptLoaded_total cfg : total (imports_scriptLoaded cfg).
Proof.
  unfold imports_scriptLoaded, allScriptsLoaded, on_imports, on_host, on_appLoad,
    console_info, console_put, console_add.
  totality.
Qed.
#[local] Hint Resolve imports_scriptLoaded_total : core.

Lemma Import_total cfg id : total (Import cfg id).
Proof. unfold Import, new_Script, on_imports, console_info, console_put, console_add. totality. Qed.
#[local] Hint Resolve Import_total : core.

(** No step of the page runs out of fuel: the loops of the model end as
    those of the source do. *)
Lemma step_total cfg o : total (step cfg o).
Proof.
  destruct o; cbn [step].
  - unfold load, release_bias, domLoaded, on_imports, on_appLoad, console_info,
      console_put, console_add. totality.
  - totality.
  - unfold cycligent_class. totality.
  - unfold cycligent_interface. totality.
  - unfold cycligent_define. totality.
  - unfold notify, on_appLoad. totality.
  - unfold notifyClear, on_appLoad. totality.
  - unfold script_event, Script_scriptLoaded, update_script, on_imports, console_info,
      console_put, console_add. totality.
  - unfold script_event, Script_timeout, update_script, on_imports, console_error,
      console_put, console_add. totality.
  - unfold domLoaded, on_appLoad. totality.
  - unfold pageLoaded, on_appLoad. totality.
Qed.

(** ** Properties of the specification *)

(** C10. Whenever an interface is queued in [cycligent.interfacesToProcess]
    and [cycligent.name] is undefined, a run of
    [cycligent.interfaceProcessDeferred] hands [this] (the namespace object
    [cycligent]) to [interfaceMissing] instead of the queued entry, so the
    run throws a [TypeError] at [args.name.split] before it has changed
    anything: the queue is as it was, and no number of later passes
    resolves the deferred interface. *)
Theorem interfaceProcessDeferred_never_resolves (cfg : Config) (r : Registry) (a : InterfaceArgs) :
  Some a ∈ interfacesToProcess r ->
  Tree.get_path (window r) ["cycligent"; "name"] = Ok VUndefined ->
  (exists m, interfaceProcessDeferred cfg r = (Throw (TypeError m), r)) /\
  (forall n, Nat.iter n (fun r' => (interfaceProcessDeferred cfg r').2) r = r).
Proof.
  intros Hin Hname.
  pose proof (interfaceProcessDeferred_this cfg r a _ Hin (this_args_undefined_name r Hname)) as H.
  split; [eauto|].
  induction n as [|n IH]; [reflexivity|].
  rewrite Nat.iter_succ, IH. by rewrite H.
Qed.

Lemma interfaceProcessDeferred_never_resolves_witness :
  (exists m, interfaceProcessDeferred default_config K_deferred = (Throw (TypeError m), K_deferred)) /\
  (forall n, Nat.iter n (fun r' => (interfaceProcessDeferred default_config r').2) K_deferred = K_deferred).
Proof.
  apply (interfaceProcessDeferred_never_resolves default_config K_deferred K_args).
  - vm_compute. left.
  - vm_compute. reflexivity.
Defined.

(** C3 (the code throws across the registration boundary). Registering
    interface [J] that extends the registered interface [I] throws a
    [TypeError] out of [cycligent.interface]: [interfaceProcess] never
    assigns [newInterface] in its [extends] branch.  Registering [K],
    whose parent is not registered yet, returns, but the next registration
    that runs the deferred pass ([L], with no dependency) throws. *)
Theorem interface_with_extends_throws (cfg : Config) :
  let r1 := (cycligent_interface cfg I_args empty_registry).2 in
  let r2 := (cycligent_interface cfg K_args r1).2 in
  (cycligent_interface cfg I_args empty_registry).1 = Ok tt /\
  (exists m, (cycligent_interface cfg J_args r1).1 = Throw (TypeError m)) /\
  (cycligent_interface cfg K_args r1).1 = Ok tt /\
  (exists m, (cycligent_interface cfg L_args r2).1 = Throw (TypeError m)).
Proof.
  vm_compute. repeat split; eauto.
Qed.

(** C4. With interface [I] registered, registering class [C] ([extends]
    the unregistered [B], [implements I]) leaves [C] pending in the queue.
    Registering [B] afterwards first processes [B] ([C] is still pending at
    that point), and the deferred pass of that same call then resolves
    [C]: both are registered and stored, and the queue is empty. *)
Theorem deferred_class_resolved_after_parent (cfg : Config) :
  let r1 := (cycligent_interface cfg I_args empty_registry).2 in
  let r2 := (cycligent_class cfg C_spec r1).2 in
  let rB := (classProcess cfg (class_args B_spec) r2).2 in
  let r3 := (cycligent_class cfg B_spec r2).2 in
  ((cycligent_interface cfg I_args empty_registry).1 = Ok tt /\
   (cycligent_class cfg C_spec r1).1 = Ok tt /\
   classes r2 !! "C" = Some false /\
   classesToProcess r2 = [Some (class_args C_spec)] /\
   Tree.get_path (window r2) ["C"] = Ok VUndefined) /\
  (is_ok (classProcess cfg (class_args B_spec) r2).1 = true /\
   classes rB !! "B" = Some true /\
   cyName_at rB "B" = Ok (VStr "B") /\
   classes rB !! "C" = Some false /\
   classesToProcess rB = [Some (class_args C_spec)]) /\
  (classProcessDeferred cfg rB = (Ok tt, r3) /\
   (cycligent_class cfg B_spec r2).1 = Ok tt /\
   classes r3 !! "B" = Some true /\
   classes r3 !! "C" = Some true /\
   cyName_at r3 "C" = Ok (VStr "C") /\
   classesToProcess r3 = []).
Proof.
  destruct cfg as [don ? ? dac dic ? ? ? ? ? ? ? ? ? ? ? ?].
  destruct don, dac, dic; vm_compute; repeat split; reflexivity.
Qed.

(** C8 (the code loses a forced definition). With [a.b.c] and then [a.b]
    pending because [a] does not exist, the load of the last script runs
    the force-placeholder step: it gives [a.b.c] an empty object and then
    assigns the payload of [a.b] over [a.b], so that after the step the
    definition [a.b.c] has no value, although the application is started.
    The deferred pass, which the registration of [a] triggers on the same
    queue, resolves the parent first and keeps both. *)
Theorem forced_definition_overwritten :
  let pending := run default_config [OpDefine d_abc; OpDefine d_ab] loading in
  let forced := exec default_config (OpScriptLoaded "^main") pending in
  let ordered := exec default_config (OpDefine d_a) pending in
  definitionsToProcess (registry pending) = [d_abc; d_ab] /\
  (settled (host forced) = 1%nat /\
   mainCalls (host forced) = 1%nat /\
   Tree.get_path (window (registry forced)) ["a"; "b"] = Ok (VObj {["x" := VNum 1]}) /\
   Tree.get_path (window (registry forced)) ["a"; "b"; "c"] = Ok VUndefined) /\
  (definitionsToProcess (registry ordered) = [] /\
   Tree.get_path (window (registry ordered)) ["a"; "b"; "c"] = Ok (VObj ∅)).
Proof.
  vm_compute. repeat split; reflexivity.
Qed.

(** C1, as the code has it. On a page the event [allScriptsLoaded] is
    triggered only by the [load] event of a script, with the counter
    brought to zero and every requested script loaded.  A time-out
    changes neither the counter nor the request.  As long as a requested
    script has not loaded, timed out or not, the event is not triggered,
    and if it has not been triggered before [main] is not called.  With
    three requests of which two load and one times out the counter is
    one, the event has not been triggered and [main] has not been called,
    and this stays so whatever follows short of the [load] event of the
    third script. *)
Theorem settle_waits_for_every_script :
  (forall cfg ops o,
     Forall (fun o => o <> OpLoad) (ops ++ [o]) ->
     let s := run cfg ops (exec cfg OpLoad initial_state) in
     fired (exec cfg o s) = S (fired s) ->
     (exists id, o = OpScriptLoaded id) /\
     pending (exec cfg o s) = 0 /\
     (forall id sc,
        scripts (imports (exec cfg o s)) !! id = Some sc -> loaded sc = true)) /\
  (forall cfg s id,
     let s' := exec cfg (OpScriptTimeout id) s in
     pending s' = pending s /\ fired s' = fired s /\
     loaded <$> scripts (imports s') !! id = loaded <$> scripts (imports s) !! id) /\
  (forall cfg ops0 ops id sc,
     Forall (fun o => o <> OpLoad) ops0 ->
     let s := run cfg ops0 (exec cfg OpLoad initial_state) in
     scripts (imports s) !! id = Some sc -> loaded sc = false ->
     Forall (fun o => o <> OpLoad /\ o <> OpScriptLoaded id) ops ->
     fired (run cfg ops s) = fired s /\
     (fired s = 0%nat -> mainCalls (host (run cfg ops s)) = 0%nat)) /\
  (let s := run default_config two_load_one_times_out loading in
   (loaded <$> scripts (imports s) !! "^main" = Some true /\
    loaded <$> scripts (imports s) !! "app.a" = Some true /\
    loaded <$> scripts (imports s) !! "app.b" = Some false) /\
   (pending s = 1 /\ fired s = 0%nat /\ mainCalls (host s) = 0%nat /\
    last (console (registry s)) = Some (Error, [PStr "Script Import Failed: app.b"])) /\
   (forall ops,
      Forall (fun o => o <> OpLoad /\ o <> OpScriptLoaded "app.b") ops ->
      fired (run default_config ops s) = 0%nat /\
      mainCalls (host (run default_config ops s)) = 0%nat)).
Proof.
  split; [|split; [|split; [exact unloaded_script_blocks_start|]]].
  - intros cfg ops o Hops s Hf.
    split; [by apply (settle_is_a_load_event cfg o s)|].
    split; [by apply step_fired|].
    by apply (settled_only_when_all_loaded cfg ops o).
  - intros cfg s id. cbv zeta. unfold exec, step.
    destruct (script_event_cases id interval (Script_timeout id) s) as [-> | ->];
      [|done].
    destruct (Script_timeout_outstanding id s) as (_ & H1 & H2).
    split; [exact H1|]. split; [exact H2|]. apply timeout_keeps_flag.
  - cbv zeta. split; [vm_compute; repeat split; reflexivity|].
    split; [vm_compute; repeat split; reflexivity|].
    intros ops Hops.
    destruct (unloaded_script_blocks_start default_config two_load_one_times_out
                ops "app.b"
                {| scriptId := "app.b"; loaded := false; interval := false |})
      as [H1 H2]; [by repeat constructor|by vm_compute|reflexivity|exact Hops|].
    fold loading in H1, H2.
    split; [rewrite H1; by vm_compute|apply H2; by vm_compute].
Qed.

(** C1, as stated, fails: the timer of a script only logs the failure and
    does not cancel the request.  When the [load] event of the script
    that timed out arrives after all, the counter reaches zero, the event
    is triggered and [main] is called. *)
Lemma late_load_settles :
  let s := run default_config two_load_one_times_out loading in
  let late := exec default_config (OpScriptLoaded "app.b") s in
  (interval <$> scripts (imports s) !! "app.b" = Some false /\
   last (console (registry s)) = Some (Error, [PStr "Script Import Failed: app.b"]) /\
   fired s = 0%nat /\ mainCalls (host s) = 0%nat) /\
  (pending late = 0 /\ fired late = 1%nat /\ mainCalls (host late) = 1%nat) /\
  ~ (fired late = fired s /\ mainCalls (host late) = 0%nat).
Proof.
  cbv zeta. split; [vm_compute; repeat split; reflexivity|].
  split; [vm_compute; repeat split; reflexivity|].
  intros [H _]. vm_compute in H. discriminate.
Qed.

(** The slip of [interfaceProcessDeferred] costs the page its settled
    event although every request has loaded.  The start-up script is the
    only request; it registers the interface [K], whose parent is not
    registered, and then its [load] event arrives.
    [cycligent.Imports.scriptLoaded] runs the deferred passes before it
    decrements: the interface pass throws, the counter stays at one,
    [allScriptsLoaded] is never called and [main] never runs.  Without
    the deferred interface the same event settles the page. *)
Lemma settle_lost_after_all_loaded :
  let stalled := run default_config [OpInterface K_args] loading in
  let after := exec default_config (OpScriptLoaded "^main") stalled in
  let fine := exec default_config (OpScriptLoaded "^main") loading in
  (scriptsPending (imports stalled) = 1 /\
   dom (scripts (imports stalled)) = {["^main"]}) /\
  ((exists m, (step default_config (OpScriptLoaded "^main") stalled).1 = Throw (TypeError m)) /\
   loaded <$> scripts (imports after) !! "^main" = Some true /\
   scriptsPending (imports after) = 1 /\
   settled (host after) = 0%nat /\
   mainCalls (host after) = 0%nat) /\
  (scriptsPending (imports fine) = 0 /\
   settled (host fine) = 1%nat /\
   mainCalls (host fine) = 1%nat).
Proof.
  vm_compute. repeat split; eauto.
Qed.



(** C5, as the code has it. Whatever happens on the page, and however
    often the readiness check runs, [main] is called at most once,
    provided its first call returns: the latch [appLoadFinished] is set
    only after [main] has returned. *)
Theorem main_at_most_once (cfg : Config) (ops : list op) :
  main_throws cfg 0 = false ->
  (mainCalls (host (run cfg ops initial_state)) <= 1)%nat.
Proof.
  intros Hmain.
  assert (H : forall s, main_latched s -> main_latched (run cfg ops s)).
  { induction ops as [|o ops IH]; intros s Hs; [exact Hs|].
    cbn. apply IH. unfold exec.
    by apply (preserved _ _ (step_keeps_latch cfg o Hmain) s). }
  destruct (H initial_state) as [E|[E _]]; [by left| |]; rewrite E; lia.
Qed.

Lemma main_at_most_once_witness :
  main_throws default_config 0 = false /\
  (mainCalls (host (run default_config lazy_import initial_state)) <= 1)%nat.
Proof.
  split; [reflexivity|].
  apply (main_at_most_once default_config lazy_import). reflexivity.
Defined.

(** C5, as stated, fails: when [main] throws, the latch stays unset and
    the next readiness check calls [main] again. *)
Lemma main_called_twice :
  ~ (mainCalls (host (run throwing_main_config lazy_import initial_state)) <= 1)%nat.
Proof. vm_compute. lia. Qed.







(** C9, as the code has it. The name [classProcess] checks is the class's
    own name, the text after the last dot ([className_of]), not the
    leading segment.  When it does not begin with an uppercase letter the
    error is the first message [classProcess] logs, whatever happens
    next; the check throws nothing and the registration goes on: if
    [classProcess] returns, the class is recorded in [cycligent.classes]
    and, its parent namespace being an object, stored under its name; and
    it does return, with the class named, for a class that has neither
    parent class nor interfaces. *)
Theorem classProcess_uppercase_check (cfg : Config) (args : ClassArgs) (r : Registry) :
  Str.no_leading_upper (className_of (c_name args)) = true ->
  let res := (classProcess cfg args r).1 in
  let r' := (classProcess cfg args r).2 in
  (exists rest, console r' = (console r ++ uppercase_error (c_name args) :: rest)%list) /\
  (forall v, res = Ok v ->
     classes r' !! c_name args = Some true /\
     (parent_is_object r (c_name args) ->
      Tree.get_path (window r') (Str.split_dots (c_name args)) = Ok v)) /\
  (c_extends args = None -> c_implements args = None ->
   Tree.get_prop (window r) "Class" = Ok Oop.base_Class ->
   parent_is_object r (c_name args) ->
   exists v, res = Ok v /\ Tree.get_prop v "cyName" = Ok (VStr (c_name args))).
Proof.
  intros Hname. cbv zeta. unfold classProcess.
  rewrite (bind_ok _ _ _ _ _ (class_name_check_logs args r Hname)).
  set (r0 := with_console (console r ++ [uppercase_error (c_name args)]) r).
  destruct (preserved _ _ (class_make_only_logs cfg args) r0) as [t Ht].
  destruct (class_make cfg args r0) as [res1 r1] eqn:Emake. cbn [snd] in Ht.
  assert (Hw : window r1 = window r) by (by rewrite Ht).
  assert (Hc : console r1 = (console r ++ uppercase_error (c_name args) :: t)%list)
    by (rewrite Ht; cbn; by rewrite <- app_assoc).
  split; [|split].
  - destruct res1 as [nc|e|];
      [rewrite (bind_ok _ _ _ _ _ Emake)
      |rewrite (bind_throw _ _ _ _ _ Emake); eauto
      |rewrite (bind_fuel _ _ _ _ Emake); eauto].
    exists t. rewrite <- Hc. apply (preserved _ _ (class_store_same_console args nc) r1).
  - intros v Hv.
    destruct res1 as [nc|e|];
      [rewrite (bind_ok _ _ _ _ _ Emake) in Hv |- *
      |rewrite (bind_throw _ _ _ _ _ Emake) in Hv; discriminate
      |rewrite (bind_fuel _ _ _ _ Emake) in Hv; discriminate].
    destruct (class_store args nc r1) as [res2 r2] eqn:Estore. cbn [fst snd] in *. subst res2.
    destruct (class_store_ok _ _ _ _ _ Estore) as [Hcls Hset]. split; [exact Hcls|].
    intros Hpar. rewrite Hw in Hset.
    destruct (set_path_get_path v (Str.split_dots (c_name args)) (window r))
      as (w' & Hset' & Hget); [apply split_on_nonempty|exact Hpar|].
    rewrite Hset in Hset'. injection Hset' as <-. exact Hget.
  - intros Hext Himp Hclass Hpar.
    destruct (class_make_plain cfg args r0 Hext Himp Hclass) as [proto Hmk].
    rewrite Hmk in Emake. injection Emake as <- <-.
    rewrite (bind_ok _ _ _ _ _ Hmk).
    unfold class_store, definitionSet. unfold class_ctor at 1. cbn [Tree.set_prop].
    rewrite bind_lift_ok, !bind_assoc, bind_gets.
    match goal with |- context [Tree.set_path _ _ ?nc] =>
      destruct (set_path_get_path nc (Str.split_dots (c_name args)) (window r))
        as (w' & Hset & _); [apply split_on_nonempty|exact Hpar|]
    end.
    change (window r0) with (window r). rewrite !bind_assoc, Hset, bind_lift_ok.
    rewrite !bind_assoc, bind_modify, bind_ret, bind_modify.
    eexists. split; [reflexivity|]. cbn. by rewrite lookup_insert_eq.
Qed.

Lemma classProcess_uppercase_check_witness :
  let r := (cycligent_define d_App empty_registry).2 in
  let r' := (classProcess default_config (class_args widget_spec) r).2 in
  Str.no_leading_upper (className_of "App.widget") = true /\
  (exists rest, console r' = (console r ++ uppercase_error "App.widget" :: rest)%list) /\
  classes r' !! "App.widget" = Some true.
Proof.
  cbv zeta. split; [reflexivity|].
  destruct (classProcess_uppercase_check default_config (class_args widget_spec)
              (cycligent_define d_App empty_registry).2 eq_refl) as (H1 & H2 & H3).
  split; [exact H1|].
  destruct H3 as (v & Hv & _);
    [reflexivity|reflexivity|reflexivity|eexists; split; vm_compute; reflexivity|].
  exact (proj1 (H2 v Hv)).
Defined.

(** C9, as stated, fails: the class [app.Widget] has a leading segment
    that does not begin with an uppercase letter, and its registration
    logs nothing. *)
Lemma leading_segment_not_checked :
  let r := (cycligent_define d_app empty_registry).2 in
  let r' := (cycligent_class default_config Widget_spec r).2 in
  Str.no_leading_upper (hd "" (Str.split_dots (cs_name Widget_spec))) = true /\
  classes r' !! "app.Widget" = Some true /\
  ~ (exists m, (Error, m) ∈ console r').
Proof.
  cbv zeta. split; [reflexivity|]. split; [vm_compute; reflexivity|].
  intros [m H]. vm_compute in H. inversion H.
Qed.

(** * Further properties of the code *)

(** ** Resource locations *)

Section UrlFacts.

Import Text Url UrlSpec.

Lemma split_on_lacks c t : lacks c t = true -> Str.split_on c t = [t].
Proof.
  induction t as [|a t IH]; [done|]. cbn. intros H.
  apply andb_true_iff in H as [Ha Ht]. apply negb_true_iff in Ha. rewrite Ha.
  by rewrite (IH Ht).
Qed.

Lemma append_nil_l (s : string) : "" +:+ s = s.
Proof. reflexivity. Qed.

Lemma append_cons a (s t : string) : String a s +:+ t = String a (s +:+ t).
Proof. reflexivity. Qed.

Lemma append_nil_r (s : string) : s +:+ "" = s.
Proof. induction s as [|a s IH]; [done|]. by rewrite append_cons, IH. Qed.

Lemma append_assoc (s t u : string) : (s +:+ t) +:+ u = s +:+ (t +:+ u).
Proof. induction s as [|a s IH]; [done|]. by rewrite !append_cons, IH. Qed.

Lemma split_on_snoc c s t :
  lacks c t = true ->
  Str.split_on c (s +:+ String c t) = (Str.split_on c s ++ [t])%list.
Proof.
  intros Ht. induction s as [|a s IH].
  - rewrite append_nil_l. cbn. by rewrite Ascii.eqb_refl, (split_on_lacks c t Ht).
  - rewrite append_cons. cbn [Str.split_on]. rewrite IH.
    destruct (Ascii.eqb a c); [done|].
    pose proof (split_on_nonempty c s). by destruct (Str.split_on c s).
Qed.

Lemma concat_split_on c s : String.concat (String c "") (Str.split_on c s) = s.
Proof.
  induction s as [|a s IH]; [done|]. cbn [Str.split_on].
  pose proof (split_on_nonempty c s) as Hne.
  destruct (Ascii.eqb a c) eqn:E.
  - apply Ascii.eqb_eq in E as ->.
    destruct (Str.split_on c s) as [|h t]; [done|].
    cbn [String.concat] in *. by rewrite IH.
  - destruct (Str.split_on c s) as [|h t]; [done|].
    destruct t; cbn in *; by rewrite <- IH.
Qed.

Lemma known_extension_shape ext :
  ext ∈ known_extensions -> lacks "." ext = true /\ ext <> "" /\ ext <> "min".
Proof.
  unfold known_extensions. intros H.
  repeat (apply elem_of_cons in H as [->|H]; [by repeat split|]).
  by apply elem_of_nil in H.
Qed.

Lemma extension_candidate_snoc u ext :
  lacks "." ext = true -> ext <> "" ->
  extension_candidate (u +:+ "." +:+ ext) = Some ext.
Proof.
  intros Hdot Hne. unfold extension_candidate, Str.split_dots.
  change (u +:+ "." +:+ ext) with (u +:+ String "." ext).
  rewrite (split_on_snoc "." u ext Hdot), reverse_snoc.
  pose proof (split_on_nonempty "." u) as Hu.
  destruct (reverse (Str.split_on "." u)) as [|x l] eqn:E.
  - apply (f_equal reverse) in E. rewrite reverse_involutive in E. done.
  - apply String.eqb_neq in Hne. by rewrite Hne.
Qed.

Lemma length_append (s t : string) :
  String.length (s +:+ t) = (String.length s + String.length t)%nat.
Proof. induction s as [|a s IH]; [done|]. rewrite append_cons. cbn. by rewrite IH. Qed.

Lemma extensionEnsure_recognised u ext :
  ext ∈ known_extensions ->
  extensionEnsure (u +:+ "." +:+ ext) ext = u +:+ "." +:+ ext.
Proof.
  intros Hext. destruct (known_extension_shape ext Hext) as (Hdot & Hne & Hmin).
  unfold extensionEnsure. rewrite (extension_candidate_snoc u ext Hdot Hne).
  apply String.eqb_neq in Hmin. rewrite Hmin. cbn [negb andb].
  by rewrite bool_decide_eq_true_2.
Qed.

(** X1. [extensionEnsure] leaves a URL as it is when the text after its
    last dot is one of the recognised extensions, and appends the
    extension otherwise; [min] is not an extension.  With a recognised
    extension a second application changes nothing. *)
Theorem extensionEnsure_once (u ext : string) :
  ext ∈ known_extensions ->
  (extensionEnsure u ext = u \/ extensionEnsure u ext = u +:+ "." +:+ ext) /\
  (extensionEnsure u ext = u <->
   exists c, extension_candidate u = Some c /\ c ∈ known_extensions) /\
  extension_candidate (extensionEnsure u ext) <> Some "min" /\
  extensionEnsure (extensionEnsure u ext) ext = extensionEnsure u ext.
Proof.
  intros Hext. destruct (known_extension_shape ext Hext) as (Hdot & Hne & Hmin).
  assert (Hgrow : u +:+ "." +:+ ext <> u).
  { intros E. apply (f_equal String.length) in E.
    rewrite !length_append in E. cbn in E. lia. }
  assert (Hnomin : ~ "min" ∈ known_extensions).
  { intros H. destruct (known_extension_shape _ H) as (_ & _ & ?). done. }
  assert (Hsnoc : extension_candidate (u +:+ "." +:+ ext) <> Some "min").
  { rewrite (extension_candidate_snoc u ext Hdot Hne). congruence. }
  pose proof (extensionEnsure_recognised u ext Hext) as Hrec.
  assert (Hcase :
    (extensionEnsure u ext = u /\
     exists c, extension_candidate u = Some c /\ c ∈ known_extensions) \/
    (extensionEnsure u ext = u +:+ "." +:+ ext /\
     ~ exists c, extension_candidate u = Some c /\ c ∈ known_extensions)).
  { unfold extensionEnsure. destruct (extension_candidate u) as [c|] eqn:Ec.
    - destruct (negb (c =? "min")%string && bool_decide (c ∈ known_extensions)) eqn:Eb.
      + apply andb_true_iff in Eb as [_ Hc]. apply bool_decide_eq_true in Hc. eauto.
      + right. split; [done|]. intros (c' & Hc' & Hin). injection Hc' as <-.
        apply andb_false_iff in Eb as [Eb|Eb].
        * apply negb_false_iff, String.eqb_eq in Eb. by subst.
        * by apply bool_decide_eq_false in Eb.
    - right. split; [done|]. by intros (c' & Hc' & _). }
  destruct Hcase as [[E Hex]|[E Hnex]]; rewrite E.
  - split; [by left|]. split; [done|]. split; [|exact E].
    destruct Hex as (c & -> & Hc). intros [= ->]. done.
  - split; [by right|]. split; [|split; [exact Hsnoc|exact Hrec]].
    split; [done|]. intros Hex. by destruct Hnex.
Qed.

Lemma extensionEnsure_once_witness :
  "js" ∈ known_extensions /\
  extensionEnsure (extensionEnsure "//cdn/jquery.min" "js") "js" = "//cdn/jquery.min.js".
Proof.
  split; [by vm_compute; repeat constructor|].
  destruct (extensionEnsure_once "//cdn/jquery.min" "js") as (_ & _ & _ & H).
  - unfold known_extensions. repeat constructor.
  - rewrite H. reflexivity.
Defined.

Lemma plain_inv id :
  plain id = true ->
  (id =? "")%string = false /\ contains "//" id = false /\
  (first_char id =? ".")%string = false /\ (first_char id =? "^")%string = false /\
  (first_char id =? "@")%string = false /\ (first_char id =? "/")%string = false.
Proof.
  unfold plain. intros H.
  apply andb_true_iff in H as [H H3]. apply andb_true_iff in H as [H1 H2].
  apply negb_true_iff in H1, H2, H3. apply bool_decide_eq_false in H3.
  repeat split; try done; apply String.eqb_neq; intros E; apply H3; rewrite E;
    repeat constructor.
Qed.

Lemma contains_after a t id :
  String.prefix t (String a id) = false ->
  contains t (String a id) = contains t id.
Proof.
  intros H. unfold contains, indexOf. cbn [String.index]. rewrite H.
  by destruct (String.index 0 t id).
Qed.

Lemma at_slash_not_first id :
  (first_char id =? "@")%string = false ->
  match indexOf "@/" id with Some O => true | _ => false end = false.
Proof.
  destruct id as [|a id]; [done|]. unfold indexOf. cbn [first_char String.index].
  intros H. assert (Hp : String.prefix "@/" (String a id) = false).
  { change (String.prefix "@/" (String a id))
      with (if ascii_dec "@" a then String.prefix "/" id else false).
    destruct (ascii_dec "@" a) as [<-|]; [|done]. by cbn in H. }
  rewrite Hp. by destruct (String.index 0 "@/" id) as [[|n]|].
Qed.

Lemma url_plain e id ext r :
  plain id = true ->
  url e id ext r = (Ok (dotted_url e id (file_type ext)), r).
Proof.
  intros H. destruct (plain_inv id H) as (H1 & H2 & H3 & H4 & H5 & H6).
  unfold url. rewrite H1, H2, H6, (at_slash_not_first id H5). reflexivity.
Qed.

Lemma url_anchor e a id ext r :
  plain id = true -> a = "^"%char \/ a = "."%char ->
  url e (String a id) ext r = (Ok (dotted_url e (String a id) (file_type ext)), r).
Proof.
  intros H Ha. destruct (plain_inv id H) as (H1 & H2 & H3 & H4 & H5 & H6).
  unfold url.
  assert (E1 : (String a id =? "")%string = false) by done.
  assert (E2 : contains "//" (String a id) = false)
    by (rewrite contains_after; [done|by destruct Ha as [->| ->]]).
  assert (E3 : (first_char (String a id) =? "/")%string = false) by (by destruct Ha as [->| ->]).
  assert (E4 : match indexOf "@/" (String a id) with Some O => true | _ => false end = false)
    by (apply at_slash_not_first; by destruct Ha as [->| ->]).
  rewrite E1, E2, E3, E4. reflexivity.
Qed.

Lemma last_char_append (s t : string) : t <> "" -> last_char (s +:+ t) = last_char t.
Proof.
  intros Ht. induction s as [|a s IH]; [done|].
  rewrite append_cons. cbn [last_char]. rewrite IH.
  destruct (s +:+ t) eqn:E; [|done].
  apply (f_equal String.length) in E. rewrite length_append in E.
  destruct t; [done|]. cbn in E. lia.
Qed.

Lemma split_dots_head id first rest :
  Str.split_dots id = first :: rest ->
  (id =? "")%string = false -> (first_char id =? ".")%string = false -> first <> "".
Proof.
  destruct id as [|a id]; [done|]. unfold Str.split_dots. cbn [Str.split_on first_char].
  intros H _ Ha.
  destruct (Ascii.eqb a ".") eqn:E.
  - apply Ascii.eqb_eq in E as ->. done.
  - destruct (Str.split_on "." id); injection H as <- _; done.
Qed.

(** X2. A dotted name whose first element is a recognised root is resolved
    against the deploy directory and the path of that root, with or
    without the anchor [^]. *)
Theorem url_recognised_root (e : Env) (id : string) (ext : option string)
    (r : Registry) (first p : string) (rest : list string) :
  plain id = true ->
  Str.split_dots id = first :: rest ->
  roots e !! first = Some p ->
  let base := deploy (root e) +:+ p in
  let target :=
    suffixed e (file_type ext)
      (base +:+ (match rest with
                 | [] => ""
                 | _ :: _ => if ends_with_delimiter base then "" else "/"
                 end) +:+ String.concat "/" rest) in
  url e id ext r = (Ok target, r) /\
  url e ("^" +:+ id) ext r = (Ok target, r).
Proof.
  intros Hplain Hsplit Hroot base target.
  destruct (plain_inv id Hplain) as (H1 & H2 & H3 & H4 & H5 & H6).
  assert (Hbuild : forall nonRootBase,
    urlBuild e (Str.split_dots id) (deploy (root e)) nonRootBase =
    (base +:+ (match rest with
               | [] => ""
               | _ :: _ => if ends_with_delimiter base then "" else "/"
               end), rest)).
  { intros nrb. unfold urlBuild. rewrite Hsplit. cbn [hd tl]. rewrite Hroot. fold base.
    destruct rest; [by rewrite append_nil_r|].
    destruct (ends_with_delimiter base); [by rewrite append_nil_r|done]. }
  split.
  - rewrite (url_plain e id ext r Hplain). unfold dotted_url.
    rewrite H3, H4, H5, Hbuild. unfold target. by rewrite append_assoc.
  - change ("^" +:+ id) with (String "^" id).
    rewrite (url_anchor e "^" id ext r Hplain) by (by left).
    unfold dotted_url. cbn [first_char drop_first].
    change (String "^" "" =? ".")%string with false. change (String "^" "" =? "^")%string with true.
    cbv iota. rewrite Hbuild. unfold target. by rewrite append_assoc.
Qed.

(** X3. A dotted name whose first element is no recognised root is
    resolved against the directory of the current page, with or without
    the anchor [.], provided that directory does not end with a path
    delimiter and neither does the first element when others follow. *)
Theorem url_relative (e : Env) (id : string) (ext : option string)
    (r : Registry) (first : string) (rest : list string) :
  plain id = true ->
  Str.split_dots id = first :: rest ->
  roots e !! first = None ->
  first ∉ inherited_names ->
  ends_with_delimiter (here e) = false ->
  (rest = [] \/ ends_with_delimiter first = false) ->
  let target :=
    suffixed e (file_type ext) (here e +:+ "/" +:+ String.concat "/" (first :: rest)) in
  url e id ext r = (Ok target, r) /\
  url e ("." +:+ id) ext r = (Ok target, r).
Proof.
  intros Hplain Hsplit Hroot Hown Hhere Hfirst target.
  destruct (plain_inv id Hplain) as (H1 & H2 & H3 & H4 & H5 & H6).
  pose proof (split_dots_head id first rest Hsplit H1 H3) as Hne.
  split.
  - rewrite (url_plain e id ext r Hplain). unfold dotted_url.
    rewrite H3, H4, H5. unfold urlBuild. rewrite Hsplit. cbn [hd tl].
    rewrite Hroot, (bool_decide_eq_false_2 _ Hown), Hhere. unfold target. f_equal. f_equal.
    destruct rest as [|x rest]; [cbn; by rewrite append_nil_r, append_assoc|].
    destruct Hfirst as [?|Hfirst]; [done|].
    unfold ends_with_delimiter in *. rewrite (last_char_append _ first Hne).
    apply orb_false_iff in Hfirst as [-> ->]. cbn [orb String.concat].
    by rewrite !append_assoc.
  - change ("." +:+ id) with (String "." id).
    rewrite (url_anchor e "." id ext r Hplain) by (by right).
    unfold dotted_url. cbn [first_char drop_first].
    change (String "." "" =? ".")%string with true. cbv iota.
    rewrite Hsplit. unfold target. by rewrite append_assoc.
Qed.

Lemma url_recognised_root_witness :
  (url example_env "cycligent.startup.info" None empty_registry).1
    = Ok "http://www.example.com/app/lib/cycligent/startup/info.js" /\
  (url example_env "^cycligent.startup.info" None empty_registry).1
    = Ok "http://www.example.com/app/lib/cycligent/startup/info.js".
Proof.
  destruct (url_recognised_root example_env "cycligent.startup.info" None empty_registry
              "cycligent" "/app/lib/cycligent" ["startup"; "info"])
    as [H1 H2]; [reflexivity..|].
  change ("^cycligent.startup.info") with ("^" +:+ "cycligent.startup.info").
  rewrite H1, H2. split; reflexivity.
Defined.

Lemma url_relative_witness :
  (url example_env "utils" None empty_registry).1
    = Ok "http://www.example.com/app/client/utils.js" /\
  (url example_env ".utils" None empty_registry).1
    = Ok "http://www.example.com/app/client/utils.js".
Proof.
  destruct (url_relative example_env "utils" None empty_registry "utils" [])
    as [H1 H2];
    [reflexivity|reflexivity|reflexivity
    |apply (bool_decide_unpack _); vm_compute; exact I|reflexivity|by left|].
  change (".utils") with ("." +:+ "utils").
  rewrite H1, H2. split; reflexivity.
Defined.

(** X4. [pathNoFile] strips the file name of a page, the last segment when
    [.htm] occurs in it past its first character, and otherwise returns
    the path as it is; the result is never the single slash. *)
Theorem pathNoFile_strips (dir file : string) :
  lacks "/" file = true ->
  pathNoFile (dir +:+ "/" +:+ file) =
    match indexOf ".htm" file with
    | Some (S _) => if String.eqb dir "/" then "" else dir
    | _ => if String.eqb (dir +:+ "/" +:+ file) "/" then "" else dir +:+ "/" +:+ file
    end.
Proof.
  intros Hfile. unfold pathNoFile.
  change (dir +:+ "/" +:+ file) with (dir +:+ String "/" file).
  rewrite (split_on_snoc "/" dir file Hfile), last_last.
  destruct (indexOf ".htm" file) as [[|n]|].
  - rewrite <- (split_on_snoc "/" dir file Hfile). by rewrite concat_split_on.
  - by rewrite removelast_last, concat_split_on.
  - rewrite <- (split_on_snoc "/" dir file Hfile). by rewrite concat_split_on.
Qed.

Lemma pathNoFile_strips_witness :
  pathNoFile "/app/client/page.html" = "/app/client" /\
  pathNoFile "/index.html" = "" /\
  pathNoFile "/app/" = "/app/" /\
  pathNoFile "/" = "".
Proof.
  pose proof (pathNoFile_strips "/app/client" "page.html" eq_refl) as H1.
  pose proof (pathNoFile_strips "" "index.html" eq_refl) as H2.
  pose proof (pathNoFile_strips "/app" "" eq_refl) as H3.
  pose proof (pathNoFile_strips "" "" eq_refl) as H4.
  split; [exact H1|]. split; [exact H2|]. split; [exact H3|exact H4].
Defined.

End UrlFacts.

(** ** The console *)

Section ConsoleFacts.

Import Console ConsoleSpec.

Variable clock : nat -> Z.
Variable callback_throws : nat -> bool.

#[local] Instance same_but_calls_preorder : PreOrder same_but_calls.
Proof.
  split.
  - intros s. by destruct s.
  - intros a b c H1 H2. unfold same_but_calls in *. rewrite H2, H1. by destruct a.
Qed.

Lemma notify_same_but_calls m : preserves same_but_calls (notify callback_throws m).
Proof. unfold notify. frame; by destruct s. Qed.

Lemma notify_quiet m s :
  (forall f, callback_throws f = false) ->
  notify callback_throws m s =
  (Ok tt, with_calls (calls s ++ List.map (fun f => (f, m)) (notifyFunctions s)) s).
Proof.
  intros Hq. unfold notify. rewrite bind_gets.
  assert (H : forall fs s, for_each fs (fun f =>
      modify (fun s => with_calls (calls s ++ [(f, m)]) s) ;;;
      if callback_throws f then throw (Thrown "notify function") else ret tt) s
    = (Ok tt, with_calls (calls s ++ List.map (fun f => (f, m)) fs) s)).
  { clear s. induction fs as [|f fs IH]; intros s.
    - cbn. rewrite app_nil_r. by destruct s.
    - cbn [for_each List.map]. rewrite bind_assoc, bind_modify, Hq, bind_ret, IH.
      cbn. by rewrite <- app_assoc. }
  apply H.
Qed.

(** [messageAdd] once the constructor has reported what it has to:
    the message is recorded, then the notify functions are called. *)
Lemma messageAdd_with_reported report t args s s1 :
  when (bool_decide (t ∉ messageType)) (report (unknown_report t)) s = (Ok tt, s1) ->
  messageAdd_with clock callback_throws report t args s =
  notify callback_throws
    (Some {| type := t; message := text_of args; timestamp := clock (ticks s1) |})
    (recorded clock t args s1).
Proof.
  intros Hrep. unfold messageAdd_with. fold (unknown_report t).
  rewrite (bind_ok _ _ _ _ _ Hrep). unfold now.
  rewrite !bind_assoc, bind_gets, !bind_assoc, bind_modify, bind_ret, bind_modify, bind_gets.
  unfold recorded.
  cbn [messages with_messages with_ticks ticks].
  destruct (100 <? length (messages s1 ++ [_]))%nat eqn:E100; cbn [when];
    [rewrite bind_modify|rewrite bind_ret]; rewrite bind_gets;
    cbn [consoleMap with_messages with_ticks messages];
    (destruct (consoleMap s1 && bool_decide (t ∈ messageType)) eqn:Ec; cbn [when];
     [rewrite bind_modify|rewrite bind_ret]; rewrite bind_gets;
     cbn [countMap with_passed with_messages with_ticks];
     (destruct (countMap s1 !! t) as [n|] eqn:En;
      [rewrite bind_modify|rewrite bind_ret]; f_equal;
      unfold with_countMap, with_passed, with_messages, with_ticks; cbn;
      rewrite ?E100; reflexivity)).
Qed.

Lemma messageAdd_known t args s :
  t ∈ messageType ->
  messageAdd clock callback_throws t args s =
  notify callback_throws
    (Some {| type := t; message := text_of args; timestamp := clock (ticks s) |})
    (recorded clock t args s).
Proof.
  intros Ht. apply messageAdd_with_reported.
  by rewrite bool_decide_eq_false_2 by (intros H; by apply H).
Qed.

Lemma error_quiet args s :
  (forall f, callback_throws f = false) ->
  error clock callback_throws args s =
  (Ok tt,
   let s1 := recorded clock "error" args s in
   with_calls
     (calls s ++
      List.map (fun f => (f, Some {| type := "error"; message := text_of args;
                                     timestamp := clock (ticks s) |}))
               (notifyFunctions s)) s1).
Proof.
  intros Hq. unfold error.
  rewrite (messageAdd_with_reported _ "error" args s s) by done.
  by rewrite (notify_quiet _ _ Hq).
Qed.

Lemma messageAdd_unknown t args s :
  t ∉ messageType -> (forall f, callback_throws f = false) ->
  let s1 := (error clock callback_throws [VStr (unknown_report t)] s).2 in
  messageAdd clock callback_throws t args s =
  notify callback_throws
    (Some {| type := t; message := text_of args; timestamp := clock (ticks s1) |})
    (recorded clock t args s1).
Proof.
  intros Ht Hq s1. apply messageAdd_with_reported.
  rewrite (bool_decide_eq_true_2 _ Ht). cbn [when]. subst s1.
  by rewrite (error_quiet _ _ Hq).
Qed.

Lemma last100_snoc {A} (j : list A) (x : A) :
  last100 (j ++ [x]) =
  let l := (last100 j ++ [x])%list in
  if (100 <? length l)%nat then tl l else l.
Proof.
  unfold last100. cbv zeta. rewrite !length_app, length_drop. cbn [length].
  destruct (decide (length j < 100)%nat) as [Hlt|Hge].
  - replace (length j - 100)%nat with 0%nat by lia.
    replace (length j + 1 - 100)%nat with 0%nat by lia.
    rewrite !drop_0. by rewrite (proj2 (Nat.ltb_ge _ _)) by lia.
  - rewrite (proj2 (Nat.ltb_lt _ _)) by lia.
    replace (length j + 1 - 100)%nat with (S (length j - 100)) by lia.
    rewrite drop_app_le by lia.
    destruct (drop (length j - 100) j) as [|y l] eqn:E.
    + apply (f_equal length) in E. rewrite length_drop in E. cbn in E. lia.
    + cbn [tl app]. f_equal.
      replace (S (length j - 100)) with (length j - 100 + 1)%nat by lia.
      by rewrite <- drop_drop, E.
Qed.

Lemma of_type_snoc t t' text j :
  of_type t (j ++ [(t', text)]) = of_type t j + (if bool_decide (t' = t) then 1 else 0).
Proof.
  unfold of_type. rewrite filter_app, length_app, filter_cons, filter_nil.
  cbn [fst]. case_decide; case_bool_decide; try done; cbn [length]; lia.
Qed.

Lemma tallies_recorded t args s j :
  tallies s j -> tallies (recorded clock t args s) (j ++ [(t, text_of args)]).
Proof.
  intros [H1 H2]. split.
  - rewrite last100_snoc. cbv zeta. rewrite <- H1. cbn [recorded messages].
    set (m := {| type := t; message := text_of args; timestamp := clock (ticks s) |}).
    assert (E : (List.map key (messages s) ++ [(t, text_of args)])%list
                = List.map key (messages s ++ [m])) by (by rewrite map_app).
    rewrite E, length_map.
    destruct (100 <? _)%nat; [|done]. by destruct (messages s ++ [m])%list.
  - intros t'. cbn [recorded countMap]. rewrite of_type_snoc.
    destruct (countMap s !! t) as [n|] eqn:E.
    + destruct (decide (t = t')) as [<-|Hne].
      * rewrite lookup_insert_eq. rewrite H2 in E.
        case_bool_decide; [|done]. injection E as <-.
        by rewrite bool_decide_eq_true_2.
      * rewrite lookup_insert_ne by done. rewrite H2.
        rewrite (bool_decide_eq_false_2 (t = t')) by done.
        case_bool_decide; [f_equal; lia|done].
    + rewrite H2. case_bool_decide as Ht'; [|done].
      rewrite bool_decide_eq_false_2; [f_equal; lia|].
      intros <-. rewrite H2 in E. by rewrite bool_decide_eq_true_2 in E.
Qed.

Lemma tallies_with_calls c s j : tallies s j -> tallies (with_calls c s) j.
Proof. intros H. exact H. Qed.

Lemma tallies_after_notify m s j :
  tallies s j -> tallies (notify callback_throws m s).2 j.
Proof.
  intros H. pose proof (preserved _ _ (notify_same_but_calls m) s) as E.
  unfold same_but_calls in E. rewrite E. by apply tallies_with_calls.
Qed.

Lemma tallies_step o s j :
  (forall f, callback_throws f = false) \/ known_type o = true ->
  tallies s j -> tallies (exec clock callback_throws o s) (journal_step j o).
Proof.
  intros Hsafe H. unfold exec. destruct o as [t args| |f|f]; cbn [step journal_step entries].
  - destruct (decide (t ∈ messageType)) as [Ht|Ht].
    + rewrite (messageAdd_known t args s Ht), (bool_decide_eq_true_2 _ Ht).
      apply tallies_after_notify. by apply tallies_recorded.
    + destruct Hsafe as [Hq|Hk]; [|by apply bool_decide_eq_true in Hk].
      rewrite (messageAdd_unknown t args s Ht Hq), (bool_decide_eq_false_2 _ Ht).
      apply tallies_after_notify. rewrite app_assoc.
      apply tallies_recorded. rewrite (error_quiet _ _ Hq). cbn [snd].
      apply tallies_with_calls. by apply tallies_recorded.
  - unfold clear. rewrite !bind_modify. apply tallies_after_notify.
    split; [reflexivity|]. intros t.
    cbn [with_countMap with_messages countMap fold_left messageType].
    destruct (decide (t = "error")) as [->|?];
      [by rewrite lookup_insert_eq|rewrite lookup_insert_ne by done].
    destruct (decide (t = "warn")) as [->|?];
      [by rewrite lookup_insert_eq|rewrite lookup_insert_ne by done].
    destruct (decide (t = "log")) as [->|?];
      [by rewrite lookup_insert_eq|rewrite lookup_insert_ne by done].
    destruct (decide (t = "info")) as [->|?];
      [by rewrite lookup_insert_eq|rewrite lookup_insert_ne by done].
    destruct H as [_ H]. rewrite H.
    assert (Ht : t ∉ messageType)
      by (unfold messageType; rewrite !elem_of_cons, elem_of_nil;
          intros [?|[?|[?|[?|[]]]]]; done).
    by rewrite !(bool_decide_eq_false_2 _ Ht).
  - rewrite app_nil_r. unfold notify_add. cbn. by case_bool_decide.
  - rewrite app_nil_r. exact H.
Qed.

Lemma run_tallies ops s j :
  regular callback_throws ops ->
  tallies s j ->
  tallies (run clock callback_throws ops s) (fold_left journal_step ops j).
Proof.
  intros Hsafe. revert s j. induction ops as [|o ops IH]; intros s j H; [exact H|].
  cbn [run fold_left]. apply IH.
  - destruct Hsafe as [Hk|[Hq Ho]]; [left|right; split; [exact Hq|]].
    + cbn [known_types forallb] in Hk. by apply andb_true_iff in Hk as [_ ?].
    + cbn [own_types forallb] in Ho. by apply andb_true_iff in Ho as [_ ?].
  - apply tallies_step; [|exact H].
    destruct Hsafe as [Hk|[Hq _]]; [right|by left].
    cbn [known_types forallb] in Hk. by apply andb_true_iff in Hk as [? _].
Qed.

Lemma initial_tallies c : tallies (initial c) [].
Proof.
  split; [reflexivity|]. intros t. unfold initial. cbn [countMap fold_left messageType].
  destruct (decide (t = "error")) as [->|?];
    [by rewrite lookup_insert_eq|rewrite lookup_insert_ne by done].
  destruct (decide (t = "warn")) as [->|?];
    [by rewrite lookup_insert_eq|rewrite lookup_insert_ne by done].
  destruct (decide (t = "log")) as [->|?];
    [by rewrite lookup_insert_eq|rewrite lookup_insert_ne by done].
  destruct (decide (t = "info")) as [->|?];
    [by rewrite lookup_insert_eq|rewrite lookup_insert_ne by done].
  assert (Ht : t ∉ messageType)
    by (unfold messageType; rewrite !elem_of_cons, elem_of_nil;
        intros [?|[?|[?|[?|[]]]]]; done).
  by rewrite lookup_empty, (bool_decide_eq_false_2 _ Ht).
Qed.

Lemma length_last100 {A} (l : list A) :
  length (last100 l) = Nat.min (length l) 100.
Proof. unfold last100. rewrite length_drop. lia. Qed.

(** X5. The buffer [messages] is a window on what has been logged since the
    last [clear()]: it holds the last hundred messages, in order. *)
Theorem console_buffer (ops : list op) (captured : bool) :
  regular callback_throws ops ->
  let s := run clock callback_throws ops (initial captured) in
  (length (messages s) <= 100)%nat /\
  List.map key (messages s) = last100 (journal ops).
Proof.
  intros Hsafe s.
  destruct (run_tallies ops (initial captured) [] Hsafe (initial_tallies captured))
    as [H _].
  fold s in H. fold (journal ops) in H. split; [|exact H].
  rewrite <- (length_map key), H, length_last100. lia.
Qed.

(** X6. [count(type)] is the number of messages of the type logged since
    the last [clear()], those that have left the buffer included, and 0
    for a type that is not one of the four; [count()] is the length of
    the buffer. *)
Theorem console_counts (ops : list op) (captured : bool) (t : string) :
  regular callback_throws ops ->
  t ∉ inherited_names ->
  let s := run clock callback_throws ops (initial captured) in
  count (Some t) s = (if bool_decide (t ∈ messageType) then of_type t (journal ops) else 0) /\
  count None s = Z.min (Z.of_nat (length (journal ops))) 100.
Proof.
  intros Hsafe _ s.
  destruct (run_tallies ops (initial captured) [] Hsafe (initial_tallies captured))
    as [H1 H2].
  fold s in H1, H2. fold (journal ops) in H1, H2. split.
  - unfold count. rewrite H2. by case_bool_decide.
  - unfold count. rewrite <- (length_map key), H1, length_last100. lia.
Qed.

#[local] Instance same_capture_preorder : PreOrder same_capture.
Proof. split; unfold same_capture; [intros s|intros a b c]; congruence. Qed.

#[local] Instance keeps_distinct_preorder : PreOrder keeps_distinct.
Proof. split; unfold keeps_distinct; [intros s|intros a b c]; auto. Qed.

Lemma step_same_capture o : preserves same_capture (step clock callback_throws o).
Proof.
  destruct o; cbn [step];
    unfold messageAdd, messageAdd_with, error, messageAdd_with, now, clear, notify,
      notify_add, notifyClear;
    frame; by case_bool_decide.
Qed.

Lemma step_keeps_distinct o : preserves keeps_distinct (step clock callback_throws o).
Proof.
  destruct o; cbn [step];
    unfold messageAdd, messageAdd_with, error, messageAdd_with, now, clear, notify,
      notify_add, notifyClear;
    frame; intros H; try exact H.
  - cbn. case_bool_decide as Hin; [exact H|]. cbn.
    apply NoDup_app. split; [exact H|]. split; [|apply NoDup_singleton].
    intros x Hx Hx'. apply list_elem_of_singleton in Hx'. by subst.
  - cbn. by apply NoDup_filter.
Qed.

Lemma run_invariant (P : State -> State -> Prop) `{!PreOrder P} ops s :
  (forall o, preserves P (step clock callback_throws o)) ->
  P s (run clock callback_throws ops s).
Proof.
  intros H. revert s. induction ops as [|o ops IH]; intros s; [reflexivity|].
  cbn [run fold_left]. transitivity (exec clock callback_throws o s); [|apply IH].
  apply (preserved P _ (H o)).
Qed.



Lemma notify_stops (m : option Message) (pre post : list nat) (f : nat) (s : State) :
  (forall g, g ∈ pre -> callback_throws g = false) ->
  callback_throws f = true ->
  notifyFunctions s = (pre ++ f :: post)%list ->
  notify callback_throws m s =
  (Throw (Thrown "notify function"),
   with_calls (calls s ++ List.map (fun g => (g, m)) (pre ++ [f])) s).
Proof.
  intros Hpre Hf Hfs. unfold notify. rewrite bind_gets, Hfs. clear Hfs.
  revert s. induction pre as [|g pre IH]; intros s.
  - cbn [app for_each List.map]. rewrite bind_assoc, bind_modify, Hf.
    unfold bind, throw. reflexivity.
  - cbn [app for_each List.map]. rewrite bind_assoc, bind_modify.
    rewrite (Hpre g) by (by left). rewrite bind_ret, IH.
    + cbn. by rewrite <- app_assoc.
    + intros g' Hg'. apply Hpre. by right.
Qed.


End ConsoleFacts.






Section ConsoleExamples.

Import Console ConsoleSpec.

Lemma console_buffer_witness :
  List.map key (messages (run quiet_clock no_thrower session (initial true)))
  = [("error", "Unknown message type 'debug' detected in cycligent.console.");
     ("debug", "x"); ("error", "anull")].
Proof.
  destruct (console_buffer quiet_clock no_thrower session true) as [_ H].
  - right. split; [reflexivity|]. vm_compute. reflexivity.
  - rewrite H. vm_compute. reflexivity.
Defined.

Lemma console_counts_witness :
  let s := run quiet_clock no_thrower session (initial true) in
  count (Some "error") s = 2 /\ count (Some "debug") s = 0 /\ count None s = 3.
Proof.
  cbv zeta.
  assert (Hreg : regular no_thrower session)
    by (right; split; [reflexivity|vm_compute; reflexivity]).
  destruct (console_counts quiet_clock no_thrower session true "error" Hreg) as [H1 H3];
    [apply (bool_decide_unpack _); vm_compute; exact I|].
  destruct (console_counts quiet_clock no_thrower session true "debug" Hreg) as [H2 _];
    [apply (bool_decide_unpack _); vm_compute; exact I|].
  rewrite H1, H2, H3. vm_compute. repeat split; reflexivity.
Defined.




End ConsoleExamples.

(** ** Definitions stored by name *)

Lemma set_prop_other v k x v' k' :
  Tree.set_prop v k x = Ok v' -> k <> k' -> Tree.get_prop v' k' = Tree.get_prop v k'.
Proof.
  intros H Hne. destruct v; try discriminate; cbn in H; injection H as <-; cbn;
    try reflexivity; by rewrite lookup_insert_ne.
Qed.

Lemma set_path_head v k p x v' :
  Tree.set_path v (k :: p) x = Ok v' ->
  forall k', k <> k' -> Tree.get_prop v' k' = Tree.get_prop v k'.
Proof.
  intros H k' Hne. destruct p as [|k2 p].
  - by apply (set_prop_other v k x).
  - rewrite set_path_cons in H.
    destruct (Tree.get_prop v k) as [c| |]; try discriminate. cbn [Tree.rbind] in H.
    destruct (Tree.set_path c (k2 :: p) x) as [c'| |]; try discriminate.
    cbn [Tree.rbind] in H. by apply (set_prop_other v k c').
Qed.

(** An assignment through a path leaves what lies on a diverging path. *)
Lemma set_path_diverge x : forall l v v' a b p' q',
  a <> b ->
  Tree.set_path v (l ++ a :: p') x = Ok v' ->
  Tree.get_path v' (l ++ b :: q') = Tree.get_path v (l ++ b :: q').
Proof.
  induction l as [|k l IH]; intros v v' a b p' q' Hne Hset.
  - cbn [app] in *. rewrite !get_path_cons.
    by rewrite (set_path_head v a p' x v' Hset b Hne).
  - cbn [app] in *.
    destruct (l ++ a :: p')%list as [|k2 rest] eqn:E; [by destruct l|].
    rewrite set_path_cons in Hset. rewrite !get_path_cons.
    destruct v; try discriminate; cbn [Tree.get_prop Tree.rbind] in *.
    + destruct rest; discriminate.
    + destruct rest; discriminate.
    + destruct rest; discriminate.
    + destruct (Tree.set_path (default VUndefined (props !! k)) (k2 :: rest) x)
        as [c'| |] eqn:Ec; try discriminate.
      cbn in Hset. injection Hset as <-. cbn. rewrite lookup_insert_eq. cbn.
      rewrite <- E in Ec. by apply (IH _ _ a b p' q').
    + destruct (Tree.set_path (default VUndefined (props !! k)) (k2 :: rest) x)
        as [c'| |] eqn:Ec; try discriminate.
      cbn in Hset. injection Hset as <-. cbn. rewrite lookup_insert_eq. cbn.
      rewrite <- E in Ec. by apply (IH _ _ a b p' q').
Qed.

(** An assignment under [undefined] or [null] throws. *)
Lemma set_path_nullish x : forall p w par,
  p <> [] ->
  Tree.get_path w (removelast p) = Ok par -> nullish par = true ->
  exists m, Tree.set_path w p x = Throw (TypeError m).
Proof.
  induction p as [|k p IH]; intros w par Hne Hpar Hnull; [done|].
  destruct p as [|k' p].
  - cbn in Hpar. injection Hpar as <-. destruct w; try discriminate; cbn; eauto.
  - change (removelast (k :: k' :: p)) with (k :: removelast (k' :: p)) in Hpar.
    rewrite get_path_cons in Hpar. rewrite set_path_cons.
    destruct (Tree.get_prop w k) as [c|e|] eqn:Ek; try discriminate.
    cbn [Tree.rbind] in *.
    destruct (IH c par) as [m ->]; [done|exact Hpar|exact Hnull|]. cbn. eauto.
Qed.



(** ** What the deferred passes leave in the queues *)

#[local] Instance class_queue_shrinks_preorder : PreOrder class_queue_shrinks.
Proof. split; unfold class_queue_shrinks; [intros r|intros a b c]; auto. Qed.

Lemma classMissing_with_queue a q r res :
  classMissing a r = (res, r) ->
  classMissing a (with_classesToProcess q r) = (res, with_classesToProcess q r).
Proof.
  unfold classMissing, parent_missing. rewrite !bind_assoc, !bind_gets.
  cbn [window with_classesToProcess].
  destruct (ancestors_missing _ _ _) as [m|e|]; cbn; intros H; by injection H as <-.
Qed.

Lemma class_step_false cfg index r r' :
  class_step cfg index r = (Ok false, r') ->
  r' = r /\
  forall a, classesToProcess r !! index = Some (Some a) -> class_blocked r a.
Proof.
  unfold class_step. rewrite bind_gets.
  destruct (classesToProcess r !! index) as [[args|]|] eqn:Hq;
    try (intros H; injection H as <-; by split).
  destruct (missing_state _ (classMissing_pure args) r) as [res Hm].
  intros H. destruct res as [missing|e|];
    [rewrite (bind_ok _ _ _ _ _ Hm) in H
    |rewrite (bind_throw _ _ _ _ _ Hm) in H; discriminate
    |rewrite (bind_fuel _ _ _ _ Hm) in H; discriminate].
  destruct (String.eqb missing "") eqn:E.
  - destruct (classProcess cfg args r) as [res r1] eqn:Ep.
    destruct res as [v|e|];
      [rewrite (bind_ok _ _ _ _ _ Ep) in H
      |rewrite (bind_throw _ _ _ _ _ Ep) in H; discriminate
      |rewrite (bind_fuel _ _ _ _ Ep) in H; discriminate].
    rewrite bind_modify in H. discriminate.
  - injection H as <-. split; [reflexivity|].
    intros a [= <-]. exists missing. split; [exact Hm|]. by apply String.eqb_neq.
Qed.

Lemma class_for_false cfg n : forall index seen r r',
  class_for cfg index n seen r = (Ok false, r') ->
  seen = false /\ r' = r /\
  forall i a, (index <= i < index + n)%nat ->
    classesToProcess r !! i = Some (Some a) -> class_blocked r a.
Proof.
  induction n as [|n IH]; intros index seen r r' H; cbn [class_for] in H.
  - injection H as -> <-. repeat split. intros; lia.
  - apply bind_inv_ok in H as (s & r1 & Hs & H).
    apply IH in H as (Hseen & -> & Hrest).
    apply orb_false_iff in Hseen as [-> ->].
    apply class_step_false in Hs as [-> Hhere].
    repeat split. intros i a Hi Ha.
    destruct (decide (i = index)) as [->|Hne]; [by apply Hhere|].
    apply (Hrest i a); [lia|exact Ha].
Qed.

Lemma elem_of_shift_nulls {A} (q : list (option A)) x : x ∈ shift_nulls q -> x ∈ q.
Proof.
  induction q as [|[y|] q IH]; cbn; [done|done|]. intros H. right. by apply IH.
Qed.

Lemma elem_of_compact {A} (q : list (option A)) x : x ∈ compact q -> x ∈ q.
Proof.
  unfold compact. intros H.
  apply elem_of_shift_nulls in H. rewrite elem_of_reverse in H.
  by apply elem_of_shift_nulls in H; rewrite elem_of_reverse in H.
Qed.

Lemma class_do_blocked cfg fuel : forall r r',
  class_do cfg fuel r = (Ok tt, r') ->
  forall a, Some a ∈ classesToProcess r' -> class_blocked r' a.
Proof.
  induction fuel as [|fuel IH]; intros r r' H; [discriminate|].
  cbn [class_do] in H. rewrite bind_gets in H.
  apply bind_inv_ok in H as (seen & r1 & Hfor & H).
  rewrite bind_modify in H. destruct seen; [exact (IH _ _ H)|].
  injection H as <-.
  apply class_for_false in Hfor as (_ & -> & Hall).
  intros a Ha. cbn [classesToProcess with_classesToProcess] in Ha.
  apply elem_of_compact, list_elem_of_lookup in Ha as [i Hi].
  destruct (Hall i a) as (m & Hm & Hne); [|exact Hi|].
  { apply lookup_lt_Some in Hi. lia. }
  exists m. split; [|exact Hne]. by apply classMissing_with_queue.
Qed.

Lemma classProcess_class_queue_shrinks cfg args :
  preserves class_queue_shrinks (classProcess cfg args).
Proof.
  constructor. intros r a.
  pose proof (preserved _ _ (classProcess_same_class_queue cfg args) r) as H.
  unfold same_class_queue in H. by rewrite H.
Qed.

Lemma class_step_shrinks cfg index : preserves class_queue_shrinks (class_step cfg index).
Proof.
  pose proof (classProcess_class_queue_shrinks cfg).
  assert (Hm : forall a, preserves class_queue_shrinks (classMissing a)).
  { intros a. constructor. intros r.
    destruct (missing_state _ (classMissing_pure a) r) as [res ->]. reflexivity. }
  unfold class_step. frame.
  intros x Hx. cbn in Hx. apply list_elem_of_lookup in Hx as [i Hi].
  destruct (decide (i = index)) as [->|Hne].
  - apply list_lookup_insert_Some in Hi as [(_ & ? & _)|[? _]]; done.
  - rewrite list_lookup_insert_ne in Hi by done. by apply list_elem_of_lookup_2 in Hi.
Qed.

Lemma class_for_shrinks cfg n : forall index seen,
  preserves class_queue_shrinks (class_for cfg index n seen).
Proof.
  pose proof (class_step_shrinks cfg).
  induction n as [|n IH]; intros index seen; cbn [class_for]; frame.
Qed.

Lemma class_do_shrinks cfg fuel : preserves class_queue_shrinks (class_do cfg fuel).
Proof.
  pose proof (class_for_shrinks cfg).
  induction fuel as [|fuel IH]; cbn [class_do]; frame.
  intros x Hx. cbn in Hx. by apply elem_of_compact in Hx.
Qed.

(** X11. [classProcessDeferred] always ends; it brings no class into the
    queue, and when it returns every class left in the queue still
    misses a dependency: no class that could be processed is left
    behind. *)
Theorem classProcessDeferred_settles (cfg : Config) (r : Registry) :
  let res := (classProcessDeferred cfg r).1 in
  let r' := (classProcessDeferred cfg r).2 in
  res <> OutOfFuel /\
  (forall a, Some a ∈ classesToProcess r' -> Some a ∈ classesToProcess r) /\
  (res = Ok tt ->
   forall a, Some a ∈ classesToProcess r' ->
     exists m, classMissing a r' = (Ok m, r') /\ m <> "").
Proof.
  cbv zeta. split; [apply (totally _ (classProcessDeferred_total cfg))|]. split.
  - assert (H : preserves class_queue_shrinks (classProcessDeferred cfg))
      by (pose proof (class_do_shrinks cfg); unfold classProcessDeferred; frame).
    apply (preserved _ _ H r).
  - intros Hok. destruct (classProcessDeferred cfg r) as [res r'] eqn:E.
    cbn [fst snd] in *. subst res.
    unfold classProcessDeferred in E. rewrite bind_gets in E.
    apply (class_do_blocked cfg _ _ _ E).
Qed.
Lemma classProcessDeferred_settles_witness :
  let r' := (classProcessDeferred default_config waiting_classes).2 in
  classes r' !! "app.Widget" = Some true /\
  classesToProcess r' = [Some (class_args C_spec)] /\
  exists m, classMissing (class_args C_spec) r' = (Ok m, r') /\ m <> "".
Proof.
  cbv zeta.
  assert (E1 : (classProcessDeferred default_config waiting_classes).1 = Ok tt)
    by (vm_compute; reflexivity).
  assert (E2 : classesToProcess (classProcessDeferred default_config waiting_classes).2
               = [Some (class_args C_spec)])
    by (vm_compute; reflexivity).
  destruct (classProcessDeferred_settles default_config waiting_classes) as (_ & _ & H).
  split; [vm_compute; reflexivity|]. split; [exact E2|].
  apply (H E1). rewrite E2. left.
Defined.

Lemma definitionMissing_with_queue d q r res :
  definitionMissing d r = (res, r) ->
  definitionMissing d (with_definitionsToProcess q r) = (res, with_definitionsToProcess q r).
Proof.
  unfold definitionMissing, parent_missing. rewrite !bind_gets.
  cbn [window with_definitionsToProcess]. unfold lift_result.
  intros H. by injection H as <-.
Qed.

Lemma definition_for_false todo : forall kept seen r r',
  definition_for kept todo seen r = (Ok false, r') ->
  seen = false /\ r' = r /\ forall d, d ∈ todo -> definition_blocked r d.
Proof.
  induction todo as [|d todo IH]; intros kept seen r r' H; cbn [definition_for] in H.
  - injection H as -> <-. repeat split. intros d Hd. by apply elem_of_nil in Hd.
  - destruct (missing_state _ (definitionMissing_pure d) r) as [res Hm].
    destruct res as [missing|e|];
      [rewrite (bind_ok _ _ _ _ _ Hm) in H
      |rewrite (bind_throw _ _ _ _ _ Hm) in H; discriminate
      |rewrite (bind_fuel _ _ _ _ Hm) in H; discriminate].
    destruct (String.eqb missing "") eqn:E.
    + destruct (definitionProcess d r) as [res r1] eqn:Ep.
      destruct res as [v|e|];
        [rewrite (bind_ok _ _ _ _ _ Ep) in H
        |rewrite (bind_throw _ _ _ _ _ Ep) in H; discriminate
        |rewrite (bind_fuel _ _ _ _ Ep) in H; discriminate].
      rewrite bind_modify in H. by apply IH in H as [? _].
    + apply IH in H as (-> & -> & Hrest). repeat split.
      intros d' Hd'. apply elem_of_cons in Hd' as [->|Hd']; [|by apply Hrest].
      exists missing. split; [exact Hm|]. by apply String.eqb_neq.
Qed.

Lemma definition_do_blocked fuel : forall r r',
  definition_do fuel r = (Ok tt, r') ->
  forall d, d ∈ definitionsToProcess r' -> definition_blocked r' d.
Proof.
  induction fuel as [|fuel IH]; intros r r' H; [discriminate|].
  cbn [definition_do] in H. rewrite bind_gets in H.
  apply bind_inv_ok in H as (seen & r1 & Hfor & H).
  destruct seen; [exact (IH _ _ H)|].
  injection H as <-.
  by apply definition_for_false in Hfor as (_ & -> & Hall).
Qed.

Lemma definition_for_from todo : forall kept seen r,
  let r' := (definition_for kept todo seen r).2 in
  forall d, d ∈ definitionsToProcess r' ->
    d ∈ definitionsToProcess r \/ d ∈ (kept ++ todo)%list.
Proof.
  induction todo as [|d todo IH]; intros kept seen r; cbn [definition_for].
  - intros d Hd. by left.
  - cbv zeta. destruct (missing_state _ (definitionMissing_pure d) r) as [res Hm].
    destruct res as [missing|e|];
      [rewrite (bind_ok _ _ _ _ _ Hm)
      |rewrite (bind_throw _ _ _ _ _ Hm); by left
      |rewrite (bind_fuel _ _ _ _ Hm); by left].
    destruct (String.eqb missing "").
    + pose proof (preserved _ _ (definitionProcess_same_definition_queue d) r) as Hp.
      destruct (definitionProcess d r) as [res r1] eqn:Ep. cbn [snd] in Hp.
      destruct res as [v|e|];
        [rewrite (bind_ok _ _ _ _ _ Ep)
        |rewrite (bind_throw _ _ _ _ _ Ep); cbn [snd]; rewrite Hp; by left
        |rewrite (bind_fuel _ _ _ _ Ep); cbn [snd]; rewrite Hp; by left].
      rewrite bind_modify. intros d' Hd'.
      destruct (IH kept true _ d' Hd') as [H|H]; right; [cbn in H|];
        apply elem_of_app in H as [H|H]; apply elem_of_app;
        first [by left | right; by right].
    + intros d' Hd'. destruct (IH (kept ++ [d])%list seen r d' Hd') as [H|H]; [by left|].
      right. rewrite <- app_assoc in H. exact H.
Qed.

Lemma definition_do_from fuel : forall r d,
  d ∈ definitionsToProcess (definition_do fuel r).2 -> d ∈ definitionsToProcess r.
Proof.
  induction fuel as [|fuel IH]; intros r d; [done|].
  cbn [definition_do]. rewrite bind_gets.
  pose proof (definition_for_from (definitionsToProcess r) [] false r) as Hfrom.
  cbv zeta in Hfrom.
  destruct (definition_for [] (definitionsToProcess r) false r) as [res r1] eqn:Ef.
  cbn [snd] in Hfrom.
  assert (Hr1 : forall d, d ∈ definitionsToProcess r1 -> d ∈ definitionsToProcess r)
    by (intros d' Hd'; by destruct (Hfrom d' Hd')).
  destruct res as [seen|e|];
    [rewrite (bind_ok _ _ _ _ _ Ef)
    |rewrite (bind_throw _ _ _ _ _ Ef); apply Hr1
    |rewrite (bind_fuel _ _ _ _ Ef); apply Hr1].
  destruct seen; [|apply Hr1]. intros Hd. apply Hr1. by apply IH.
Qed.


(** ** Members of an extended class *)

Lemma copy_member_overriding p nx :
  Oop.copy_member p nx = <[nx.1 := overriding (p !! nx.1) nx.2]> p.
Proof. unfold Oop.copy_member, overriding. by destruct nx.2. Qed.

Lemma fold_copy_member (l : list (string * value)) : forall p k,
  NoDup l.*1 ->
  fold_left Oop.copy_member l p !! k =
    match (list_to_map l : gmap string value) !! k with
    | Some x => Some (overriding (p !! k) x)
    | None => p !! k
    end.
Proof.
  induction l as [|[k1 x1] l IH]; intros p k Hnd; [done|].
  apply NoDup_cons in Hnd as [Hk1 Hnd].
  cbn [fold_left list_to_map foldr]. rewrite (IH _ k Hnd), copy_member_overriding.
  cbn [fst snd]. destruct (decide (k1 = k)) as [<-|Hne].
  - rewrite !lookup_insert_eq.
    by rewrite (not_elem_of_list_to_map_1 _ _ Hk1).
  - by rewrite !lookup_insert_ne.
Qed.

Lemma fold_insert_member (l : list (string * value)) : forall (p : gmap string value) k,
  NoDup l.*1 ->
  fold_left (fun p nx => <[nx.1 := nx.2]> p) l p !! k =
    match (list_to_map l : gmap string value) !! k with
    | Some x => Some x
    | None => p !! k
    end.
Proof.
  induction l as [|[k1 x1] l IH]; intros p k Hnd; [done|].
  apply NoDup_cons in Hnd as [Hk1 Hnd].
  cbn [fold_left list_to_map foldr]. rewrite (IH _ k Hnd).
  cbn [fst snd]. destruct (decide (k1 = k)) as [<-|Hne].
  - rewrite !lookup_insert_eq.
    by rewrite (not_elem_of_list_to_map_1 _ _ Hk1).
  - by rewrite !lookup_insert_ne.
Qed.

(** X13. The prototype of the class [Class.extend] builds from a
    definition holds every member of the definition and, for the other
    names, the member of the parent's prototype; [cycligentClass] is the
    given name unless the definition has a member of that name; a
    function of the definition that overrides a truthy member has it as
    its [super].  [Interface.extend] does the same without [super]. *)
Theorem extend_members (this cycligentClass : value) (definition parent : gmap string value) :
  Oop.new_object this = Ok parent ->
  (exists proto,
     Oop.Class_extend this cycligentClass (VObj definition) = Ok (class_ctor proto) /\
     forall k,
       let holder := <["cycligentClass" := cycligentClass]> parent !! k in
       proto !! k = match definition !! k with
                    | Some x => Some (overriding holder x)
                    | None => holder
                    end) /\
  (exists proto,
     Oop.Interface_extend this (VObj definition) =
       Ok (VFun FInterfaceCtor VUndefined
             (<["prototype" := VObj proto]>
                (<["extend" := VFun FInterfaceExtend VUndefined ∅]> ∅))) /\
     forall k, proto !! k = match definition !! k with
                            | Some x => Some x
                            | None => parent !! k
                            end).
Proof.
  intros Hnew. split.
  - unfold Oop.Class_extend. rewrite Hnew. cbn [Tree.rbind Oop.enum_props].
    eexists. split; [reflexivity|]. intros k. cbv zeta.
    rewrite fold_copy_member by apply NoDup_fst_map_to_list.
    by rewrite list_to_map_to_list.
  - unfold Oop.Interface_extend. rewrite Hnew. cbn [Tree.rbind Oop.enum_props].
    eexists. split; [reflexivity|]. intros k.
    rewrite fold_insert_member by apply NoDup_fst_map_to_list.
    by rewrite list_to_map_to_list.
Qed.

Lemma extend_members_witness :
  exists proto,
    Oop.Class_extend shape_class (VStr "Circle") circle_definition = Ok (class_ctor proto) /\
    proto !! "init" = Some (VFun FOpaque VUndefined ∅) /\
    proto !! "draw" = Some (VFun FOpaque (VNum 2)
                              {["super" := VFun FOpaque (VNum 1) ∅]}) /\
    proto !! "size" = Some (VNum 3) /\
    proto !! "cycligentClass" = Some (VStr "Circle").
Proof.
  destruct (extend_members shape_class (VStr "Circle")
              {["draw" := VFun FOpaque (VNum 2) ∅; "size" := VNum 3]}
              {["init" := VFun FOpaque VUndefined ∅; "draw" := VFun FOpaque (VNum 1) ∅]})
    as [(proto & H1 & H2) _]; [vm_compute; reflexivity|].
  exists proto. split; [exact H1|].
  rewrite !H2. vm_compute. repeat split; reflexivity.
Defined.

(** ** [main] waits for the three conditions *)

#[local] Instance same_flags_preorder : PreOrder same_flags.
Proof.
  split.
  - intros s. by repeat split.
  - intros a b c (? & ? & ?) (? & ? & ?). repeat split; congruence.
Qed.

#[local] Instance keeps_flags_preorder : PreOrder keeps_flags.
Proof.
  split.
  - intros s. by repeat split.
  - intros a b c (? & ? & ?) (? & ? & ?). repeat split; auto.
Qed.

Lemma keeps_flags_all_ready s s' :
  keeps_flags s s' -> all_ready (appLoad s) = true -> all_ready (appLoad s') = true.
Proof.
  intros (H1 & H2 & H3) H. unfold all_ready in *.
  apply andb_true_iff in H as [H Hp]. apply andb_true_iff in H as [Hs Hd].
  by rewrite (H1 Hs), (H2 Hd), (H3 Hp).
Qed.

#[local] Instance started_ready_preorder : PreOrder started_ready.
Proof.
  split.
  - intros s. split; [reflexivity|by left].
  - intros a b c [H1 H2] [H3 H4]. split; [by transitivity b|].
    destruct H4 as [H4|H4]; [|by right].
    destruct H2 as [H2|H2]; [left; congruence|right].
    by apply (keeps_flags_all_ready b c).
Qed.

#[local] Instance same_dom_preorder : PreOrder same_dom.
Proof. split; unfold same_dom; [intros s|intros a b c]; congruence. Qed.

#[local] Instance same_page_preorder : PreOrder same_page.
Proof. split; unfold same_page; [intros s|intros a b c]; congruence. Qed.

Lemma same_flags_keeps s s' : same_flags s s' -> keeps_flags s s'.
Proof. intros (H1 & H2 & H3). unfold keeps_flags. rewrite H1, H2, H3. auto. Qed.

Lemma started_ready_same s s' :
  same_flags s s' -> mainCalls (host s') = mainCalls (host s) -> started_ready s s'.
Proof. intros H1 H2. split; [by apply same_flags_keeps|by left]. Qed.

Lemma mainGo_same_flags cfg : preserves same_flags (mainGo cfg).
Proof.
  unfold mainGo, call_main, call_observer, on_host, on_appLoad.
  frame; by repeat split.
Qed.

Lemma readyCheck_same_flags cfg : preserves same_flags (readyCheck cfg).
Proof.
  apply readyCheck_preserves; [apply _|by repeat split|apply mainGo_same_flags].
Qed.

Lemma readyCheck_started_ready cfg : preserves started_ready (readyCheck cfg).
Proof.
  constructor. intros s.
  pose proof (preserved _ _ (readyCheck_same_flags cfg) s) as Hf.
  destruct (all_ready (appLoad s)) eqn:Hr.
  - split; [by apply same_flags_keeps|right].
    apply (keeps_flags_all_ready s); [by apply same_flags_keeps|exact Hr].
  - apply started_ready_same; [exact Hf|].
    unfold readyCheck. rewrite bind_gets. unfold all_ready in Hr. rewrite Hr.
    match goal with |- context [bind (when ?b ?m) ?f s] =>
      destruct b; cbn [when]
    end.
    + match goal with |- context [bind (reg ?m) ?f s] =>
        destruct (reg_shape m s) as (res & r & E)
      end.
      destruct res as [[]|e|];
        [rewrite (bind_ok _ _ _ _ _ E)|rewrite (bind_throw _ _ _ _ _ E)
        |rewrite (bind_fuel _ _ _ _ E)]; reflexivity.
    + rewrite bind_ret. reflexivity.
Qed.

Lemma step_started_ready cfg o : preserves started_ready (step cfg o).
Proof.
  destruct o;
    try (apply step_preserves;
         first [apply _ | apply readyCheck_started_ready | done
               | intros; apply started_ready_same; [by repeat split|reflexivity]
               | intros; split; [by repeat split|by left]]).
  - cbn [step]. unfold notify, on_appLoad. frame.
    apply started_ready_same; [|reflexivity]. cbn. by case_bool_decide.
  - cbn [step]. unfold notifyClear, on_appLoad. frame.
    by apply started_ready_same.
Qed.

Lemma mainGo_same_dom cfg : preserves same_dom (mainGo cfg).
Proof. unfold mainGo, call_main, call_observer, on_host, on_appLoad. frame. Qed.

Lemma mainGo_same_page cfg : preserves same_page (mainGo cfg).
Proof. unfold mainGo, call_main, call_observer, on_host, on_appLoad. frame. Qed.

Lemma readyCheck_same_dom cfg : preserves same_dom (readyCheck cfg).
Proof. apply readyCheck_preserves; [apply _|done|apply mainGo_same_dom]. Qed.

Lemma readyCheck_same_page cfg : preserves same_page (readyCheck cfg).
Proof. apply readyCheck_preserves; [apply _|done|apply mainGo_same_page]. Qed.

(** Outside the test structure, on a page that waits for the DOM, the
    flag [domReady] is set by the event only. *)
Lemma step_same_dom cfg o :
  test cfg = None -> waitFor_dom cfg = true -> document_complete cfg = false ->
  o <> OpDomLoaded -> preserves same_dom (step cfg o).
Proof.
  intros Ht Hw Hc Ho.
  pose proof (readyCheck_same_dom cfg) as Hrc.
  assert (Hreg : forall s r, same_dom s (with_registry r s)) by done.
  destruct o; try done; cbn [step];
    unfold load, in_test, imports_disabled, release_bias, Import, new_Script, notify,
      notifyClear, script_event, Script_scriptLoaded, Script_timeout, imports_scriptLoaded,
      allScriptsLoaded, run_initialization, _createAssumedDefinitions, _allScriptsLoaded2,
      pageLoaded, update_script, on_imports, on_host, on_appLoad;
    rewrite ?Ht, ?Hw, ?Hc; cbn [negb andb when];
    frame; try done.
  cbn. by case_bool_decide.
Qed.

Lemma step_same_page cfg o :
  test cfg = None -> waitFor_page cfg = true ->
  o <> OpPageLoaded -> preserves same_page (step cfg o).
Proof.
  intros Ht Hw Ho.
  pose proof (readyCheck_same_page cfg) as Hrc.
  assert (Hreg : forall s r, same_page s (with_registry r s)) by done.
  destruct o; try done; cbn [step];
    unfold load, in_test, imports_disabled, release_bias, Import, new_Script, notify,
      notifyClear, script_event, Script_scriptLoaded, Script_timeout, imports_scriptLoaded,
      allScriptsLoaded, run_initialization, _createAssumedDefinitions, _allScriptsLoaded2,
      domLoaded, update_script, on_imports, on_host, on_appLoad;
    rewrite ?Ht, ?Hw; cbn [negb andb when];
    frame; try done.
  cbn. by case_bool_decide.
Qed.

Lemma run_selected cfg (P : State -> State -> Prop) `{!PreOrder P}
    (allowed : op -> Prop) ops s :
  (forall o, allowed o -> preserves P (step cfg o)) ->
  Forall allowed ops -> P s (run cfg ops s).
Proof.
  intros H Hops. revert s. induction Hops as [|o ops Ho _ IH]; intros s; [reflexivity|].
  change (run cfg (o :: ops) s) with (run cfg ops (exec cfg o s)).
  transitivity (exec cfg o s); [apply (preserved P _ (H o Ho))|apply IH].
Qed.

(** X14. [main] is called only when the scripts have settled, the DOM is
    ready and the page is ready, as far as the configuration waits for
    them: whatever happens, once [main] has been called the three flags
    are set, and on a page that waits for the DOM (for the page) [main]
    is not called before the event has been delivered. *)
Theorem main_only_when_ready (cfg : Config) (ops : list op) :
  let s := run cfg ops initial_state in
  ((1 <= mainCalls (host s))%nat -> all_ready (appLoad s) = true) /\
  (waitFor_dom cfg = true -> document_complete cfg = false ->
   Forall (fun o => o <> OpDomLoaded) ops -> mainCalls (host s) = 0%nat) /\
  (waitFor_page cfg = true ->
   Forall (fun o => o <> OpPageLoaded) ops -> mainCalls (host s) = 0%nat).
Proof.
  cbv zeta.
  destruct (run_preserved cfg started_ready ops initial_state (step_started_ready cfg))
    as [_ Hs].
  pose proof (run_preserved cfg (main_outside_test cfg) ops initial_state
                (step_main_outside_test cfg)) as Ht.
  assert (Hcalled : (1 <= mainCalls (host (run cfg ops initial_state)))%nat ->
                    all_ready (appLoad (run cfg ops initial_state)) = true).
  { intros H. destruct Hs as [Hs|Hs]; [|exact Hs]. rewrite Hs in H. cbn in H. lia. }
  split; [exact Hcalled|]. split.
  - intros Hw Hc Hops. destruct (test cfg) as [t|] eqn:Etest; [apply Ht; by rewrite Etest|].
    pose proof (run_selected cfg same_dom (fun o => o <> OpDomLoaded) ops initial_state
                  (fun o => step_same_dom cfg o Etest Hw Hc) Hops) as Hd.
    unfold same_dom in Hd. cbn in Hd.
    destruct Hs as [Hs|Hs]; [by rewrite Hs|].
    unfold all_ready in Hs. rewrite Hd in Hs.
    destruct (scriptsReady _); discriminate.
  - intros Hw Hops. destruct (test cfg) as [t|] eqn:Etest; [apply Ht; by rewrite Etest|].
    pose proof (run_selected cfg same_page (fun o => o <> OpPageLoaded) ops initial_state
                  (fun o => step_same_page cfg o Etest Hw) Hops) as Hd.
    unfold same_page in Hd. cbn in Hd.
    destruct Hs as [Hs|Hs]; [by rewrite Hs|].
    unfold all_ready in Hs. rewrite Hd in Hs.
    destruct (scriptsReady _), (domReady _); discriminate.
Qed.
Lemma main_only_when_ready_witness :
  let s := run waiting_config dom_missing initial_state in
  ready s = true /\ pageReady (appLoad s) = true /\ mainCalls (host s) = 0%nat.
Proof.
  cbv zeta.
  destruct (main_only_when_ready waiting_config dom_missing) as (_ & H & _).
  split; [vm_compute; reflexivity|]. split; [vm_compute; reflexivity|].
  apply H; [reflexivity|reflexivity|repeat constructor; discriminate].
Defined.

(** ** The start of the application *)

Lemma triple_bind {S A B} (Pre Mid Post : S -> Prop) (m : M S A) (f : A -> M S B) :
  triple Pre m Mid -> (forall a, triple Mid (f a) Post) -> triple Pre (bind m f) Post.
Proof.
  intros Hm Hf s b s' Hpre H. apply bind_inv_ok in H as (a & s1 & H1 & H2).
  by apply (Hf a s1 b s'); [apply (Hm s a s1)|].
Qed.

Lemma triple_preserves {S A} (R : S -> S -> Prop) (Pre Post : S -> Prop) (m : M S A) :
  preserves R m -> (forall s s', Pre s -> R s s' -> Post s') -> triple Pre m Post.
Proof.
  intros [Hm] H s a s' Hpre E. apply (H s s' Hpre). specialize (Hm s). by rewrite E in Hm.
Qed.

Lemma all_return_run cfg (Inv : State -> Prop) ops : forall s,
  (forall o, o ∈ ops -> triple Inv (step cfg o) Inv) ->
  all_return cfg ops s = true -> Inv s -> Inv (run cfg ops s).
Proof.
  induction ops as [|o ops IH]; intros s Hstep Hret Hinv; [exact Hinv|].
  cbn [all_return] in Hret. apply andb_true_iff in Hret as [Ho Hret].
  change (run cfg (o :: ops) s) with (run cfg ops (exec cfg o s)).
  apply IH; [intros o' Ho'; apply Hstep; by right|exact Hret|].
  unfold exec. destruct (step cfg o s) as [[[]|e|] s1] eqn:E; try discriminate.
  apply (Hstep o ltac:(left) s tt s1 Hinv E).
Qed.

(** *** The counter on a page where nothing throws *)

Lemma imports_scriptLoaded_returns cfg s :
  is_ok (imports_scriptLoaded cfg s).1 = true ->
  pending (imports_scriptLoaded cfg s).2 = pending s - 1.
Proof.
  unfold imports_scriptLoaded.
  destruct (reg_shape (classProcessDeferred cfg) s) as (res1 & r1 & E1).
  destruct res1 as [[]|e|];
    [rewrite (bind_ok _ _ _ _ _ E1)
    |rewrite (bind_throw _ _ _ _ _ E1); discriminate
    |rewrite (bind_fuel _ _ _ _ E1); discriminate].
  destruct (reg_shape (interfaceProcessDeferred cfg) (with_registry r1 s)) as (res2 & r2 & E2).
  destruct res2 as [[]|e|];
    [rewrite (bind_ok _ _ _ _ _ E2)
    |rewrite (bind_throw _ _ _ _ _ E2); discriminate
    |rewrite (bind_fuel _ _ _ _ E2); discriminate].
  intros _. unfold on_imports. rewrite bind_modify, bind_gets.
  cbn [imports with_imports with_registry scriptsPending].
  fold (pending s).
  destruct (pending s - 1 =? 0) eqn:E; [|reflexivity].
  match goal with |- context [allScriptsLoaded cfg ?s0] =>
    destruct (allScriptsLoaded_count cfg s0) as [H1 _]; rewrite H1
  end.
  reflexivity.
Qed.

Lemma Script_scriptLoaded_returns cfg id s :
  is_ok (Script_scriptLoaded cfg id s).1 = true ->
  pending (Script_scriptLoaded cfg id s).2 = pending s - 1.
Proof.
  unfold Script_scriptLoaded, update_script, on_imports.
  rewrite !bind_modify.
  match goal with |- context [bind (when ?b ?m) ?f ?s0] =>
    assert (E : exists r, bind (when b m) f s0 = f tt (with_registry r s0))
  end.
  { destruct (debug_scripts cfg); cbn [when].
    - unfold reg, zoom, console_info, console_put, console_add, modify, bind. cbn. eauto.
    - unfold bind, ret. eexists (registry _). destruct s; reflexivity. }
  destruct E as [r E]. rewrite E. intros H.
  by rewrite (imports_scriptLoaded_returns cfg _ H).
Qed.

Lemma step_returns_slack cfg o s :
  o <> OpLoad -> is_ok (step cfg o s).1 = true -> slack (exec cfg o s) = slack s.
Proof.
  intros Hload Hok.
  pose proof (quiet_steps cfg o s) as H.
  destruct o; try done;
    try (unfold slack, pending, outstanding, unloaded; by rewrite (proj1 H)).
  - unfold exec, step. by rewrite Import_slack.
  - revert Hok. unfold exec, step, script_event. rewrite bind_gets.
    destruct (scripts (imports s) !! id) as [sc|] eqn:Hsc; [|reflexivity].
    destruct (loaded sc) eqn:Hl; [reflexivity|]. cbn [negb]. intros Hok.
    unfold slack. rewrite (Script_scriptLoaded_outstanding cfg id sc s Hsc Hl).
    rewrite (Script_scriptLoaded_returns cfg id s Hok). lia.
  - unfold exec, step.
    destruct (script_event_cases id interval (Script_timeout id) s) as [-> | ->];
      [|reflexivity].
    destruct (Script_timeout_outstanding id s) as (H1 & H2 & _).
    unfold slack. by rewrite H1, H2.
Qed.

Lemma load_returns_slack cfg s :
  imports_disabled cfg = false ->
  is_ok (load cfg s).1 = true -> slack (load cfg s).2 = - outstanding s.
Proof.
  intros Hd. unfold load, on_imports. rewrite bind_modify. cbv beta.
  set (s0 := with_imports (new_Imports (scripts (imports s))) s).
  assert (H0 : slack s0 = 1 - outstanding s) by reflexivity.
  match goal with |- context [bind ?m ?f s0] =>
    assert (H : preserves same_loader m) by (unfold on_appLoad; frame);
    destruct (preserved _ _ H s0) as [H1 _];
    destruct (m s0) as [res1 s1] eqn:E1
  end.
  cbn [snd] in H1.
  assert (Hs1 : slack s1 = slack s0)
    by (unfold slack, pending, outstanding, unloaded; by rewrite H1).
  destruct res1 as [[]|e|];
    [rewrite (bind_ok _ _ _ _ _ E1)
    |rewrite (bind_throw _ _ _ _ _ E1); discriminate
    |rewrite (bind_fuel _ _ _ _ E1); discriminate].
  match goal with |- context [bind ?m ?f s1] =>
    assert (H' : preserves same_loader m) by (unfold on_appLoad; frame);
    destruct (preserved _ _ H' s1) as [H3 _];
    destruct (m s1) as [res2 s2] eqn:E2
  end.
  cbn [snd] in H3.
  assert (Hs2 : slack s2 = slack s1)
    by (unfold slack, pending, outstanding, unloaded; by rewrite H3).
  destruct res2 as [[]|e|];
    [rewrite (bind_ok _ _ _ _ _ E2)
    |rewrite (bind_throw _ _ _ _ _ E2); discriminate
    |rewrite (bind_fuel _ _ _ _ E2); discriminate].
  rewrite Hd. cbn [negb]. intros _.
  unfold release_bias, on_imports. rewrite bind_modify, Import_slack.
  unfold slack, pending, outstanding, unloaded in *.
  cbn [imports with_imports scripts scriptsPending]. lia.
Qed.

(** Until the event [allScriptsLoaded] the counter holds a unit. *)
Lemma step_waiting_unit cfg o s :
  o <> OpLoad ->
  (fired s = 0%nat -> 1 <= pending s) ->
  fired (exec cfg o s) = 0%nat -> 1 <= pending (exec cfg o s).
Proof.
  intros Hload Hinv Hf.
  pose proof (other_steps_count cfg o s) as H.
  destruct o; try done;
    try (rewrite (proj1 H); apply Hinv; by rewrite <- (proj2 H)).
  - destruct (Import_count cfg id s) as [H1 H2]. unfold exec, step in *.
    rewrite H1 in Hf. specialize (Hinv Hf). rewrite H2.
    destruct (imports_disabled cfg); [exact Hinv|].
    destruct (scripts (imports s) !! id); lia.
  - destruct (scriptLoaded_step_count cfg id s) as (Hp & Hfi & Hiff).
    cbv zeta in *. destruct Hfi as [Hfi|Hfi]; [|lia].
    rewrite Hfi in Hf. specialize (Hinv Hf).
    destruct Hp as [Hp|Hp]; [lia|].
    destruct (decide (pending (exec cfg (OpScriptLoaded id) s) = 0)) as [Hz|Hz]; [|lia].
    destruct Hiff as [_ Hiff]. rewrite Hiff in Hfi by (by split). lia.
Qed.

#[local] Instance settle_sets_ready_preorder : PreOrder settle_sets_ready.
Proof.
  split.
  - intros s. split; [intros H; exact H|by left].
  - intros a b c [H1 H2] [H3 H4]. split; [intros H; auto|].
    destruct H4 as [H4|H4]; [|by right].
    destruct H2 as [H2|H2]; [left; congruence|right; auto].
Qed.

Lemma settle_sets_ready_same s s' :
  appLoad s' = appLoad s -> host s' = host s -> settle_sets_ready s s'.
Proof.
  intros H1 H2. unfold settle_sets_ready, keeps_ready, ready, fired. rewrite H1, H2.
  split; [intros H; exact H|by left].
Qed.

Lemma readyCheck_keeps_ready cfg : preserves keeps_ready (readyCheck cfg).
Proof.
  apply readyCheck_preserves; [apply _|by intros s r H|apply mainGo_keeps_ready].
Qed.

Lemma mainGo_settle_sets_ready cfg : preserves settle_sets_ready (mainGo cfg).
Proof.
  unfold mainGo, call_main, call_observer, on_host, on_appLoad.
  frame; (split; [intros H; exact H|by left]).
Qed.

Lemma readyCheck_settle_sets_ready cfg : preserves settle_sets_ready (readyCheck cfg).
Proof.
  apply readyCheck_preserves;
    [apply _|intros; by apply settle_sets_ready_same|apply mainGo_settle_sets_ready].
Qed.

Lemma allScriptsLoaded_sets_ready cfg : preserves settle_sets_ready (allScriptsLoaded cfg).
Proof.
  constructor. intros s.
  assert (Hk : preserves keeps_ready (allScriptsLoaded cfg)).
  { apply allScriptsLoaded_preserves;
      first [apply _ | apply readyCheck_keeps_ready
            | intros; intros Hr; first [exact Hr|reflexivity]]. }
  split; [apply (preserved _ _ Hk s)|right].
  unfold allScriptsLoaded, on_host. rewrite bind_modify, bind_gets.
  match goal with |- context [bind (when ?b ?m) ?f ?s0] =>
    assert (E : exists r, bind (when b m) f s0 = f tt (with_registry r s0))
  end.
  { destruct (debug_scripts cfg); cbn [when].
    - unfold reg, zoom, console_put, console_add, modify, bind. cbn. eauto.
    - unfold bind, ret. eexists (registry _). destruct s; reflexivity. }
  destruct E as [r ->]. unfold on_appLoad. rewrite bind_modify.
  match goal with |- ready (?m ?s0).2 = true =>
    assert (Hrest : preserves keeps_ready m);
    [|apply (preserved _ _ Hrest s0); reflexivity]
  end.
  pose proof (readyCheck_keeps_ready cfg).
  assert (preserves keeps_ready (run_initialization cfg)).
  { apply run_initialization_preserves;
      first [apply _ | apply readyCheck_keeps_ready
            | intros; intros Hr; first [exact Hr|reflexivity]]. }
  frame. intros Hr; exact Hr.
Qed.

Lemma step_settle_sets_ready cfg o : preserves settle_sets_ready (step cfg o).
Proof.
  pose proof (readyCheck_settle_sets_ready cfg) as Hrc.
  pose proof (allScriptsLoaded_sets_ready cfg) as Hall.
  assert (Hreg : forall s r, settle_sets_ready s (with_registry r s))
    by (intros; by apply settle_sets_ready_same).
  assert (Hkeep : forall s a,
            (scriptsReady (appLoad s) = true -> scriptsReady a = true) ->
            settle_sets_ready s (with_appLoad a s))
    by (intros s a H; split; [exact H|by left]).
  assert (Himp : forall s i, settle_sets_ready s (with_imports i s))
    by (intros; by apply settle_sets_ready_same).
  assert (Hinit : preserves settle_sets_ready (run_initialization cfg)).
  { apply run_initialization_preserves;
      first [apply _ | exact Hrc | exact Hreg
            | intros; apply Hkeep; intros Hr; exact Hr]. }
  destruct o; cbn [step];
    unfold load, release_bias, Import, new_Script, notify, notifyClear, script_event,
      Script_scriptLoaded, Script_timeout, imports_scriptLoaded, domLoaded, pageLoaded,
      update_script, on_imports, on_appLoad;
    frame;
    try (apply Hkeep; cbn; intros Hr; first [exact Hr|reflexivity]).
  apply Hkeep. cbn. by case_bool_decide.
Qed.

Lemma fired_sets_ready cfg ops :
  let s := run cfg ops initial_state in
  (1 <= fired s)%nat -> ready s = true.
Proof.
  cbv zeta. intros Hf.
  destruct (run_preserved cfg settle_sets_ready ops initial_state
              (step_settle_sets_ready cfg)) as [_ [H|H]]; [|exact H].
  rewrite H in Hf. cbn in Hf. lia.
Qed.
Lemma all_loaded_outstanding s :
  (forall id sc, scripts (imports s) !! id = Some sc -> loaded sc = true) ->
  outstanding s = 0.
Proof.
  intros H. unfold outstanding, unloaded.
  assert (E : filter (fun kv : string * Script => loaded kv.2 = false) (scripts (imports s)) = ∅).
  { apply map_empty_filter_2. intros id sc Hsc. cbn. by rewrite (H id sc Hsc). }
  by rewrite E, map_size_empty.
Qed.

(** X15. On a page where no call and no handler throws, the counter
    [scriptsPending] is the number of requested scripts that have not
    loaded, so that once every requested script has loaded the event
    [allScriptsLoaded] has been triggered and the flag [scriptsReady] is
    set. *)
Theorem start_after_last_script (cfg : Config) (ops : list op) :
  imports_disabled cfg = false ->
  Forall (fun o => o <> OpLoad) ops ->
  all_return cfg (OpLoad :: ops) initial_state = true ->
  let s := run cfg ops (exec cfg OpLoad initial_state) in
  pending s = outstanding s /\
  ((forall id sc, scripts (imports s) !! id = Some sc -> loaded sc = true) ->
   (1 <= fired s)%nat /\ ready s = true).
Proof.
  intros Hd Hops Hret s.
  cbn [all_return] in Hret. apply andb_true_iff in Hret as [Hload Hret].
  set (Inv := fun s : State => slack s = 0 /\ ((fired s = 0)%nat -> 1 <= pending s)).
  assert (Hinv : Inv s).
  { apply (all_return_run cfg Inv ops); [|exact Hret|].
    - intros o Ho. rewrite Forall_forall in Hops. specialize (Hops o Ho).
      intros s0 [] s1 [H1 H2] E.
      assert (Hs1 : s1 = exec cfg o s0) by (unfold exec; by rewrite E).
      assert (Hok : is_ok (step cfg o s0).1 = true) by (by rewrite E).
      subst s1. split.
      + by rewrite (step_returns_slack cfg o s0 Hops Hok).
      + by apply step_waiting_unit.
    - split.
      + unfold exec, step. by rewrite (load_returns_slack cfg initial_state Hd Hload).
      + intros _. destruct (load_count cfg initial_state) as [_ [H|[_ [sc H]]]].
        * unfold exec, step. rewrite H. lia.
        * cbn in H. by rewrite lookup_empty in H. }
  destruct Hinv as [Hslack Hunit]. unfold slack in Hslack.
  split; [lia|]. intros Hall.
  pose proof (all_loaded_outstanding s Hall) as Hz.
  assert (Hf : (1 <= fired s)%nat).
  { destruct (fired s) as [|n] eqn:E; [|lia]. specialize (Hunit eq_refl). lia. }
  split; [exact Hf|].
  apply (fired_sets_ready cfg (OpLoad :: ops)). exact Hf.
Qed.

Lemma start_after_last_script_witness :
  let s := run default_config two_scripts (exec default_config OpLoad initial_state) in
  pending s = outstanding s /\ (1 <= fired s)%nat /\ ready s = true.
Proof.
  cbv zeta.
  destruct (start_after_last_script default_config two_scripts) as [H1 H2];
    [reflexivity|repeat constructor; discriminate|vm_compute; reflexivity|].
  split; [exact H1|]. apply H2.
  intros id sc H.
  assert (E : scripts (imports (run default_config two_scripts
                (exec default_config OpLoad initial_state)))
              = {["^main" := {| scriptId := "^main"; loaded := true; interval := false |};
                  "app.a" := {| scriptId := "app.a"; loaded := true; interval := false |}]})
    by (vm_compute; reflexivity).
  rewrite E in H.
  apply lookup_insert_Some in H as [[_ <-]|[_ H]]; [reflexivity|].
  apply lookup_singleton_Some in H as [_ <-]. reflexivity.
Defined.

#[local] Instance keeps_call_preorder : PreOrder keeps_call.
Proof. split; unfold keeps_call; [intros s|intros a b c]; auto. Qed.

#[local] Instance same_start_preorder : PreOrder same_start.
Proof.
  split.
  - intros s. by repeat split.
  - intros a b c (H1 & H2 & H3) (H4 & H5 & H6).
    split; [by transitivity b|]. split; congruence.
Qed.

Lemma same_start_keeps s s' :
  same_start s s' -> (latched_after_call s -> latched_after_call s') /\ (started s -> started s').
Proof.
  intros ((H1 & H2 & H3) & H4 & H5).
  unfold latched_after_call, started, all_ready. rewrite H1, H2, H3, H4, H5. auto.
Qed.

Lemma keeps_call_same s s' :
  appLoadFinished (appLoad s') = appLoadFinished (appLoad s) ->
  mainCalls (host s') = mainCalls (host s) -> keeps_call s s'.
Proof. intros H1 H2. unfold keeps_call, latched_after_call. by rewrite H1, H2. Qed.

Lemma mainGo_at_least cfg s :
  test cfg = None -> latched_after_call s -> (1 <= mainCalls (host (mainGo cfg s).2))%nat.
Proof.
  intros Ht Hl. destruct (appLoadFinished (appLoad s)) eqn:Hf.
  - rewrite mainGo_skips_main by (by right). by apply Hl.
  - destruct (mainGo_calls_main cfg s Ht Hf) as [H _]. rewrite H. lia.
Qed.

Lemma mainGo_keeps_call cfg : test cfg = None -> preserves keeps_call (mainGo cfg).
Proof.
  intros Ht. constructor. intros s Hl _. by apply mainGo_at_least.
Qed.

Lemma readyCheck_keeps_call cfg : test cfg = None -> preserves keeps_call (readyCheck cfg).
Proof.
  intros Ht. apply readyCheck_preserves;
    [apply _|intros; by apply keeps_call_same|by apply mainGo_keeps_call].
Qed.

Lemma step_keeps_call cfg o : test cfg = None -> preserves keeps_call (step cfg o).
Proof.
  intros Ht.
  destruct o;
    try (apply step_preserves;
         first [apply _ | by apply readyCheck_keeps_call | done
               | intros; by apply keeps_call_same]).
  - cbn [step]. unfold notify, on_appLoad. frame.
    apply keeps_call_same; [|reflexivity]. cbn. by case_bool_decide.
  - cbn [step]. unfold notifyClear, on_appLoad. frame. by apply keeps_call_same.
Qed.

(** When [_executeMain] returns, [main] has been called. *)
Lemma executeMain_calls cfg :
  test cfg = None ->
  triple latched_after_call (_executeMain cfg) (fun s => (1 <= mainCalls (host s))%nat).
Proof.
  intros Ht s [] s' Hl.
  assert (Hgo : forall r r', (1 <= mainCalls (host (mainGo cfg (with_registry r' (with_registry r s))).2))%nat)
    by (intros r r'; by apply mainGo_at_least).
  unfold _executeMain. rewrite bind_gets. intros H.
  apply bind_inv_ok in H as ([] & s1 & H1 & H).
  destruct (reg_shape (for_each (interfacesToProcess (registry s)) report_interface) s)
    as (res1 & r1 & E1).
  rewrite E1 in H1. injection H1 as _ <-.
  rewrite bind_gets in H.
  apply bind_inv_ok in H as ([] & s2 & H2 & H).
  match type of H2 with reg ?m ?s0 = _ => destruct (reg_shape m s0) as (res2 & r2 & E2) end.
  rewrite E2 in H2. injection H2 as _ <-.
  specialize (Hgo r1 r2).
  destruct (debug_doNotCatchAllExceptionsOnLocalHost cfg && hostname_is_local cfg).
  - by rewrite H in Hgo.
  - unfold try_catch in H.
    destruct (mainGo cfg (with_registry r2 (with_registry r1 s))) as [[[]|e|] s3];
      cbn [snd] in Hgo.
    + by injection H as <-.
    + match type of H with reg ?m ?s0 = _ => destruct (reg_shape m s0) as (res3 & r3 & E3) end.
      rewrite E3 in H. by injection H as _ <-.
    + discriminate.
Qed.

(** When [readyCheck] returns, [main] has been called if the three
    conditions are met. *)
Lemma readyCheck_starts cfg :
  test cfg = None -> triple latched_after_call (readyCheck cfg) started.
Proof.
  intros Ht s [] s' Hl H.
  pose proof (preserved _ _ (readyCheck_same_flags cfg) s) as Hf.
  rewrite H in Hf. cbn [snd] in Hf.
  intros Hready.
  assert (Hr : all_ready (appLoad s) = true).
  { destruct Hf as (H1 & H2 & H3). unfold all_ready in *. by rewrite <- H1, <- H2, <- H3. }
  revert H. unfold readyCheck. rewrite bind_gets. unfold all_ready in Hr. rewrite Hr.
  intros H.
  apply bind_inv_ok in H as ([] & s1 & H1 & H).
  assert (Hs1 : exists r, s1 = with_registry r s).
  { revert H1. match goal with |- when ?b (reg ?m) s = _ -> _ =>
      destruct b; cbn [when]; [destruct (reg_shape m s) as (res & r & ->)|]
    end.
    - intros [= _ <-]. eauto.
    - intros [= <-]. exists (registry s). by destruct s. }
  destruct Hs1 as [r ->].
  apply bind_inv_ok in H as ([] & s2 & H2 & H).
  assert (Hs2 : exists r', s2 = with_registry r' s).
  { revert H2. match goal with |- when ?b (reg ?m) ?s0 = _ -> _ =>
      destruct b; cbn [when]; [destruct (reg_shape m s0) as (res & r' & ->)|]
    end.
    - intros [= _ <-]. eauto.
    - intros [= <-]. eauto. }
  destruct Hs2 as [r' ->].
  apply bind_inv_ok in H as ([] & s3 & H3 & H).
  assert (Hs3 : exists r'', s3 = with_registry r'' s).
  { revert H3. match goal with |- when ?b (reg ?m) ?s0 = _ -> _ =>
      destruct b; cbn [when]; [destruct (reg_shape m s0) as (res & r'' & ->)|]
    end.
    - intros [= _ <-]. eauto.
    - intros [= <-]. eauto. }
  destruct Hs3 as [r'' ->].
  by apply (executeMain_calls cfg Ht _ tt s' (Hl : latched_after_call (with_registry r'' s))).
Qed.
Lemma checked_seq cfg {A B} (m : SM A) (f : A -> SM B) :
  test cfg = None ->
  preserves keeps_call m ->
  (forall a, triple latched_after_call (f a) started) ->
  triple latched_after_call (bind m f) started.
Proof.
  intros _ Hm Hf. apply (triple_bind _ latched_after_call); [|exact Hf].
  apply (triple_preserves keeps_call); [exact Hm|]. intros s s' Hl H. by apply H.
Qed.

Ltac quiet_call :=
  solve [ frame; intros; apply keeps_call_same; reflexivity ].

Ltac checked cfg Ht :=
  repeat first
    [ assumption
    | apply (checked_seq cfg); [exact Ht|quiet_call|intros ?]
    | match goal with |- triple _ (match ?x with _ => _ end) _ => destruct x end ].

Lemma run_initialization_starts cfg :
  test cfg = None -> triple latched_after_call (run_initialization cfg) started.
Proof.
  intros Ht. pose proof (readyCheck_starts cfg Ht) as Hrc.
  assert (Hreg : forall s r, keeps_call s (with_registry r s))
    by (intros; by apply keeps_call_same).
  unfold run_initialization, _createAssumedDefinitions, _allScriptsLoaded2.
  checked cfg Ht.
Qed.

Lemma allScriptsLoaded_starts cfg :
  test cfg = None -> triple latched_after_call (allScriptsLoaded cfg) started.
Proof.
  intros Ht. pose proof (run_initialization_starts cfg Ht) as Hinit.
  assert (Hreg : forall s r, keeps_call s (with_registry r s))
    by (intros; by apply keeps_call_same).
  unfold allScriptsLoaded, on_host, on_appLoad.
  checked cfg Ht.
Qed.

Lemma domLoaded_starts cfg :
  test cfg = None -> triple latched_after_call (domLoaded cfg) started.
Proof.
  intros Ht. pose proof (readyCheck_starts cfg Ht) as Hrc.
  unfold domLoaded, on_appLoad. checked cfg Ht.
Qed.

Lemma pageLoaded_starts cfg :
  test cfg = None -> triple latched_after_call (pageLoaded cfg) started.
Proof.
  intros Ht. pose proof (readyCheck_starts cfg Ht) as Hrc.
  unfold pageLoaded, on_appLoad. checked cfg Ht.
Qed.

Lemma kept_seq {A B} (m : SM A) (f : A -> SM B) :
  preserves same_start m ->
  (forall a, triple (fun s => latched_after_call s /\ started s) (f a) started) ->
  triple (fun s => latched_after_call s /\ started s) (bind m f) started.
Proof.
  intros Hm Hf.
  apply (triple_bind _ (fun s => latched_after_call s /\ started s)); [|exact Hf].
  apply (triple_preserves same_start); [exact Hm|].
  intros s s' [Hl Hs] H. destruct (same_start_keeps s s' H) as [H1 H2]. auto.
Qed.

Lemma same_start_same s s' :
  appLoad s' = appLoad s -> host s' = host s -> same_start s s'.
Proof. intros H1 H2. unfold same_start, same_flags. by rewrite H1, H2. Qed.

Ltac quiet_start :=
  solve [ frame; intros; apply same_start_same; reflexivity ].

Lemma kept_same {A} (m : SM A) :
  preserves same_start m ->
  triple (fun s => latched_after_call s /\ started s) m started.
Proof.
  intros Hm. apply (triple_preserves same_start); [exact Hm|].
  intros s s' [Hl Hs] H. by apply (same_start_keeps s s' H).
Qed.

Lemma step_starts cfg o :
  test cfg = None -> o <> OpLoad ->
  triple (fun s => latched_after_call s /\ started s) (step cfg o)
         (fun s => latched_after_call s /\ started s).
Proof.
  intros Ht Ho s [] s' [Hl Hs] E.
  split.
  { pose proof (preserved _ _ (step_keeps_call cfg o Ht) s) as H.
    rewrite E in H. by apply H. }
  assert (Hreg : forall s r, same_start s (with_registry r s))
    by (intros; by apply same_start_same).
  assert (Hgoal : triple (fun s => latched_after_call s /\ started s) (step cfg o) started).
  { assert (Hweak : forall m : SM unit,
              triple latched_after_call m started ->
              triple (fun s => latched_after_call s /\ started s) m started)
      by (intros m Hm s0 a s1 [H0 _]; by apply Hm).
    destruct o; try done; cbn [step].
    - apply kept_same. unfold Import, new_Script, on_imports. quiet_start.
    - apply kept_same, preserves_reg; [apply _|exact Hreg].
    - apply kept_same, preserves_reg; [apply _|exact Hreg].
    - apply kept_same, preserves_reg; [apply _|exact Hreg].
    - apply kept_same. unfold notify, on_appLoad. frame.
      unfold same_start, same_flags. cbn. by case_bool_decide.
    - apply kept_same. unfold notifyClear, on_appLoad. frame.
      by repeat split.
    - unfold script_event, Script_scriptLoaded, imports_scriptLoaded, update_script,
        on_imports.
      apply kept_seq; [quiet_start|intros i].
      destruct (scripts i !! id) as [sc|]; [|apply kept_same; quiet_start].
      destruct (negb (loaded sc)); [|apply kept_same; quiet_start].
      repeat (apply kept_seq; [quiet_start|intros ?]).
      match goal with |- triple _ (if ?b then _ else _) _ => destruct b end.
      + by apply Hweak, allScriptsLoaded_starts.
      + apply kept_same; quiet_start.
    - apply kept_same. unfold script_event, Script_timeout, update_script, on_imports.
      quiet_start.
    - by apply Hweak, domLoaded_starts.
    - by apply Hweak, pageLoaded_starts. }
  by apply (Hgoal s tt s').
Qed.

(** X16. On a page outside the test structure where no call and no
    handler throws, [main] has been called exactly when the scripts have
    settled, the DOM is ready and the page is ready. *)
Theorem main_called_when_ready (cfg : Config) (ops : list op) :
  test cfg = None ->
  Forall (fun o => o <> OpLoad) ops ->
  all_return cfg (OpLoad :: ops) initial_state = true ->
  let s := run cfg ops (exec cfg OpLoad initial_state) in
  all_ready (appLoad s) = true <-> (1 <= mainCalls (host s))%nat.
Proof.
  intros Ht Hops Hret s. split.
  - cbn [all_return] in Hret. apply andb_true_iff in Hret as [_ Hret].
    assert (Hinv : latched_after_call s /\ started s); [|by destruct Hinv].
    apply (all_return_run cfg (fun s => latched_after_call s /\ started s) ops);
      [|exact Hret|].
    + intros o Ho. rewrite Forall_forall in Hops. by apply step_starts, Hops.
    + split.
      * apply (preserved _ _ (step_keeps_call cfg OpLoad Ht) initial_state).
        intros H. discriminate.
      * intros Hr.
        destruct (preserved _ _ (step_ready_by_event cfg OpLoad) initial_state) as [_ H].
        destruct (load_count cfg initial_state) as [Hf _].
        unfold all_ready in Hr. apply andb_true_iff in Hr as [Hr _].
        apply andb_true_iff in Hr as [Hr _].
        unfold exec in Hr. unfold ready in H. cbn [step] in H, Hr.
        destruct H as [H|[H|H]].
        -- rewrite Hr in H. discriminate.
        -- rewrite Hf in H. cbn in H. lia.
        -- unfold imports_disabled in H. rewrite Ht in H. discriminate.
  - intros Hcalled.
    destruct (run_preserved cfg started_ready (OpLoad :: ops) initial_state
                (step_started_ready cfg)) as [_ [H|H]]; [|exact H].
    change (run cfg (OpLoad :: ops) initial_state) with s in H.
    rewrite H in Hcalled. cbn in Hcalled. lia.
Qed.

Lemma main_called_when_ready_witness :
  let s := run waiting_config [OpDomLoaded; OpScriptLoaded "^main"; OpPageLoaded]
             (exec waiting_config OpLoad initial_state) in
  all_ready (appLoad s) = true /\ mainCalls (host s) = 1%nat.
Proof.
  cbv zeta.
  destruct (main_called_when_ready waiting_config
              [OpDomLoaded; OpScriptLoaded "^main"; OpPageLoaded]) as [H _];
    [reflexivity|repeat constructor; discriminate|vm_compute; reflexivity|].
  split; [vm_compute; reflexivity|].
  assert (Hr : all_ready (appLoad (run waiting_config
                 [OpDomLoaded; OpScriptLoaded "^main"; OpPageLoaded]
                 (exec waiting_config OpLoad initial_state))) = true)
    by (vm_compute; reflexivity).
  specialize (H Hr).
  assert (Hle : (mainCalls (host (run waiting_config
                   [OpDomLoaded; OpScriptLoaded "^main"; OpPageLoaded]
                   (exec waiting_config OpLoad initial_state))) <= 1)%nat)
    by (vm_compute; lia).
  lia.
Defined.

(** ** The test structure *)

#[local] Instance keeps_no_scripts_preorder : PreOrder keeps_no_scripts.
Proof. split; unfold keeps_no_scripts; [intros s|intros a b c]; auto. Qed.

Lemma keeps_no_scripts_same s s' :
  imports s' = imports s -> keeps_no_scripts s s'.
Proof. intros H. unfold keeps_no_scripts. by rewrite H. Qed.

Lemma mainGo_keeps_no_scripts cfg : preserves keeps_no_scripts (mainGo cfg).
Proof.
  unfold mainGo, call_main, call_observer, on_host, on_appLoad.
  frame; by apply keeps_no_scripts_same.
Qed.

Lemma step_keeps_no_scripts cfg o :
  imports_disabled cfg = true -> preserves keeps_no_scripts (step cfg o).
Proof.
  intros Hd.
  assert (Hreg : forall s r, keeps_no_scripts s (with_registry r s))
    by (intros; by apply keeps_no_scripts_same).
  assert (Happ : forall s a, keeps_no_scripts s (with_appLoad a s))
    by (intros; by apply keeps_no_scripts_same).
  assert (Hrc : preserves keeps_no_scripts (readyCheck cfg))
    by (apply readyCheck_preserves; [apply _|exact Hreg|apply mainGo_keeps_no_scripts]).
  assert (Hinit : preserves keeps_no_scripts (run_initialization cfg))
    by (apply run_initialization_preserves; first [apply _|exact Hrc|exact Hreg|intros; apply Happ]).
  destruct o; cbn [step].
  - unfold load, domLoaded, on_imports, on_appLoad. rewrite Hd. cbn [negb]. frame.
    intros Hs. exact Hs.
  - unfold Import. rewrite Hd. frame.
  - frame.
  - frame.
  - frame.
  - unfold notify, on_appLoad. frame.
  - unfold notifyClear, on_appLoad. frame.
  - constructor. intros s Hs. unfold script_event. by rewrite bind_gets, Hs, lookup_empty.
  - constructor. intros s Hs. unfold script_event. by rewrite bind_gets, Hs, lookup_empty.
  - unfold domLoaded, on_appLoad. frame.
  - unfold pageLoaded, on_appLoad. frame.
Qed.

Lemma load_test_ready cfg t s :
  test cfg = Some t -> doImports t = false ->
  all_ready (appLoad (load cfg s).2) = true.
Proof.
  intros Ht Hi. unfold load, in_test, imports_disabled, on_imports, on_appLoad.
  rewrite Ht, Hi. cbn [negb andb]. rewrite !bind_modify.
  match goal with |- all_ready (appLoad (?m ?s0).2) = true =>
    assert (Hrest : preserves keeps_flags m);
    [|apply (keeps_flags_all_ready s0 _ (preserved _ _ Hrest s0)); reflexivity]
  end.
  assert (Hreg : forall s r, keeps_flags s (with_registry r s)) by (by repeat split).
  assert (Hrc : preserves keeps_flags (readyCheck cfg)).
  { constructor. intros s1. apply same_flags_keeps.
    apply (preserved _ _ (readyCheck_same_flags cfg)). }
  assert (Hinit : preserves keeps_flags (run_initialization cfg)).
  { apply run_initialization_preserves;
      first [apply _|exact Hrc|exact Hreg|intros; repeat split; intros Hf; first [exact Hf|reflexivity]]. }
  frame.
Qed.

(** X17. Under the test structure [main] is never called.  When the
    structure switches the imports off, no script is ever requested and
    [load] itself meets the three conditions of the start, without
    waiting for the DOM or the page. *)
Theorem test_structure_never_starts (cfg : Config) (ops : list op) (t : Test) :
  test cfg = Some t ->
  let s := run cfg ops initial_state in
  mainCalls (host s) = 0%nat /\
  (doImports t = false ->
   scripts (imports s) = ∅ /\
   (OpLoad ∈ ops -> all_ready (appLoad s) = true)).
Proof.
  intros Ht s. split.
  - apply (run_preserved cfg (main_outside_test cfg) ops initial_state
             (step_main_outside_test cfg)).
    by rewrite Ht.
  - intros Hi.
    assert (Hd : imports_disabled cfg = true)
      by (unfold imports_disabled; by rewrite Ht, Hi).
    split.
    + by apply (run_preserved cfg keeps_no_scripts ops initial_state
                  (fun o => step_keeps_no_scripts cfg o Hd)).
    + intros Hin. apply list_elem_of_split in Hin as (l1 & l2 & ->).
      unfold s. rewrite run_cat.
      change (run cfg (OpLoad :: l2) (run cfg l1 initial_state))
        with (run cfg l2 (exec cfg OpLoad (run cfg l1 initial_state))).
      destruct (run_preserved cfg started_ready l2
                  (exec cfg OpLoad (run cfg l1 initial_state))
                  (step_started_ready cfg)) as [Hk _].
      apply (keeps_flags_all_ready _ _ Hk).
      by apply (load_test_ready cfg t).
Qed.

Lemma test_structure_never_starts_witness :
  let s := run scaffold_config [OpImport "app.a"; OpLoad; OpDomLoaded] initial_state in
  mainCalls (host s) = 0%nat /\ scripts (imports s) = ∅ /\ all_ready (appLoad s) = true.
Proof.
  cbv zeta.
  destruct (test_structure_never_starts scaffold_config
              [OpImport "app.a"; OpLoad; OpDomLoaded] {| doImports := false |} eq_refl)
    as [H1 H2].
  destruct (H2 eq_refl) as [H3 H4].
  split; [exact H1|]. split; [exact H3|]. apply H4. by right; left.
Defined.

(** ** The argument normaliser *)

Section ArgsFacts.

Import Args.

Variable inherited : value -> string -> value.

Lemma fill_ext (f g : nat -> string -> value) (spec : Spec) : forall i out,
  (forall j k d, spec !! j = Some (k, d) -> f (i + j)%nat k = g (i + j)%nat k) ->
  fill f i spec out = fill g i spec out.
Proof.
  induction spec as [|[k d] spec IH]; intros i out H; [done|].
  cbn [fill]. pose proof (H 0%nat k d eq_refl) as E.
  rewrite Nat.add_0_r in E. rewrite E.
  apply IH. intros j k' d' Hj.
  replace (S i + j)%nat with (i + S j)%nat by lia. by apply (H (S j) k' d').
Qed.

Lemma fill_lookup_other (f : nat -> string -> value) (spec : Spec) : forall i out k,
  k ∉ spec.*1 -> fill f i spec out !! k = out !! k.
Proof.
  induction spec as [|[k1 d1] spec IH]; intros i out k Hk; [done|].
  cbn [fill]. cbn in Hk. apply not_elem_of_cons in Hk as [Hne Hk].
  rewrite (IH _ _ _ Hk). by rewrite lookup_insert_ne.
Qed.

Lemma fill_lookup (f : nat -> string -> value) (spec : Spec) : forall i out j k d,
  NoDup spec.*1 -> spec !! j = Some (k, d) ->
  fill f i spec out !! k
  = Some (if is_undefined (f (i + j)%nat k) then d else f (i + j)%nat k).
Proof.
  induction spec as [|[k1 d1] spec IH]; intros i out j k d Hnd Hj; [done|].
  cbn in Hnd. apply NoDup_cons in Hnd as [Hk1 Hnd]. cbn [fill].
  destruct j as [|j].
  - injection Hj as -> ->. rewrite Nat.add_0_r.
    rewrite (fill_lookup_other _ _ _ _ _ Hk1). by rewrite lookup_insert_eq.
  - cbn in Hj. replace (i + S j)%nat with (S i + j)%nat by lia.
    by apply IH.
Qed.

(** X18. What [cycligent.args] returns has the arguments of the
    specification and no other property: an argument that was not
    supplied, or was supplied as [undefined], has its default value, and
    any other value, [null] included, is kept. *)
Theorem args_fills_spec (argsIn : list value) (spec : Spec) :
  NoDup spec.*1 ->
  let argsOut := args inherited argsIn spec in
  (forall i k d, spec !! i = Some (k, d) ->
     argsOut !! k =
       Some (let v := supplied inherited (is_map inherited argsIn spec) argsIn i k in
             if is_undefined v then d else v)) /\
  (forall k, k ∉ spec.*1 -> argsOut !! k = None).
Proof.
  intros Hnd argsOut. split.
  - intros i k d Hi. unfold argsOut, args. by rewrite (fill_lookup _ _ 0 ∅ i k d Hnd Hi).
  - intros k Hk. unfold argsOut, args. by rewrite fill_lookup_other.
Qed.

(** X19. A call with a map gives what the call with the same values in
    the positions of the specification gives, when the map supplies at
    least one argument and the positional call has not exactly one
    argument.  A lone object that has none of the arguments as a
    property is not taken as a map: it is the first argument. *)
Theorem args_map_or_positional (spec : Spec) (m : gmap string value) :
  (forall i k d, spec !! i = Some (k, d) -> inherited (VObj m) k = VUndefined) ->
  (forall vs,
     length vs <> 1%nat ->
     is_map inherited [VObj m] spec = true ->
     (forall i k d, spec !! i = Some (k, d) ->
        default VUndefined (m !! k) = default VUndefined (vs !! i)) ->
     args inherited [VObj m] spec = args inherited vs spec) /\
  (is_map inherited [VObj m] spec = false ->
   args inherited [VObj m] spec = args inherited [VObj m; VUndefined] spec).
Proof.
  intros Hown. split.
  - intros vs Hlen Hmap Hsame. unfold args. rewrite Hmap.
    assert (Hpos : is_map inherited vs spec = false) by (by destruct vs as [|? [|? ?]]).
    rewrite Hpos. apply fill_ext. intros j k d Hj. cbn.
    rewrite <- (Hsame j k d Hj). destruct (m !! k) eqn:E; [done|].
    by apply (Hown j k d).
  - intros Hmap. unfold args. rewrite Hmap. apply fill_ext.
    intros j k d Hj. cbn. by destruct j as [|[|j]].
Qed.

End ArgsFacts.

Section ArgsExamples.

Import Args.

Lemma args_fills_spec_witness :
  let argsOut := args nothing_inherited [VStr "started"; VUndefined; VNull; VNum 5; VNum 6] tracerMessageArgs in
  argsOut !! "message" = Some (VStr "started") /\
  argsOut !! "type" = Some (VNum 1) /\
  argsOut !! "category" = Some VNull /\
  argsOut !! "ex" = Some (VNum 5) /\
  argsOut !! "extra" = None.
Proof.
  cbv zeta.
  destruct (args_fills_spec nothing_inherited [VStr "started"; VUndefined; VNull; VNum 5; VNum 6]
              tracerMessageArgs) as [H1 H2].
  { apply (bool_decide_unpack _). vm_compute. exact I. }
  rewrite (H1 0%nat "message" VUndefined eq_refl), (H1 1%nat "type" (VNum 1) eq_refl),
    (H1 2%nat "category" (VStr "") eq_refl), (H1 3%nat "ex" VUndefined eq_refl).
  rewrite H2 by (apply (bool_decide_unpack _); vm_compute; exact I).
  repeat split; reflexivity.
Defined.

Lemma args_map_or_positional_witness :
  args nothing_inherited [VObj {["value" := VNum 7; "name" := VStr "app.limit"]}] definitionSetArgs
    = args nothing_inherited [VStr "app.limit"; VNum 7] definitionSetArgs /\
  args nothing_inherited [VObj {["limit" := VNum 7]}] definitionSetArgs !! "name"
    = Some (VObj {["limit" := VNum 7]}).
Proof.
  destruct (args_map_or_positional nothing_inherited definitionSetArgs
              {["value" := VNum 7; "name" := VStr "app.limit"]}) as [H _].
  { reflexivity. }
  split.
  - apply H; [cbn; lia|vm_compute; reflexivity|].
    intros [|[|i]] k d Hi; cbn in Hi; try discriminate; injection Hi as <- <-;
      vm_compute; reflexivity.
  - destruct (args_map_or_positional nothing_inherited definitionSetArgs {["limit" := VNum 7]}) as [_ H'].
    { reflexivity. }
    rewrite H' by (vm_compute; reflexivity). vm_compute. reflexivity.
Defined.

End ArgsExamples.

(** ** What a definition stores *)

Lemma set_path_keeps_parent x : forall p w w' par,
  p <> [] ->
  Tree.get_path w (removelast p) = Ok par -> is_object par = true ->
  Tree.set_path w p x = Ok w' ->
  exists par', Tree.get_path w' (removelast p) = Ok par' /\ is_object par' = true.
Proof.
  induction p as [|k p IH]; intros w w' par Hne Hpar Hobj Hset; [done|].
  destruct p as [|k' p].
  - cbn in Hpar. injection Hpar as <-. cbn in Hset.
    destruct w; try discriminate; injection Hset as <-; eexists; by split.
  - change (removelast (k :: k' :: p)) with (k :: removelast (k' :: p)) in *.
    rewrite get_path_cons in *. rewrite set_path_cons in Hset.
    destruct (is_object w) eqn:Hw.
    + rewrite (get_prop_object w k Hw) in *. cbn [Tree.rbind] in *.
      destruct (Tree.set_path (default VUndefined (own_props w !! k)) (k' :: p) x)
        as [c'| |] eqn:Ec; try discriminate.
      cbn [Tree.rbind] in Hset.
      destruct (IH _ c' par ltac:(done) Hpar Hobj Ec) as (par' & Hpar' & Hobj').
      exists par'. split; [|exact Hobj'].
      destruct w; try discriminate; cbn in Hset; injection Hset as <-;
        cbn [Tree.get_prop Tree.rbind]; by rewrite lookup_insert_eq.
    + exfalso. destruct w; try discriminate; cbn in Hpar; try discriminate;
        (eapply (get_path_from_primitive VUndefined); [reflexivity|exact Hpar|exact Hobj]).
Qed.

Lemma get_path_under_object : forall p w par,
  p <> [] ->
  Tree.get_path w (removelast p) = Ok par -> is_object par = true ->
  exists v, Tree.get_path w p = Ok v.
Proof.
  induction p as [|k p IH]; intros w par Hne Hpar Hobj; [done|].
  destruct p as [|k' p].
  - cbn in Hpar. injection Hpar as <-. destruct w; try discriminate; cbn; eauto.
  - change (removelast (k :: k' :: p)) with (k :: removelast (k' :: p)) in *.
    rewrite get_path_cons in *.
    destruct (Tree.get_prop w k) as [c| |]; try discriminate. cbn [Tree.rbind] in *.
    by apply (IH c par).
Qed.

Lemma definitionSet_under_object name x r :
  parent_is_object r name ->
  exists w', definitionSet name x r = (Ok x, with_window w' r) /\
             held_at (with_window w' r) name = x /\
             parent_is_object (with_window w' r) name.
Proof.
  intros (par & Hpar & Hobj).
  destruct (set_path_get_path x (Str.split_dots name) (window r))
    as (w' & Hset & Hget); [apply split_on_nonempty|by exists par|].
  exists w'. unfold definitionSet. rewrite bind_gets, Hset, bind_lift_ok, bind_modify.
  split; [reflexivity|]. split.
  - unfold held_at. cbn [window with_window]. by rewrite Hget.
  - apply (set_path_keeps_parent x (Str.split_dots name) _ _ par
             (split_on_nonempty _ _) Hpar Hobj Hset).
Qed.

Lemma definitionSet_then_held name v r :
  parent_is_object r name ->
  ((definitionSet name v ;;; ret tt) r).1 = Ok tt /\
  held_at ((definitionSet name v ;;; ret tt) r).2 name = v /\
  priorityDefinitions ((definitionSet name v ;;; ret tt) r).2 = priorityDefinitions r.
Proof.
  intros Hpar.
  destruct (definitionSet_under_object name v r Hpar) as (w2 & E & H1 & _).
  rewrite (bind_ok _ _ _ _ _ E). split; [reflexivity|]. split; [exact H1|reflexivity].
Qed.


